(** * vibesdk: the agent core and its collaborators, embedded in Rocq

    Each module below is a shallow embedding of one source file of the
    repository.  Asynchronous functions are modelled by the value their
    promise settles to ([Resolved] or [Rejected]); calls into the
    environment (child processes, the language model, the network) are
    parameters of the embedded function. *)

From Stdlib Require Import ZArith Lia Bool Ascii String.
From stdpp Require Import gmap strings pretty list fin_maps.

Local Open Scope string_scope.
Local Open Scope list_scope.
Local Open Scope Z_scope.
#[local] Set Warnings "-clear-no-such-hyp,-register-all".

(** ** JavaScript preliminaries *)

Module JS.

(** An [Error] object as the sandbox code reads it: [message], and the
    [code], [stdout] and [stderr] properties that [child_process.exec]
    attaches to its rejections. *)
Inductive value :=
| VUndefined
| VNull
| VNum (n : Z)
| VStr (s : string).

Record error := Error {
  message : string;
  code : value;
  err_stdout : option string;
  err_stderr : option string
}.

(** A settled promise. *)
Inductive promise (A : Type) :=
| Resolved (a : A)
| Rejected (e : error).
Arguments Resolved {A} a.
Arguments Rejected {A} e.

(** [try { body } catch (error) { handler }] *)
Definition try_catch {A} (body : promise A) (handler : error -> promise A) : promise A :=
  match body with
  | Resolved a => Resolved a
  | Rejected e => handler e
  end.

(** [await p; k] *)
Definition bind {A B} (p : promise A) (k : A -> promise B) : promise B :=
  match p with
  | Resolved a => k a
  | Rejected e => Rejected e
  end.

(** [new Error(msg)] *)
Definition new_Error (msg : string) : error :=
  Error msg VUndefined None None.

(** Truthiness of a value, as [||] tests it. *)
Definition truthy (v : value) : bool :=
  match v with
  | VUndefined | VNull => false
  | VNum n => negb (Z.eqb n 0)
  | VStr s => negb (String.eqb s "")
  end.

(** [a || b] *)
Definition or_else (a b : value) : value :=
  if truthy a then a else b.

(** [s.includes(sub)] *)
Fixpoint includes (sub s : string) : bool :=
  String.prefix sub s ||
  match s with
  | EmptyString => false
  | String _ rest => includes sub rest
  end.

(** [s.startsWith(p)] *)
Definition startsWith (p s : string) : bool := String.prefix p s.

End JS.

(** ** src/worker/agents/AgentManager.ts *)

Module AgentManager.
Import JS.

(** What the manager needs of [AgentInitArgs] and of an agent object:
    the id under [inferenceContext.agentId], and the identity of the
    object that [new SmartCodeGeneratorAgent] allocates. *)
Record AgentInitArgs := InitArgs {
  agentId : string;
  query : string
}.

Record SmartCodeGeneratorAgent := Agent {
  object_id : nat;
  init_args : AgentInitArgs
}.

Definition registry := gmap string SmartCodeGeneratorAgent.

(** [getAgent]: [this.agents.get(agentId)]. *)
Definition getAgent (agents : gmap string SmartCodeGeneratorAgent) (id : string)
  : option SmartCodeGeneratorAgent :=
  agents !! id.

(** [createAgent].  [initialize] is the outcome of
    [agent.initialize(initArgs, 'deterministic')] on the freshly
    allocated object; [interleaved] is what other tasks do to the
    registry while [createAgent] is suspended at that [await]. *)
Definition createAgent
    (initialize : SmartCodeGeneratorAgent -> promise unit)
    (interleaved : gmap string SmartCodeGeneratorAgent -> gmap string SmartCodeGeneratorAgent)
    (fresh : nat)
    (initArgs : AgentInitArgs)
    (agents : gmap string SmartCodeGeneratorAgent)
  : promise SmartCodeGeneratorAgent * gmap string SmartCodeGeneratorAgent :=
  let id := agentId initArgs in
  if bool_decide (is_Some (agents !! id)) then
    (Rejected (new_Error ("Agent with ID " +:+ id +:+ " already exists.")), agents)
  else
    let agent := Agent fresh initArgs in
    match initialize agent with
    | Rejected e => (Rejected e, interleaved agents)
    | Resolved _ => (Resolved agent, <[id := agent]> (interleaved agents))
    end.

End AgentManager.

(** ** src/worker/services/sandbox/LocalSandbox.ts: exec *)

Module LocalSandboxExec.
Import JS.

Record ExecuteResponse := Response {
  stdout : option string;
  stderr : option string;
  exitCode : value
}.

Record ExecOptions := Options {
  timeout : option Z;
  cwd : option string
}.

(** [options?.cwd || this.getBasePath()]: an absent or empty [cwd] falls
    back to the base path. *)
Definition effective_cwd (basePath : string) (options : option ExecOptions) : string :=
  match options with
  | Some (Options _ (Some c)) => if String.eqb c "" then basePath else c
  | _ => basePath
  end.

Definition options_timeout (options : option ExecOptions) : option Z :=
  match options with
  | Some o => timeout o
  | None => None
  end.

(** [exec].  [execAsync] is the promisified [child_process.exec]: it
    resolves to the pair of captured streams or rejects with an error
    that carries [code], [stdout] and [stderr]. *)
Definition exec
    (execAsync : string -> string -> option Z -> promise (string * string))
    (basePath : string)
    (command : string) (options : option ExecOptions)
  : promise ExecuteResponse :=
  let cwd := effective_cwd basePath options in
  try_catch
    (bind (if includes ".." cwd
           then Rejected (new_Error "Directory traversal is not allowed.")
           else Resolved tt)
       (fun _ =>
          bind (execAsync command cwd (options_timeout options))
            (fun '(out, err) => Resolved (Response (Some out) (Some err) (VNum 0)))))
    (fun error =>
       Resolved (Response (err_stdout error) (err_stderr error)
                   (or_else (code error) (VNum 1)))).

(** The command succeeds: the guard lets the directory through and the
    child process exits normally. *)
Definition succeeds
    (execAsync : string -> string -> option Z -> promise (string * string))
    (basePath : string) (command : string) (options : option ExecOptions) : Prop :=
  let cwd := effective_cwd basePath options in
  includes ".." cwd = false /\
  exists out err, execAsync command cwd (options_timeout options) = Resolved (out, err).

End LocalSandboxExec.

(** ** src/worker/agents/core/state.ts: the conversation log *)

Module Conversation.

Inductive Role := system | user | assistant.

Record ConversationMessage := Message {
  conversationId : string;
  role : Role;
  content : string
}.

Record ConversationState := ConvState {
  cs_id : string;
  runningHistory : list ConversationMessage;
  fullHistory : list ConversationMessage
}.

(** What the behaviour reads and writes: [state.conversationMessages]
    and the two agent-local tables, each row holding the array that
    [JSON.parse] gives back from its [messages] column (no row, an empty
    column and a column that does not parse to an array all read as the
    empty array). *)
Record Store := MkStore {
  conversationMessages : list ConversationMessage;
  full_conversations : gmap string (list ConversationMessage);
  compact_conversations : gmap string (list ConversationMessage)
}.

(** Whether each of the two [INSERT OR REPLACE] statements of
    [setConversationState] goes through; a failing statement throws and
    the surrounding [try] skips what follows. *)
Record SqlOutcome := Sql {
  compact_write_ok : bool;
  full_write_ok : bool
}.

(** The closure [deduplicateMessages] of [getConversationState]:
    [seen] is the [Set] that the filter callback fills. *)
Fixpoint dedup_from (seen : gset string) (messages : list ConversationMessage)
  : list ConversationMessage :=
  match messages with
  | [] => []
  | msg :: rest =>
      if bool_decide (conversationId msg ∈ seen) then dedup_from seen rest
      else msg :: dedup_from ({[conversationId msg]} ∪ seen) rest
  end.

Definition deduplicateMessages (messages : list ConversationMessage) :=
  dedup_from ∅ messages.

Definition read_table (t : gmap string (list ConversationMessage)) (id : string)
  : list ConversationMessage :=
  default [] (t !! id).

(** [getConversationState(id)] *)
Definition getConversationState (st : Store) (id : string) : ConversationState :=
  let currentConversation := conversationMessages st in
  let fullHistory := read_table (full_conversations st) id in
  let fullHistory :=
    if Nat.eqb (length fullHistory) 0 then currentConversation else fullHistory in
  let runningHistory := read_table (compact_conversations st) id in
  let runningHistory :=
    if Nat.eqb (length runningHistory) 0 then currentConversation else runningHistory in
  ConvState id (deduplicateMessages runningHistory) (deduplicateMessages fullHistory).

(** [setConversationState(conversations)] *)
Definition setConversationState (sql : SqlOutcome) (conversations : ConversationState)
    (st : Store) : Store :=
  if compact_write_ok sql then
    let st1 := MkStore (conversationMessages st) (full_conversations st)
                 (<[cs_id conversations := runningHistory conversations]>
                    (compact_conversations st)) in
    if full_write_ok sql then
      MkStore (conversationMessages st1)
        (<[cs_id conversations := fullHistory conversations]> (full_conversations st1))
        (compact_conversations st1)
    else st1
  else st.

(** [history.find(msg => msg.conversationId === id)] *)
Definition find_by_id (id : string) (history : list ConversationMessage)
  : option ConversationMessage :=
  List.find (fun msg => String.eqb (conversationId msg) id) history.

(** One branch pair of [addConversationMessage]: push when no message
    has the id, otherwise map every message with the id to the new one. *)
Definition insert_or_replace (message : ConversationMessage)
    (history : list ConversationMessage) : list ConversationMessage :=
  match find_by_id (conversationId message) history with
  | None => history ++ [message]
  | Some _ =>
      map (fun msg =>
             if String.eqb (conversationId msg) (conversationId message)
             then message else msg) history
  end.

(** [addConversationMessage(message)], on the session [id] that
    [getConversationState] defaults to. *)
Definition addConversationMessage (sql : SqlOutcome) (id : string)
    (message : ConversationMessage) (st : Store) : Store :=
  let conversationState := getConversationState st id in
  let running := insert_or_replace message (runningHistory conversationState) in
  let full := insert_or_replace message (fullHistory conversationState) in
  setConversationState sql (ConvState (cs_id conversationState) running full) st.

Definition ids (history : list ConversationMessage) : list string :=
  map conversationId history.

End Conversation.

(** ** src/worker/services/rate-limit/InMemoryRateLimitStore.ts *)

Module InMemoryRateLimitStore.

Record Bucket := MkBucket {
  count : Z;
  expiresAt : Z
}.

(** [KVRateLimitConfig]: [bucketSize], [burst] and [burstWindow] are
    optional; all quantities are whole numbers (seconds and counts). *)
Record KVRateLimitConfig := Config {
  limit : Z;
  period : Z;
  bucketSize : option Z;
  burst : option Z;
  burstWindow : option Z
}.

Record RateLimitResult := Result {
  success : bool;
  remainingLimit : option Z
}.

(** [x ?? d] *)
Definition nullish (x : option Z) (d : Z) : Z := default d x.

(** Truthiness of an optional number, as [config.burst ? .. : ..] and
    [config.burst && ..] test it: absent and 0 are falsy. *)
Definition configured (x : option Z) : bool :=
  match x with
  | Some b => negb (Z.eqb b 0)
  | None => false
  end.

(** The template string [`ratelimit:${key}:${time}`]. *)
Definition bucketKey (key : string) (time : Z) : string :=
  "ratelimit:" +:+ key +:+ ":" +:+ pretty time.

(** [cleanup]: delete every bucket with [expiresAt < now]. *)
Definition cleanup (now : Z) (store : gmap string Bucket) : gmap string Bucket :=
  filter (fun kb => ~ (expiresAt kb.2 < now)) store.

(** A bucket timestamp as the code computes it: a whole number, or
    [NaN]. *)
Inductive Num :=
| Int (z : Z)
| NaN.

(** [Math.floor(x / bucketSizeMs) * bucketSizeMs] on whole numbers.  A
    division by 0 gives an infinity or [NaN], and the product of that
    with 0 is [NaN]. *)
Definition floor_to_bucket (x bucketSizeMs : Z) : Num :=
  if bucketSizeMs =? 0 then NaN else Int (x / bucketSizeMs * bucketSizeMs).

(** The key of the bucket with timestamp [time], [NaN] printing as
    ["NaN"]. *)
Definition bucketKeyOf (key : string) (time : Num) : string :=
  match time with
  | Int t => bucketKey key t
  | NaN => "ratelimit:" +:+ key +:+ ":NaN"
  end.

(** The [for] loop of [generateBucketKeys]; [fuel] bounds the number of
    iterations. *)
Fixpoint bucket_loop (fuel : nat) (key : string) (time now bucketSizeMs : Z)
  : list string :=
  match fuel with
  | O => []
  | S fuel' =>
      if time <=? now
      then bucketKey key time :: bucket_loop fuel' key (time + bucketSizeMs) now bucketSizeMs
      else []
  end.

(** [generateBucketKeys(key, now, windowMs, bucketSizeMs)].  With a
    bucket size of 0 the loop starts at [NaN], for which [time <= now] is
    false: no key.  With a positive bucket size the loop runs
    [(now - start) / bucketSizeMs + 1] times, and that is the fuel given.
    With a negative one [time] only decreases: the loop does not run when
    it starts above [now], and otherwise its condition stays true and the
    call does not return, which is [None]. *)
Definition generateBucketKeys (key : string) (now windowMs bucketSizeMs : Z)
  : option (list string) :=
  let windowStart := now - windowMs in
  match floor_to_bucket windowStart bucketSizeMs with
  | NaN => Some []
  | Int start =>
      if (bucketSizeMs <? 0) && (start <=? now) then None
      else
        Some (bucket_loop (Z.to_nat ((now - start) / bucketSizeMs + 1))
                key start now bucketSizeMs)
  end.

(** [bucket && bucket.expiresAt > now ? bucket.count : 0] *)
Definition live_count (store : gmap string Bucket) (now : Z) (bucketKey : string) : Z :=
  match store !! bucketKey with
  | Some bucket => if expiresAt bucket >? now then count bucket else 0
  | None => 0
  end.

(** [buckets.reduce((sum, bucketKey) => sum + .., 0)] *)
Definition sum_counts (store : gmap string Bucket) (now : Z) (buckets : list string) : Z :=
  foldl (fun sum bucketKey => sum + live_count store now bucketKey) 0 buckets.

Definition bucketSizeMs (config : KVRateLimitConfig) : Z :=
  nullish (bucketSize config) 10 * 1000.

(** [mainCount] and [burstCount]; [None] when [generateBucketKeys] does
    not return. *)
Definition mainCount (store : gmap string Bucket) (now : Z) (key : string)
    (config : KVRateLimitConfig) : option Z :=
  sum_counts store now
    <$> generateBucketKeys key now (period config * 1000) (bucketSizeMs config).

Definition burstCount (store : gmap string Bucket) (now : Z) (key : string)
    (config : KVRateLimitConfig) : option Z :=
  sum_counts store now
    <$> (if configured (burst config)
         then generateBucketKeys key now (nullish (burstWindow config) 60 * 1000)
                (bucketSizeMs config)
         else Some []).

(** The write at the end of [increment]: bump a live current bucket,
    otherwise start it at 1. *)
Definition bump (store : gmap string Bucket) (now : Z) (currentBucketKey : string)
    (newExpiresAt : Z) : gmap string Bucket :=
  match store !! currentBucketKey with
  | Some currentBucket =>
      if expiresAt currentBucket >? now
      then <[currentBucketKey := MkBucket (count currentBucket + 1) newExpiresAt]> store
      else <[currentBucketKey := MkBucket 1 newExpiresAt]> store
  | None => <[currentBucketKey := MkBucket 1 newExpiresAt]> store
  end.

(** [increment(key, config)].  [sweep] is the outcome of
    [Math.random() < 0.1] and [now] that of [Date.now()], which the sweep
    and the count are taken to read in the same millisecond.  Nothing in
    the [try] block throws on whole-number inputs, so the fail-open
    [catch] is not reached; the result is [None] when a call of
    [generateBucketKeys] does not return. *)
Definition increment (sweep : bool) (now : Z) (key : string) (config : KVRateLimitConfig)
    (store : gmap string Bucket) : option (RateLimitResult * gmap string Bucket) :=
  let store := if sweep then cleanup now store else store in
  let currentBucketTimestamp := floor_to_bucket now (bucketSizeMs config) in
  match mainCount store now key config, burstCount store now key config with
  | Some main, Some burstC =>
      if main >=? limit config then Some (Result false (Some 0), store)
      else if configured (burst config) && (burstC >=? nullish (burst config) 0)
      then Some (Result false (Some 0), store)
      else
        let currentBucketKey := bucketKeyOf key currentBucketTimestamp in
        let maxTtlSeconds :=
          Z.max (period config) (nullish (burstWindow config) 60)
          + nullish (bucketSize config) 10 in
        let newExpiresAt := now + maxTtlSeconds * 1000 in
        Some (Result true (Some (Z.max 0 (limit config - main - 1))),
              bump store now currentBucketKey newExpiresAt)
  | _, _ => None
  end.

(** The timestamps that the loop of [generateBucketKeys] visits, and
    those of a whole window; the keys are their images under
    [bucketKey]. *)
Fixpoint times_loop (fuel : nat) (time now bs : Z) : list Z :=
  match fuel with
  | O => []
  | S fuel' => if time <=? now then time :: times_loop fuel' (time + bs) now bs else []
  end.

Definition window_times (now windowMs bs : Z) : list Z :=
  let start := (now - windowMs) / bs * bs in
  times_loop (Z.to_nat ((now - start) / bs + 1)) start now bs.

(** The keys of a whole window of a positive bucket size. *)
Definition window_keys (key : string) (now windowMs bs : Z) : list string :=
  map (bucketKey key) (window_times now windowMs bs).

(** The main-window count over the keys of a whole window. *)
Definition window_count (store : gmap string Bucket) (now : Z) (key : string)
    (config : KVRateLimitConfig) : Z :=
  sum_counts store now (window_keys key now (period config * 1000) (bucketSizeMs config)).

(** The configuration of the rate-limit trip scenario. *)
Definition scenario_config : KVRateLimitConfig := Config 2 60 (Some 10) None None.

(** [getRemainingLimit(key, config)] at time [now]: the main-window
    count is read as [increment] reads it, without a sweep and without
    the burst window. *)
Definition getRemainingLimit (now : Z) (key : string) (config : KVRateLimitConfig)
    (store : gmap string Bucket) : option Z :=
  (fun mainCount => Z.max 0 (limit config - mainCount)) <$> mainCount store now key config.

End InMemoryRateLimitStore.

(** ** Node's [path] module (POSIX flavour), as the sandbox uses it *)

Module Path.

(** [s.split('/')] *)
Fixpoint split_slash (s : string) : list string :=
  match s with
  | EmptyString => [EmptyString]
  | String c rest =>
      let r := split_slash rest in
      if Ascii.eqb c "/"%char then EmptyString :: r
      else match r with
           | x :: xs => String c x :: xs
           | [] => [String c EmptyString]
           end
  end.

(** One segment of [normalizeString]: [""] and ["."] are dropped, [".."]
    removes the segment before it when there is one that is not itself
    [".."], and is kept only when the path may climb above its start. *)
Definition normalize_step (allowAboveRoot : bool) (res : list string) (seg : string)
  : list string :=
  if String.eqb seg "" || String.eqb seg "." then res
  else if String.eqb seg ".." then
    match last res with
    | Some l =>
        if String.eqb l ".." then (if allowAboveRoot then res ++ [".."] else res)
        else removelast res
    | None => if allowAboveRoot then res ++ [".."] else res
    end
  else res ++ [seg].

Definition normalizeString (path : string) (allowAboveRoot : bool) : string :=
  String.concat "/" (foldl (normalize_step allowAboveRoot) [] (split_slash path)).

Definition ends_with_slash (path : string) : bool :=
  match last (split_slash path) with
  | Some seg => String.eqb seg "" && negb (String.eqb path "")
  | None => false
  end.

(** [path.normalize] *)
Definition normalize (path : string) : string :=
  if String.eqb path "" then "."
  else
    let isAbsolute := String.prefix "/" path in
    let trailingSeparator := ends_with_slash path in
    let p := normalizeString path (negb isAbsolute) in
    if String.eqb p "" then
      (if isAbsolute then "/" else if trailingSeparator then "./" else ".")
    else
      let p := if trailingSeparator then p +:+ "/" else p in
      if isAbsolute then "/" +:+ p else p.

(** [path.join(...args)]: the non-empty arguments joined by ["/"], then
    normalised. *)
Definition join (args : list string) : string :=
  match List.filter (fun a => negb (String.eqb a "")) args with
  | [] => "."
  | parts => normalize (String.concat "/" parts)
  end.

(** [p] names the directory [base] or something below it. *)
Definition inside (base p : string) : bool :=
  String.eqb p base || String.prefix (base +:+ "/") p.

End Path.

(** ** src/worker/services/sandbox/LocalSandbox.ts: files and processes *)

Module LocalSandboxFiles.
Import JS.

Record WriteResponse := WriteResp {
  w_success : bool;
  w_path : string;
  w_error : option string
}.

Record ReadResponse := ReadResp {
  r_success : bool;
  r_content : string;
  r_error : option string;
  r_exitCode : Z
}.

(** [getBasePath()]: [path.join(process.cwd())]. *)
Definition getBasePath (cwd : string) : string := Path.join [cwd].

(** What the file system answers to the two calls of [writeFile],
    [fs.mkdir(path.dirname(fullPath), {recursive: true})] and
    [fs.writeFile(fullPath, content)], on the disk as it is then: done
    ([None]) or failing with an error of the given message.  Both are
    asked by [fullPath]. *)
Record FileSystem := MkFileSystem {
  mkdir_error : gmap string string -> string -> option string;
  writeFile_error : gmap string string -> string -> string -> option string
}.

(** A file system that accepts every directory and every write. *)
Definition accepting : FileSystem := MkFileSystem (fun _ _ => None) (fun _ _ _ => None).

(** [writeFile].  The sandbox's view of the disk is the regular files
    by absolute path: [fs.mkdir] adds directories only, which this map
    does not record, and a write that fails is taken to leave the files
    as they were.  Every error, of the guard or of the file system,
    becomes a response with [success: false] and the error's message. *)
Definition writeFile (fs : FileSystem) (cwd : string) (filePath content : string)
    (disk : gmap string string) : WriteResponse * gmap string string :=
  let fullPath := Path.join [getBasePath cwd; filePath] in
  if includes ".." fullPath then
    (WriteResp false filePath (Some "Directory traversal is not allowed."), disk)
  else
    match mkdir_error fs disk fullPath with
    | Some e => (WriteResp false filePath (Some e), disk)
    | None =>
        match writeFile_error fs disk fullPath content with
        | Some e => (WriteResp false filePath (Some e), disk)
        | None => (WriteResp true filePath None, <[fullPath := content]> disk)
        end
    end.

Definition readFile (cwd : string) (filePath : string) (disk : gmap string string)
  : ReadResponse :=
  let fullPath := Path.join [getBasePath cwd; filePath] in
  if includes ".." fullPath then
    ReadResp false "" (Some "Directory traversal is not allowed.") 1
  else
    match disk !! fullPath with
    | Some content => ReadResp true content None 0
    | None => ReadResp false "" (Some "ENOENT: no such file or directory") 1
    end.

(** [startProcess]: the guard is on the raw [cwd] and is not inside a
    [try]; [spawn] is the environment's, giving the pid. *)
Definition startProcess (spawn : string -> string -> Z) (base : string)
    (command : string) (cwd : option string) : promise string :=
  let dir := match cwd with
             | Some c => if String.eqb c "" then getBasePath base else c
             | None => getBasePath base
             end in
  if includes ".." dir then Rejected (new_Error "Directory traversal is not allowed.")
  else Resolved (pretty (spawn command dir)).

End LocalSandboxFiles.

(** ** src/worker/app.ts: the CSRF middleware of [createApp] *)

Module CsrfMiddleware.
Import JS.

Definition upper_char (c : ascii) : ascii :=
  let n := nat_of_ascii c in
  if (97 <=? n)%nat && (n <=? 122)%nat then ascii_of_nat (n - 32) else c.

Definition lower_char (c : ascii) : ascii :=
  let n := nat_of_ascii c in
  if (65 <=? n)%nat && (n <=? 90)%nat then ascii_of_nat (n + 32) else c.

(** [s.toUpperCase()] and [s.toLowerCase()] on ASCII text. *)
Fixpoint toUpperCase (s : string) : string :=
  match s with
  | EmptyString => EmptyString
  | String c rest => String (upper_char c) (toUpperCase rest)
  end.

Fixpoint toLowerCase (s : string) : string :=
  match s with
  | EmptyString => EmptyString
  | String c rest => String (lower_char c) (toLowerCase rest)
  end.

(** What the middleware reads of the request: [c.req.method],
    [c.req.url] and [c.req.header('upgrade')]. *)
Record Request := Req {
  method : string;
  url : string;
  upgrade : option string
}.

Inductive SecurityErrorType := CSRF_VIOLATION | OTHER_VIOLATION.

(** What a callee may throw: a [SecurityError] of some type, or
    anything else. *)
Inductive thrown :=
| SecurityError (type : SecurityErrorType)
| OtherError (msg : string).

Inductive outcome (A : Type) :=
| Returns (a : A)
| Throws (e : thrown).
Arguments Returns {A} a.
Arguments Throws {A} e.

(** A response as far as the middleware builds or inspects it; the
    body is the object given to [JSON.stringify]. *)
Record Response := Resp {
  status : Z;
  contentType : option string;
  body : list (string * string)
}.

(** The calls the middleware makes, in order. *)
Inductive Event :=
| Validate            (* CsrfService.enforce(c.req.raw, undefined) *)
| Handler             (* next() *)
| SetToken (res : Z). (* CsrfService.enforce(c.req.raw, c.res), with c.res.status *)

(** How the middleware ends: with the response that the rest of the
    chain left in [c.res], with a response of its own, or by throwing. *)
Inductive Result :=
| Downstream (res : Z)
| Own (r : Response)
| Raised (e : thrown).

Definition is_websocket_upgrade (req : Request) : bool :=
  match upgrade req with
  | Some h => String.eqb (toLowerCase h) "websocket"
  | None => false
  end.

Definition is_safe_method (req : Request) : bool :=
  let m := toUpperCase (method req) in
  String.eqb m "GET" || String.eqb m "HEAD" || String.eqb m "OPTIONS".

Definition csrf_violation_response : Response :=
  Resp 403 (Some "application/json")
    [("error", "CSRF validation failed"); ("code", "CSRF_VIOLATION")].

(** The [catch] block. *)
Definition on_error (e : thrown) : Result :=
  match e with
  | SecurityError CSRF_VIOLATION => Own csrf_violation_response
  | _ => Raised e
  end.

(** The middleware.  [validate] is the outcome of
    [CsrfService.enforce(req, undefined)], [set_token] that of
    [CsrfService.enforce(req, c.res)] given the status of [c.res], and
    [next] that of the rest of the chain: the status it leaves in
    [c.res], or what it throws. *)
Definition csrf_middleware
    (validate : Request -> outcome unit)
    (set_token : Request -> Z -> outcome unit)
    (next : outcome Z)
    (req : Request) : list Event * Result :=
  if is_websocket_upgrade req then
    ([Handler], match next with Returns s => Downstream s | Throws e => Raised e end)
  else if is_safe_method req then
    match next with
    | Throws e => ([Handler], on_error e)
    | Returns s =>
        if startsWith "/api/" (url req) && (s <? 400) then
          match set_token req s with
          | Returns _ => ([Handler; SetToken s], Downstream s)
          | Throws e => ([Handler; SetToken s], on_error e)
          end
        else ([Handler], Downstream s)
    end
  else
    match validate req with
    | Throws e => ([Validate], on_error e)
    | Returns _ =>
        match next with
        | Returns s => ([Validate; Handler], Downstream s)
        | Throws e => ([Validate; Handler], on_error e)
        end
    end.

End CsrfMiddleware.

(** ** src/worker/services/github/GitHubService.ts: forcePushToGitHub *)

Module GitHubExport.

Record File := MkFile {
  path : string;
  content : string
}.

(** A local commit as [git.log] and [walkGitTree] present it: its oid,
    message and the flat file list of its tree. *)
Record LocalCommit := MkCommit {
  oid : string;
  message : string;
  files : list File
}.

(** Calls made on the GitHub API, in the order they are issued. *)
Inductive ApiCall :=
| CreateBlob (content : string)
| CreateTree (entries : list (string * option string))
| CreateCommit (message : string) (tree : string) (parents : list string)
| UpdateRef (sha : string).

(** A [createBlob] request that has been issued and whose continuation
    ([blobCache.set], [fileToGitHubBlob.set], [totalBlobsCreated++]) has
    not run yet. *)
Record Pending := MkPending {
  p_hash : string;
  p_path : string;
  p_content : string
}.

Record ExportState := MkState {
  blobCache : gmap string string;
  calls : list ApiCall;
  totalBlobsCreated : nat;
  totalBlobsReused : nat;
  fileToGitHubBlob : gmap string string;
  pending : list Pending
}.

Section Pipeline.

(** [hashContent] (SHA-256 in hexadecimal) and the shas that GitHub
    answers with. *)
Variable hashContent : string -> string.
Variable blobSha : string -> string.
Variable treeSha : list (string * option string) -> string.
Variable commitSha : string -> string -> list string -> string.

(** The continuation of one [createBlob] request. *)
Definition settle (st : ExportState) (p : Pending) : ExportState :=
  MkState (<[p_hash p := blobSha (p_content p)]> (blobCache st))
    (calls st)
    (S (totalBlobsCreated st))
    (totalBlobsReused st)
    (<[p_path p := blobSha (p_content p)]> (fileToGitHubBlob st))
    (pending st).

(** While the loop is suspended at an [await], the responses flagged in
    [arrived] (one flag per pending request, oldest first; a missing flag
    means not yet) run their continuations. *)
Fixpoint deliver (arrived : list bool) (waiting : list Pending) (st : ExportState)
  {struct waiting} : ExportState * list Pending :=
  match waiting with
  | [] => (st, [])
  | p :: rest =>
      match arrived with
      | true :: flags => deliver flags rest (settle st p)
      | false :: flags =>
          let '(st', others) := deliver flags rest st in (st', p :: others)
      | [] => (st, waiting)
      end
  end.

(** One iteration of [for (const file of files)]: the [await] on
    [hashContent], then the cache test. *)
Definition process_file (arrived : list bool) (st : ExportState) (file : File)
  : ExportState :=
  let '(st, waiting) := deliver arrived (pending st) st in
  let contentHash := hashContent (content file) in
  match blobCache st !! contentHash with
  | Some sha =>
      MkState (blobCache st) (calls st) (totalBlobsCreated st)
        (S (totalBlobsReused st))
        (<[path file := sha]> (fileToGitHubBlob st))
        waiting
  | None =>
      MkState (blobCache st) (calls st ++ [CreateBlob (content file)])
        (totalBlobsCreated st) (totalBlobsReused st)
        (fileToGitHubBlob st)
        (waiting ++ [MkPending contentHash (path file) (content file)])
  end.

(** The file loop of one commit; [schedule] gives the arrivals at each
    iteration and is handed back with what is left of it. *)
Fixpoint process_files (schedule : list (list bool)) (st : ExportState)
    (fs : list File) : ExportState * list (list bool) :=
  match fs with
  | [] => (st, schedule)
  | file :: rest =>
      process_files (tail schedule) (process_file (default [] (head schedule)) st file) rest
  end.

(** [await Promise.all(blobCreationPromises)]: every outstanding
    response arrives. *)
Definition await_all (st : ExportState) : ExportState :=
  let st' := foldl settle st (pending st) in
  MkState (blobCache st') (calls st') (totalBlobsCreated st') (totalBlobsReused st')
    (fileToGitHubBlob st') [].

(** One iteration of the commit loop. *)
Definition push_commit (acc : ExportState * list (list bool) * option string)
    (commit : LocalCommit) : ExportState * list (list bool) * option string :=
  let '(st, schedule, parentSha) := acc in
  match files commit with
  | [] => acc
  | fs =>
      let st := MkState (blobCache st) (calls st) (totalBlobsCreated st)
                  (totalBlobsReused st) ∅ [] in
      let '(st, schedule) := process_files schedule st fs in
      let st := await_all st in
      let entries := map (fun f => (path f, fileToGitHubBlob st !! path f)) fs in
      let tree := treeSha entries in
      let parents := match parentSha with Some p => [p] | None => [] end in
      let sha := commitSha (message commit) tree parents in
      (MkState (blobCache st)
         (calls st ++ [CreateTree entries; CreateCommit (message commit) tree parents])
         (totalBlobsCreated st) (totalBlobsReused st) (fileToGitHubBlob st) [],
       schedule, Some sha)
  end.

Definition initial : ExportState := MkState ∅ [] 0 0 ∅ [].

(** [forcePushToGitHub], from the creation of [blobCache] on; [commits]
    is newest first, as [git.log] returns it.  [None] stands for the
    error "No commits were created". *)
Definition forcePushToGitHub (schedule : list (list bool)) (commits : list LocalCommit)
  : option (ExportState * string) :=
  let '(st, _, parentSha) :=
    foldl push_commit (initial, schedule, None) (reverse commits) in
  match parentSha with
  | None => None
  | Some sha =>
      Some (MkState (blobCache st) (calls st ++ [UpdateRef sha])
              (totalBlobsCreated st) (totalBlobsReused st) (fileToGitHubBlob st) [],
            sha)
  end.

(** The contents sent to [createBlob], in order. *)
Definition blobs_created (calls : list ApiCall) : list string :=
  omap (fun c => match c with CreateBlob content => Some content | _ => None end) calls.

(** What links the cache, the requests issued so far ([created]) and
    the requests still outstanding ([waiting]), where [seen] lists the
    contents of all files handled so far and [current] those of the
    commit being pushed. *)
Definition consistent (seen current : list string) (cache : gmap string string)
    (created : list string) (waiting : list Pending) : Prop :=
  NoDup created /\
  (forall h, h ∈ dom cache -> exists c, c ∈ created /\ hashContent c = h) /\
  (forall c, c ∈ created ->
             hashContent c ∈ dom cache \/ exists p, p ∈ waiting /\ p_content p = c) /\
  (forall p, p ∈ waiting ->
             p_hash p = hashContent (p_content p) /\
             p_content p ∈ created /\ p_content p ∈ current) /\
  (forall c, c ∈ created <-> c ∈ seen).

(** Between commits nothing is outstanding. *)
Definition settled (seen : list string) (st : ExportState) : Prop :=
  consistent seen [] (blobCache st) (blobs_created (calls st)) [].

End Pipeline.

(** The contents of all files of all commits. *)
Definition all_contents (commits : list LocalCommit) : list string :=
  concat (map (fun c => map content (files c)) commits).

(** No commit holds two files with the same content. *)
Definition distinct_within_commits (commits : list LocalCommit) : Prop :=
  Forall (fun c => NoDup (map content (files c))) commits.

End GitHubExport.

(** ** src/worker/agents/core/state.ts: the phasic state machine *)

Module PhasicAgent.

Inductive CurrentDevState :=
| IDLE
| PHASE_GENERATING
| PHASE_IMPLEMENTING
| REVIEWING
| FINALIZING.

Definition MAX_PHASES : Z := 12.

Record PhaseConceptType := Phase {
  name : string;
  description : string;
  files : list string;
  lastPhase : bool
}.

Record PhaseState := MkPhaseState {
  concept : PhaseConceptType;
  completed : bool
}.

(** The fields of [PhasicState] that the build loop reads or writes. *)
Record PhasicState := MkPhasic {
  initialPhase : PhaseConceptType;      (* blueprint.initialPhase *)
  generatedPhases : list PhaseState;
  phasesCounter : Z;
  pendingUserInputs : list string;
  currentPhase : option PhaseConceptType;
  mvpGenerated : bool;
  reviewingInitiated : bool
}.

(** What an awaited operation may do: return, throw a
    [RateLimitExceededError], or throw anything else. *)
Inductive attempt (A : Type) :=
| Done (a : A)
| RateLimited
| Failed.
Arguments Done {A} a.
Arguments RateLimited {A}.
Arguments Failed {A}.

(** The environment of a build: the answers of the awaited operations,
    by call number.  [issues n] is the [fetchAllIssues] that precedes the
    n-th [generateNextPhase] operation, [generate n] that operation,
    [implement n] the n-th [implementPhase] (issue fetch, operation,
    save, deploy, fixes), [review] the issue fetch of the review cycle,
    telling whether issues were found. *)
Record Environment := Env {
  issues : nat -> attempt unit;
  generate : nat -> attempt PhaseConceptType;
  implement : nat -> attempt unit;
  review : attempt bool
}.

(** The agent while it builds: its state and how many operations it
    has run. *)
Record Machine := MkMachine {
  state : PhasicState;
  generations : nat;
  implementations : nat
}.

Inductive Event :=
| Enter (s : CurrentDevState)
| Implemented (phase : PhaseConceptType) (counter : Z)
| PromptedForDebug.

(** How [launchStateMachine] leaves its loop: the state became [IDLE],
    its [catch] caught an error, or (in this model only) the fuel ran
    out. *)
Inductive Stop := ReachedIdle | CaughtError | OutOfFuel.

Definition with_phases (s : PhasicState) (phases : list PhaseState) : PhasicState :=
  MkPhasic (initialPhase s) phases (phasesCounter s) (pendingUserInputs s)
    (currentPhase s) (mvpGenerated s) (reviewingInitiated s).

Definition with_counter (s : PhasicState) (counter : Z) : PhasicState :=
  MkPhasic (initialPhase s) (generatedPhases s) counter (pendingUserInputs s)
    (currentPhase s) (mvpGenerated s) (reviewingInitiated s).

Definition with_pending (s : PhasicState) (inputs : list string) : PhasicState :=
  MkPhasic (initialPhase s) (generatedPhases s) (phasesCounter s) inputs
    (currentPhase s) (mvpGenerated s) (reviewingInitiated s).

Definition with_currentPhase (s : PhasicState) (p : option PhaseConceptType) : PhasicState :=
  MkPhasic (initialPhase s) (generatedPhases s) (phasesCounter s) (pendingUserInputs s)
    p (mvpGenerated s) (reviewingInitiated s).

Definition with_mvpGenerated (s : PhasicState) : PhasicState :=
  MkPhasic (initialPhase s) (generatedPhases s) (phasesCounter s) (pendingUserInputs s)
    (currentPhase s) true (reviewingInitiated s).

Definition with_reviewingInitiated (s : PhasicState) : PhasicState :=
  MkPhasic (initialPhase s) (generatedPhases s) (phasesCounter s) (pendingUserInputs s)
    (currentPhase s) (mvpGenerated s) true.

Definition on_state (f : PhasicState -> PhasicState) (m : Machine) : Machine :=
  MkMachine (f (state m)) (generations m) (implementations m).

(** [rechargePhasesCounter(max_phases)] *)
Definition rechargePhasesCounter (max_phases : Z) (s : PhasicState) : PhasicState :=
  if phasesCounter s <=? max_phases then with_counter s max_phases else s.

(** [decrementPhasesCounter()]: the new state and the value returned. *)
Definition decrementPhasesCounter (s : PhasicState) : PhasicState * Z :=
  let counter := phasesCounter s - 1 in
  (with_counter s counter, counter).

(** [createNewIncompletePhase(phaseConcept)] *)
Definition createNewIncompletePhase (p : PhaseConceptType) (s : PhasicState) : PhasicState :=
  with_phases s (generatedPhases s ++ [MkPhaseState p false]).

(** [markPhaseComplete(phaseName)] *)
Definition markPhaseComplete (phaseName : string) (s : PhasicState) : PhasicState :=
  let phases := generatedPhases s in
  if existsb (fun p => String.eqb (name (concept p)) phaseName) phases then
    with_phases s
      (map (fun p => if String.eqb (name (concept p)) phaseName
                     then MkPhaseState (concept p) true else p) phases)
  else s.

(** [queueUserRequest(request)] of the phasic behaviour: recharge to 3,
    then append the request. *)
Definition queueUserRequest (request : string) (s : PhasicState) : PhasicState :=
  let s := rechargePhasesCounter 3 s in
  with_pending s (pendingUserInputs s ++ [request]).

(** [fetchPendingUserRequests()] *)
Definition fetchPendingUserRequests (s : PhasicState) : PhasicState * list string :=
  let inputs := pendingUserInputs s in
  (match inputs with [] => s | _ => with_pending s [] end, inputs).

(** [implementPhase(phase, ..)]: the operation, then
    [markPhaseComplete]. *)
Definition implementPhase (env : Environment) (phase : PhaseConceptType) (m : Machine)
  : attempt unit * Machine :=
  let m' := MkMachine (state m) (generations m) (S (implementations m)) in
  match implement env (implementations m) with
  | Done _ => (Done tt, on_state (markPhaseComplete (name phase)) m')
  | RateLimited => (RateLimited, m')
  | Failed => (Failed, m')
  end.

(** [generateNextPhase(..)]: no files means no next phase. *)
Definition generateNextPhase (env : Environment) (m : Machine)
  : attempt (option PhaseConceptType) * Machine :=
  let m' := MkMachine (state m) (S (generations m)) (implementations m) in
  match generate env (generations m) with
  | Done result =>
      match files result with
      | [] => (Done None, m')
      | _ => (Done (Some result), on_state (createNewIncompletePhase result) m')
      end
  | RateLimited => (RateLimited, m')
  | Failed => (Failed, m')
  end.

(** The result of a state's handler: the next state with the phase it
    hands over, or the rethrown rate-limit error. *)
Inductive Handled :=
| Next (s : CurrentDevState) (result : option PhaseConceptType)
| Rethrown.

(** [executePhaseGeneration()]: the issues are fetched first, and only
    then are the pending user requests read and the queue emptied; an
    error of the fetch leaves the queue as it was. *)
Definition executePhaseGeneration (env : Environment) (m : Machine) : Handled * Machine :=
  match issues env (generations m) with
  | RateLimited => (Rethrown, m)
  | Failed => (Next IDLE None, m)
  | Done _ =>
      let '(s, _) := fetchPendingUserRequests (state m) in
      let m := MkMachine s (generations m) (implementations m) in
      match generateNextPhase env m with
      | (Done None, m) => (Next FINALIZING None, m)
      | (Done (Some nextPhase), m) =>
          (Next PHASE_IMPLEMENTING (Some nextPhase),
           on_state (fun s => with_currentPhase s (Some nextPhase)) m)
      | (RateLimited, m) => (Rethrown, m)
      | (Failed, m) => (Next IDLE None, m)
      end
  end.

(** The part of [executePhaseImplementation] that follows the choice of
    the phase. *)
Definition implement_chosen (env : Environment) (phaseConcept : PhaseConceptType)
    (m : Machine) : Handled * Machine * list Event :=
  let m := on_state (fun s => with_currentPhase s None) m in
  match implementPhase env phaseConcept m with
  | (Done _, m) =>
      let '(s, phasesCounter) := decrementPhasesCounter (state m) in
      let m := MkMachine s (generations m) (implementations m) in
      let next :=
        if (lastPhase phaseConcept || (phasesCounter <=? 0))
           && Nat.eqb (length (pendingUserInputs s)) 0
        then FINALIZING else PHASE_GENERATING in
      (Next next None, m, [Implemented phaseConcept phasesCounter])
  | (RateLimited, m) => (Rethrown, m, [])
  | (Failed, m) => (Next IDLE None, m, [])
  end.

(** [executePhaseImplementation(phaseConcept, ..)] *)
Definition executePhaseImplementation (env : Environment)
    (phaseConcept : option PhaseConceptType) (m : Machine)
  : Handled * Machine * list Event :=
  match phaseConcept with
  | Some p => implement_chosen env p m
  | None =>
      match currentPhase (state m) with
      | Some p => implement_chosen env p m
      | None =>
          match executePhaseGeneration env m with
          | (Next _ (Some p), m) => implement_chosen env p m
          | (Next _ None, m) => (Next FINALIZING None, m, [])
          | (Rethrown, m) => (Rethrown, m, [])
          end
      end
  end.

Definition finalization_phase : PhaseConceptType :=
  Phase "Finalization and Review"
    "Full polishing and final review of the application" [] true.

(** [executeFinalizing()]; an error of its [implementPhase] is not
    caught here. *)
Definition executeFinalizing (env : Environment) (m : Machine)
  : attempt CurrentDevState * Machine :=
  if mvpGenerated (state m) then (Done REVIEWING, m)
  else
    let m := on_state with_mvpGenerated m in
    let m := on_state (createNewIncompletePhase finalization_phase) m in
    match implementPhase env finalization_phase m with
    | (Done _, m) => (Done REVIEWING, m)
    | (RateLimited, m) => (RateLimited, m)
    | (Failed, m) => (Failed, m)
    end.

(** [executeReviewCycle()] *)
Definition executeReviewCycle (env : Environment) (m : Machine)
  : attempt CurrentDevState * Machine * list Event :=
  if reviewingInitiated (state m) then (Done IDLE, m, [])
  else
    let m := on_state with_reviewingInitiated m in
    match review env with
    | Done true => (Done IDLE, m, [PromptedForDebug])
    | Done false => (Done IDLE, m, [])
    | RateLimited => (RateLimited, m, [])
    | Failed => (Failed, m, [])
    end.

(** The [while (currentDevState !== IDLE)] loop of
    [launchStateMachine], inside its [try]. *)
Fixpoint state_machine_loop (env : Environment) (fuel : nat)
    (currentDevState : CurrentDevState) (phaseConcept : option PhaseConceptType)
    (m : Machine) : list Event * Stop * Machine :=
  match currentDevState with
  | IDLE => ([], ReachedIdle, m)
  | _ =>
      match fuel with
      | O => ([], OutOfFuel, m)
      | S fuel =>
          let continue next concept m events :=
            let '(rest, stop, m) := state_machine_loop env fuel next concept m in
            (Enter currentDevState :: events ++ rest, stop, m) in
          let caught m events := (Enter currentDevState :: events, CaughtError, m) in
          match currentDevState with
          | PHASE_GENERATING =>
              match executePhaseGeneration env m with
              | (Next next result, m) => continue next result m []
              | (Rethrown, m) => caught m []
              end
          | PHASE_IMPLEMENTING =>
              match executePhaseImplementation env phaseConcept m with
              | (Next next _, m, events) => continue next phaseConcept m events
              | (Rethrown, m, events) => caught m events
              end
          | REVIEWING =>
              match executeReviewCycle env m with
              | (Done next, m, events) => continue next phaseConcept m events
              | (_, m, events) => caught m events
              end
          | FINALIZING =>
              match executeFinalizing env m with
              | (Done next, m) => continue next phaseConcept m []
              | (_, m) => caught m []
              end
          | IDLE => ([], ReachedIdle, m)
          end
      end
  end.

(** [launchStateMachine()]: choose where to start, then loop. *)
Definition launchStateMachine (env : Environment) (fuel : nat) (m : Machine)
  : list Event * Stop * Machine :=
  let generatedPhases := generatedPhases (state m) in
  let incompletedPhases := List.filter (fun phase => negb (completed phase)) generatedPhases in
  match last incompletedPhases with
  | Some phase =>
      state_machine_loop env fuel PHASE_IMPLEMENTING (Some (concept phase)) m
  | None =>
      match generatedPhases with
      | _ :: _ => state_machine_loop env fuel PHASE_GENERATING None m
      | [] =>
          let phaseConcept := initialPhase (state m) in
          state_machine_loop env fuel PHASE_IMPLEMENTING (Some phaseConcept)
            (on_state (createNewIncompletePhase phaseConcept) m)
      end
  end.

(** The phases implemented in [PHASE_IMPLEMENTING]. *)
Definition implemented (events : list Event) : list PhaseConceptType :=
  omap (fun e => match e with Implemented p _ => Some p | _ => None end) events.


(** The counters reported by the [Implemented] events. *)
Definition counters (events : list Event) : list Z :=
  omap (fun e => match e with Implemented _ c => Some c | _ => None end) events.

End PhasicAgent.

Module PhasicBudget.
Import PhasicAgent.





(** An environment in which every generated phase has a file and is
    not the last one. *)
Definition endless : Environment :=
  Env (fun _ => Done tt)
    (fun n => Done (Phase ("phase " +:+ pretty n) "more" ["src/App.tsx"] false))
    (fun _ => Done tt) (Done false).

Definition fresh_state (lastInitial : bool) : PhasicState :=
  MkPhasic (Phase "initial" "first phase" ["src/App.tsx"] lastInitial)
    [] MAX_PHASES [] None false false.



End PhasicBudget.

(** ** The git library, as [GitVersionControl] drives it

    The objects and references of a repository with the operations of
    the library that src/unnamed/part_005 calls, after the library's
    documentation.  Objects are content-addressed: a commit's oid is
    modelled by the commit itself, a blob's by its content. *)

Module Git.

Record Author := MkAuthor {
  author_name : string;
  author_email : string;
  author_timestamp : Z          (* seconds *)
}.

Inductive Commit :=
| MkCommit (tree : gmap string string) (parent : option Commit)
    (message : string) (author : Author).

Definition tree (c : Commit) : gmap string string :=
  match c with MkCommit t _ _ _ => t end.
Definition parent (c : Commit) : option Commit :=
  match c with MkCommit _ p _ _ => p end.
Definition message (c : Commit) : string :=
  match c with MkCommit _ _ m _ => m end.
Definition author (c : Commit) : Author :=
  match c with MkCommit _ _ _ a => a end.

(** The number of commits on the first-parent chain of [c]. *)
Fixpoint chain_length (c : Commit) : nat :=
  match c with
  | MkCommit _ p _ _ => S (match p with Some c' => chain_length c' | None => 0 end)
  end.

(** The content of [.git/HEAD]: a symbolic reference to a branch, or
    an oid (a detached HEAD). *)
Inductive HeadRef :=
| Symbolic (branch : string)
| Detached (oid : Commit).

Record Repo := MkRepo {
  workdir : gmap string string;        (* files of the working tree *)
  index : gmap string string;          (* staged path -> blob *)
  HEAD : HeadRef;
  branches : gmap string Commit        (* refs/heads/<name> *)
}.

(** A reference as the callers spell it: ['HEAD'], a branch name, or a
    full oid. *)
Inductive Ref :=
| RefHEAD
| RefBranch (name : string)
| RefOid (oid : Commit).

(** [git.init({defaultBranch: 'main'})] on an empty store. *)
Definition init : Repo := MkRepo ∅ ∅ (Symbolic "main") ∅.

(** [git.resolveRef]; [None] is its [NotFoundError]. *)
Definition resolveRef (r : Repo) (ref : Ref) : option Commit :=
  match ref with
  | RefHEAD =>
      match HEAD r with
      | Symbolic b => branches r !! b
      | Detached c => Some c
      end
  | RefBranch b => branches r !! b
  | RefOid c => Some c
  end.

(** The tree that HEAD designates; the empty tree before the first
    commit. *)
Definition head_tree (r : Repo) : gmap string string :=
  match resolveRef r RefHEAD with
  | Some c => tree c
  | None => ∅
  end.

(** [fs.writeFile(path, content)] *)
Definition writeFile (path content : string) (r : Repo) : Repo :=
  MkRepo (<[path := content]> (workdir r)) (index r) (HEAD r) (branches r).

(** [git.add({filepath})]: the index entry becomes the blob of the
    working-tree file; a path without a file loses its entry. *)
Definition add (path : string) (r : Repo) : Repo :=
  MkRepo (workdir r)
    (match workdir r !! path with
     | Some content => <[path := content]> (index r)
     | None => delete path (index r)
     end)
    (HEAD r) (branches r).

(** A row of [git.statusMatrix]: [[filepath, HEAD, WORKDIR, STAGE]]. *)
Definition Row : Type := string * Z * Z * Z.

Definition row_path (row : Row) : string := row.1.1.1.
Definition row1 (row : Row) : Z := row.1.1.2.
Definition row2 (row : Row) : Z := row.1.2.
Definition row3 (row : Row) : Z := row.2.

(** HEAD: absent 0, present 1.  WORKDIR: absent 0, identical to HEAD
    1, different from HEAD 2.  STAGE: absent 0, identical to HEAD 1,
    identical to WORKDIR 2, different from WORKDIR 3. *)
Definition status_row (r : Repo) (path : string) : Row :=
  let h := head_tree r !! path in
  let w := workdir r !! path in
  let s := index r !! path in
  (path,
   (if h is Some _ then 1 else 0),
   (if w is Some _ then (if bool_decide (w = h) then 1 else 2) else 0),
   (if s is Some _ then
      (if bool_decide (s = h) then 1 else if bool_decide (s = w) then 2 else 3)
    else 0)).

(** [git.statusMatrix]: one row per path of HEAD, the working tree or
    the index.  It does not fail on a repository without commits. *)
Definition statusMatrix (r : Repo) : option (list Row) :=
  Some (map (status_row r)
          (elements (dom (head_tree r) ∪ dom (workdir r) ∪ dom (index r)))).

(** [git.commit({message, author})]: a commit of the index on top of
    the commit HEAD resolves to.  The reference it then writes is the one
    that HEAD names: the branch when HEAD is symbolic, which so advances.
    When HEAD is detached that name is the oid itself, and the new commit
    is recorded under a reference of that name, which no call of
    [GitVersionControl] reads: neither HEAD nor a branch moves. *)
Definition commit (message : string) (author : Author) (r : Repo) : Commit * Repo :=
  let c := MkCommit (index r) (resolveRef r RefHEAD) message author in
  (c,
   match HEAD r with
   | Symbolic b => MkRepo (workdir r) (index r) (HEAD r) (<[b := c]> (branches r))
   | Detached _ => r
   end).

(** The walk of [git.log({depth})] from a commit, parent first; it
    stops once [depth] commits are collected. *)
Fixpoint walk (depth : nat) (collected : nat) (c : Commit) : list Commit :=
  match c with
  | MkCommit _ p _ _ =>
      c :: (if Nat.eqb (S collected) depth then []
            else match p with
                 | Some c' => walk depth (S collected) c'
                 | None => []
                 end)
  end.

(** [git.log({ref, depth})]; [None] when the reference does not
    resolve. *)
Definition log (r : Repo) (ref : Ref) (depth : nat) : option (list Commit) :=
  match resolveRef r ref with
  | Some c => Some (walk depth 0 c)
  | None => None
  end.

(** [git.writeRef({ref: 'HEAD', value: oid, force: true})] *)
Definition writeRef_HEAD (oid : Commit) (r : Repo) : Repo :=
  MkRepo (workdir r) (index r) (Detached oid) (branches r).

(** [git.checkout({ref, force: true})]: working tree and index become
    the tree of the commit; HEAD becomes symbolic for a branch name and
    the oid otherwise. *)
Definition checkout (ref : Ref) (r : Repo) : option Repo :=
  match resolveRef r ref with
  | Some c =>
      Some (MkRepo (tree c) (tree c)
              (match ref with
               | RefBranch b => Symbolic b
               | RefHEAD => HEAD r
               | RefOid _ => Detached c
               end)
              (branches r))
  | None => None
  end.

(** [git.listFiles({ref})] *)
Definition listFiles (r : Repo) (ref : Ref) : option (list string) :=
  match resolveRef r ref with
  | Some c => Some (elements (dom (tree c)))
  | None => None
  end.

End Git.

(** ** src/unnamed/part_005: GitVersionControl *)

Module GitVersionControl.
Import JS.

Record FileSnapshot := Snapshot {
  filePath : string;
  fileContents : string
}.

Record CommitInfo := Info {
  oid : Git.Commit;
  message : string;
  author : string;
  timestamp : Z
}.

Definition default_author : string * string := ("Vibesdk", "vibesdk-bot@cloudflare.com").

(** [f.filePath.startsWith('/') ? f.filePath.slice(1) : f.filePath] *)
Definition normalize_path (p : string) : string :=
  match p with
  | String "/" rest => rest
  | _ => p
  end.

(** What the store and the library answer in the staging loop:
    [fs.writeFile(path, content)] and [git.add({filepath})] on the
    repository as it is then, each either done ([None]) or throwing an
    error with the given message. *)
Record Storage := MkStorage {
  writeFile_error : Git.Repo -> string -> string -> option string;
  add_error : Git.Repo -> string -> option string
}.

(** A store and a library that accept every file. *)
Definition accepting : Storage := MkStorage (fun _ _ _ => None) (fun _ _ => None).

(** [new Error(`Failed to stage file ${file.path}: ${error.message}`)] *)
Definition stage_failure (path e : string) : error :=
  new_Error ("Failed to stage file " +:+ path +:+ ": " +:+ e).

(** One turn of the staging loop: write the file, then [git.add];
    an error of either is rethrown with the path. *)
Definition stage_file (st : Storage) (r : Git.Repo) (f : FileSnapshot)
  : promise unit * Git.Repo :=
  let path := normalize_path (filePath f) in
  match writeFile_error st r path (fileContents f) with
  | Some e => (Rejected (stage_failure path e), r)
  | None =>
      let r := Git.writeFile path (fileContents f) r in
      match add_error st r path with
      | Some e => (Rejected (stage_failure path e), r)
      | None => (Resolved tt, Git.add path r)
      end
  end.

(** [stage(files)]: the loop stops at the first file that fails. *)
Fixpoint stage (st : Storage) (files : list FileSnapshot) (r : Git.Repo)
  : promise unit * Git.Repo :=
  match files with
  | [] => (Resolved tt, r)
  | f :: rest =>
      match stage_file st r f with
      | (Resolved _, r) => stage st rest r
      | (Rejected e, r) => (Rejected e, r)
      end
  end.

(** [status.some(row => row[1] !== row[2])] *)
Definition some_row_differs (status : list Git.Row) : bool :=
  existsb (fun row => negb (Z.eqb (Git.row1 row) (Git.row2 row))) status.

Section Operations.

Variable st : Storage.

(** [new Date(ms).toISOString()] *)
Variable toISOString : Z -> string.

(** The author given to the constructor, or the default one. *)
Variable author_identity : string * string.

(** [commit(files, message)] at time [now] (milliseconds); it resolves
    to the new oid or to [None] for "no changes", and rejects when
    staging does. *)
Definition commit (files : list FileSnapshot) (message : option string) (now : Z)
    (r : Git.Repo) : promise (option Git.Commit) * Git.Repo :=
  match (match files with [] => (Resolved tt, r) | _ => stage st files r end) with
  | (Rejected e, r) => (Rejected e, r)
  | (Resolved _, r) =>
      let hasChanges :=
        match Git.statusMatrix r with
        | Some status => some_row_differs status
        | None => true
        end in
      if negb hasChanges then (Resolved None, r)
      else
        let msg := match message with
                   | Some m => if String.eqb m "" then None else Some m
                   | None => None
                   end in
        let msg := default ("Auto-checkpoint (" +:+ toISOString now +:+ ")") msg in
        let '(c, r) :=
          Git.commit msg
            (Git.MkAuthor author_identity.1 author_identity.2 (now / 1000)) r in
        (Resolved (Some c), r)
  end.

End Operations.

Definition commit_info (c : Git.Commit) : CommitInfo :=
  Info c (Git.message c)
    (Git.author_name (Git.author c) +:+ " <" +:+ Git.author_email (Git.author c) +:+ ">")
    (Git.author_timestamp (Git.author c) * 1000).

(** [log(limit)]: [git.log] on the branch [main]; any failure gives
    the empty list. *)
Definition log (limit : nat) (r : Git.Repo) : list CommitInfo :=
  match Git.log r (Git.RefBranch "main") limit with
  | Some commits => map commit_info commits
  | None => []
  end.

(** [getHead()] *)
Definition getHead (r : Git.Repo) : option Git.Commit := Git.resolveRef r Git.RefHEAD.

(** [reset(ref, {hard})]; [hard] is [options?.hard !== false].  The
    result is [{ref, filesReset}], or a rejection when the reference does
    not resolve. *)
Definition reset (ref : Git.Ref) (hard : bool) (r : Git.Repo)
  : option (Git.Ref * nat) * Git.Repo :=
  match Git.resolveRef r ref with
  | None => (None, r)
  | Some oid =>
      let r1 := Git.writeRef_HEAD oid r in
      match (if hard then Git.checkout ref r1 else Some r1) with
      | None => (None, r1)
      | Some r2 =>
          match Git.listFiles r2 ref with
          | Some files => (Some (ref, length files), r2)
          | None => (None, r2)
          end
      end
  end.

(** The commits reachable from HEAD, parent first. *)
Definition history_from_head (limit : nat) (r : Git.Repo) : list CommitInfo :=
  match Git.log r Git.RefHEAD limit with
  | Some commits => map commit_info commits
  | None => []
  end.

(** The map that the staging loop leaves in the working tree and in
    the index. *)
Definition staged (files : list FileSnapshot) (m : gmap string string)
  : gmap string string :=
  foldl (fun m f => <[normalize_path (filePath f) := fileContents f]> m) m files.

(** The repository once every file has been written and added. *)
Definition staged_repo (files : list FileSnapshot) (r : Git.Repo) : Git.Repo :=
  Git.MkRepo (staged files (Git.workdir r)) (staged files (Git.index r))
    (Git.HEAD r) (Git.branches r).

(** Working tree and index agree, as [stage] and a hard [reset] leave
    them. *)
Definition in_sync (r : Git.Repo) : Prop := Git.workdir r = Git.index r.

End GitVersionControl.

(** ** src/worker/services/cache/KVCache.ts: InMemoryCache *)

Module InMemoryCache.
Import JS.

Section Cache.

(** The type of the cached values. *)
Context {T : Type}.

Record CacheEntry := Entry {
  value : T;
  expiresAt : option Z
}.

(** [`cache-${prefix}:${key}`] *)
Definition generateKey (prefix key : string) : string :=
  "cache-" +:+ prefix +:+ ":" +:+ key.

(** Truthiness of an optional number, as [ttl ? ..] and
    [entry.expiresAt && ..] test it. *)
Definition given (x : option Z) : bool :=
  match x with
  | Some n => negb (Z.eqb n 0)
  | None => false
  end.

(** [entry.expiresAt && entry.expiresAt < Date.now()] *)
Definition expired (now : Z) (entry : CacheEntry) : bool :=
  given (expiresAt entry) && (default 0 (expiresAt entry) <? now).

(** [get(prefix, key)] at time [now]: the result ([None] is [null]) and
    the store, from which an expired entry is removed. *)
Definition get (now : Z) (prefix key : string) (store : gmap string CacheEntry)
  : option T * gmap string CacheEntry :=
  let fullKey := generateKey prefix key in
  match store !! fullKey with
  | None => (None, store)
  | Some entry =>
      if expired now entry then (None, delete fullKey store)
      else (Some (value entry), store)
  end.

(** [set(prefix, key, value, ttl)] at time [now]; [ttl] is in seconds. *)
Definition set (now : Z) (prefix key : string) (v : T) (ttl : option Z)
    (store : gmap string CacheEntry) : gmap string CacheEntry :=
  let fullKey := generateKey prefix key in
  let expiresAt := if given ttl then Some (now + default 0 ttl * 1000) else None in
  <[fullKey := Entry v expiresAt]> store.

(** [delete(prefix, key)] *)
Definition delete (prefix key : string) (store : gmap string CacheEntry)
  : gmap string CacheEntry :=
  base.delete (generateKey prefix key) store.

(** [deleteByPrefix(prefix)] *)
Definition deleteByPrefix (prefix : string) (store : gmap string CacheEntry)
  : gmap string CacheEntry :=
  let searchPrefix := "cache-" +:+ prefix +:+ ":" in
  filter (fun kv => startsWith searchPrefix kv.1 = false) store.

(** [invalidate(patterns)]: no call of [deleteByPrefix] suspends, so
    they run one after the other in the order of [patterns]. *)
Definition invalidate (patterns : list string) (store : gmap string CacheEntry)
  : gmap string CacheEntry :=
  foldl (fun store pattern => deleteByPrefix pattern store) store patterns.

End Cache.

Arguments CacheEntry T : clear implicits.

End InMemoryCache.

(** ** src/worker/services/github/GitHubService.ts: checkRemoteStatus *)

Module GitHubRemoteStatus.
Import JS.

(** A commit as [octokit.repos.listCommits] returns it. *)
Record RemoteCommit := MkRemote {
  sha : string;
  message : string;                  (* c.commit.message *)
  author_name : option string;       (* c.commit.author?.name *)
  author_date : option string        (* c.commit.author?.date *)
}.

Record DivergedCommit := MkDiverged {
  d_sha : string;
  d_message : string;
  d_author : string;
  d_date : string
}.

Record RemoteStatus := MkStatus {
  compatible : bool;
  behindBy : nat;
  aheadBy : nat;
  divergedCommits : list DivergedCommit
}.

(** [x || d] on an optional string: absent and empty are falsy. *)
Definition or_default (x : option string) (d : string) : string :=
  match x with
  | Some s => if String.eqb s "" then d else s
  | None => d
  end.

Section Divergence.

(** [String.prototype.trim] *)
Variable trim : string -> string.

(** [new Date().toISOString()] at the time of the call. *)
Variable now_iso : string.

Definition normalizeMessage (msg : string) : string := trim msg.

Definition isSystemGeneratedCommit (message : string) : bool :=
  startsWith "docs: Add Cloudflare deploy button" (normalizeMessage message).

(** [set.has(x)] for the set built from the list [set]. *)
Definition has (set : list string) (x : string) : bool := bool_decide (x ∈ set).

(** The part of [checkRemoteStatus] under "Find divergence". *)
Definition divergence (localCommits : list GitHubExport.LocalCommit)
    (remoteCommits : list RemoteCommit) : RemoteStatus :=
  let localMessages :=
    map (fun c => normalizeMessage (GitHubExport.message c)) localCommits in
  let remoteMessages := map (fun c => normalizeMessage (message c)) remoteCommits in
  let hasCommonCommit :=
    existsb (fun local =>
               existsb (fun remote =>
                          String.eqb (normalizeMessage (message remote))
                            (normalizeMessage (GitHubExport.message local)))
                 remoteCommits)
      localCommits in
  let localOnly :=
    List.filter (fun c => negb (has remoteMessages (normalizeMessage (GitHubExport.message c))))
      localCommits in
  let remoteOnly :=
    List.filter (fun c => negb (has localMessages (normalizeMessage (message c)))
                          && negb (isSystemGeneratedCommit (message c)))
      remoteCommits in
  MkStatus (hasCommonCommit || Nat.eqb (length remoteCommits) 0)
    (length localOnly) (length remoteOnly)
    (map (fun c => MkDiverged (sha c) (message c)
                     (or_default (author_name c) "Unknown")
                     (or_default (author_date c) now_iso))
       remoteOnly).

(** [checkRemoteStatus]: [repoInfo] is what [extractRepoInfo] returned,
    [token_blank] whether [createOctokit] refuses the token,
    [listCommits] the settled API call and [localLog] the settled
    [buildRepository] followed by [git.log]; every error is rethrown. *)
Definition checkRemoteStatus (repoInfo : option (string * string)) (token_blank : bool)
    (listCommits : promise (list RemoteCommit))
    (localLog : promise (list GitHubExport.LocalCommit)) : promise RemoteStatus :=
  match repoInfo with
  | None => Rejected (new_Error "Invalid repository URL")
  | Some _ =>
      if token_blank then Rejected (new_Error "No GitHub token provided")
      else
        bind listCommits (fun remoteCommits =>
        bind localLog (fun localCommits =>
        Resolved (divergence localCommits remoteCommits)))
  end.

End Divergence.

End GitHubRemoteStatus.

(** ** Walking a git tree: GitVersionControl.walkTree (src/unnamed/part_005)
       and GitHubService.walkGitTree *)

Module GitTreeWalk.
Import JS.

(** An entry of the tree that [git.readTree] returns, together with the
    object its oid names: the bytes of a blob, the entries of a subtree,
    or nothing for a submodule link ([type: 'commit']). *)
Inductive Entry :=
| BlobEntry (path oid : string) (blob : string)
| TreeEntry (path oid : string) (tree : list Entry)
| CommitEntry (path oid : string).

Record WalkedFile := Walked {
  w_path : string;
  w_oid : string;
  w_content : string
}.

(** [base ? `${base}/${path}` : path] *)
Definition child_path (base path : string) : string :=
  if String.eqb base "" then path else base +:+ "/" +:+ path.

Section Walk.

(** [new TextDecoder('utf-8').decode(blob)]; it does not throw. *)
Variable decode : string -> string.

(** [GitHubService.walkGitTree(fs, treeOid, basePath)], on the entries
    of the tree: one turn of its loop, and the loop. *)
Fixpoint walkGitTree_entry (basePath : string) (entry : Entry) (files : list WalkedFile)
  : list WalkedFile :=
  match entry with
  | BlobEntry path oid blob =>
      files ++ [Walked (child_path basePath path) oid (decode blob)]
  | TreeEntry path oid tree =>
      let subFiles :=
        foldl (fun files entry => walkGitTree_entry (child_path basePath path) entry files)
          [] tree in
      files ++ subFiles
  | CommitEntry _ _ => files
  end.

Definition walkGitTree (tree : list Entry) (basePath : string) : list WalkedFile :=
  foldl (fun files entry => walkGitTree_entry basePath entry files) [] tree.

(** [GitVersionControl.walkTree(treeOid, prefix, files)]: it pushes onto
    the array it is given and skips the blobs whose text has a NUL
    character. *)
Fixpoint walkTree_entry (prefix : string) (entry : Entry)
    (files : list GitVersionControl.FileSnapshot) : list GitVersionControl.FileSnapshot :=
  match entry with
  | BlobEntry path oid blob =>
      let content := decode blob in
      if includes (String Ascii.zero "") content then files
      else files ++ [GitVersionControl.Snapshot (child_path prefix path) content]
  | TreeEntry path oid tree =>
      foldl (fun files entry => walkTree_entry (child_path prefix path) entry files)
        files tree
  | CommitEntry _ _ => files
  end.

Definition walkTree (tree : list Entry) (prefix : string)
    (files : list GitVersionControl.FileSnapshot) : list GitVersionControl.FileSnapshot :=
  foldl (fun files entry => walkTree_entry prefix entry files) files tree.

(** [readFilesFromCommit(oid)], on the tree of the commit. *)
Definition readFilesFromCommit (tree : list Entry) : list GitVersionControl.FileSnapshot :=
  walkTree tree "" [].

End Walk.

(** The number of blobs below a list of entries. *)
Fixpoint blobs_entry (entry : Entry) : nat :=
  match entry with
  | BlobEntry _ _ _ => 1
  | TreeEntry _ _ tree => foldr (fun e n => (blobs_entry e + n)%nat) 0%nat tree
  | CommitEntry _ _ => 0
  end.

Definition blobs (tree : list Entry) : nat :=
  foldr (fun e n => (blobs_entry e + n)%nat) 0%nat tree.

(** The file that [walkTree] keeps of one that [walkGitTree] lists. *)
Definition as_text (f : WalkedFile) : option GitVersionControl.FileSnapshot :=
  if includes (String Ascii.zero "") (w_content f) then None
  else Some (GitVersionControl.Snapshot (w_path f) (w_content f)).

End GitTreeWalk.

(** ** src/worker/agents/core/state.ts: the abort controller of an inference *)

Module InferenceAbort.

(** The abort controllers created so far, in the order of their
    creation, each with [signal.aborted], and the one the agent holds in
    [currentAbortController]. *)
Record Agent := MkAgent {
  controllers : list bool;
  currentAbortController : option nat
}.

Definition initial : Agent := MkAgent [] None.

(** [controller.signal.aborted] *)
Definition aborted (a : Agent) (controller : nat) : bool :=
  default false (controllers a !! controller).

(** [getOrCreateAbortController()]: the controller returned and the
    agent. *)
Definition getOrCreateAbortController (a : Agent) : nat * Agent :=
  let create :=
    let controller := length (controllers a) in
    (controller, MkAgent (controllers a ++ [false]) (Some controller)) in
  match currentAbortController a with
  | Some controller => if negb (aborted a controller) then (controller, a) else create
  | None => create
  end.

(** [cancelCurrentInference()] *)
Definition cancelCurrentInference (a : Agent) : bool * Agent :=
  match currentAbortController a with
  | Some controller => (true, MkAgent (<[controller := true]> (controllers a)) None)
  | None => (false, a)
  end.

(** [clearAbortController()] *)
Definition clearAbortController (a : Agent) : Agent :=
  MkAgent (controllers a) None.

(** [getInferenceContext()]: the controller whose signal the context
    carries. *)
Definition getInferenceContext (a : Agent) : nat * Agent :=
  getOrCreateAbortController a.

(** The calls made on an agent. *)
Inductive Call := GetInferenceContext | CancelCurrentInference | ClearAbortController.

Definition call (a : Agent) (c : Call) : Agent :=
  match c with
  | GetInferenceContext => (getInferenceContext a).2
  | CancelCurrentInference => (cancelCurrentInference a).2
  | ClearAbortController => clearAbortController a
  end.

Definition run (calls : list Call) : Agent := foldl call initial calls.

(** The controller the agent holds has not been aborted. *)
Definition live (a : Agent) : Prop :=
  match currentAbortController a with
  | Some controller => controllers a !! controller = Some false
  | None => True
  end.

End InferenceAbort.

(** ** src/worker/agents/core/state.ts: the cached GitHub token *)

Module GitHubTokenCache.

Record Cached := MkCached {
  token : string;
  username : string;
  expiresAt : Z
}.

(** [setGitHubToken(token, username, ttl = 3600000)] at time [now]. *)
Definition setGitHubToken (now : Z) (token username : string) (ttl : option Z)
  : option Cached :=
  Some (MkCached token username (now + default 3600000 ttl)).

(** [getGitHubToken()] at time [now]: the result and the cache. *)
Definition getGitHubToken (now : Z) (githubTokenCache : option Cached)
  : option (string * string) * option Cached :=
  match githubTokenCache with
  | None => (None, None)
  | Some c =>
      if now >=? expiresAt c then (None, None)
      else (Some (token c, username c), githubTokenCache)
  end.

(** [clearGitHubToken()] *)
Definition clearGitHubToken : option Cached := None.

End GitHubTokenCache.

(** ** src/worker/agents/core/state.ts: updateProjectName, updateBlueprint;
       src/worker/utils/projectConfigUpdater.ts: generateProjectName *)

Module Blueprint.
Import JS.

(** A JSON value, as the fields of a blueprint hold them. *)
Inductive json :=
| JNull
| JBool (b : bool)
| JNum (n : Z)
| JStr (s : string)
| JArr (items : list json)
| JObj (fields : list (string * json)).

Definition is_lower (c : ascii) : bool :=
  let n := nat_of_ascii c in (97 <=? n)%nat && (n <=? 122)%nat.

Definition is_digit (c : ascii) : bool :=
  let n := nat_of_ascii c in (48 <=? n)%nat && (n <=? 57)%nat.

(** The class [[a-z0-9-_]]. *)
Definition name_char (c : ascii) : bool :=
  is_lower c || is_digit c || Ascii.eqb c "-" || Ascii.eqb c "_".

(** [/^[a-z0-9-_]{3,50}$/.test(newName)] *)
Definition valid_project_name (newName : string) : bool :=
  (3 <=? String.length newName)%nat && (String.length newName <=? 50)%nat
  && forallb name_char (list_ascii_of_string newName).

(** [updateProjectName(newName)] on the blueprint of the state.
    [sandbox] is the settled [updateProjectName] of the sandbox client,
    absent when the state has no [sandboxInstanceId]; [db] is the settled
    [appService.updateApp].  The result and the blueprint. *)
Definition updateProjectName (sandbox : option (promise bool)) (db : promise bool)
    (newName : string) (blueprint : gmap string json) : bool * gmap string json :=
  if negb (valid_project_name newName) then (false, blueprint)
  else
    let updatedBlueprint := <["projectName" := JStr newName]> blueprint in
    let ok := match sandbox with
              | Some (Resolved ok) => ok
              | Some (Rejected _) => false
              | None => true
              end in
    let ok := match db with
              | Resolved dbOk => ok && dbOk
              | Rejected _ => false
              end in
    (ok, updatedBlueprint).

Definition safeUpdatableFields : list string :=
  ["title"; "description"; "detailedDescription"; "colorPalette"; "views"; "userFlow";
   "dataFlow"; "architecture"; "pitfalls"; "frameworks"; "implementationRoadmap"].

(** [updateBlueprint(patch)]: a key of [patch] may be present with the
    value [undefined], which is [Some None] here.  The result is the
    blueprint returned and stored. *)
Definition updateBlueprint (sandbox : option (promise bool)) (db : promise bool)
    (patch : gmap string (option json)) (blueprint : gmap string json)
  : gmap string json :=
  let filtered : gmap string json :=
    omap id (filter (fun kv => kv.1 ∈ safeUpdatableFields) patch) in
  let blueprint :=
    match patch !! "projectName" with
    | Some (Some (JStr projectName)) =>
        (updateProjectName sandbox db projectName blueprint).2
    | _ => blueprint
    end in
  filtered ∪ blueprint.

(** The class [[a-z0-9-]]. *)
Definition prefix_char (c : ascii) : bool :=
  is_lower c || is_digit c || Ascii.eqb c "-".

(** [s.replace(/[^a-z0-9]/g, '-')] *)
Fixpoint replace_non_alphanumeric (s : string) : string :=
  match s with
  | EmptyString => EmptyString
  | String c rest =>
      String (if is_lower c || is_digit c then c else "-"%char)
        (replace_non_alphanumeric rest)
  end.

(** [s.slice(0, n)] for a length [n] that is a natural number. *)
Fixpoint slice_to (n : nat) (s : string) : string :=
  match n, s with
  | S n, String c rest => String c (slice_to n rest)
  | _, _ => EmptyString
  end.

(** [generateProjectName(projectName, uniqueSuffix, maxPrefixLength)],
    on ASCII text. *)
Definition generateProjectName (projectName uniqueSuffix : string)
    (maxPrefixLength : option nat) : string :=
  let prefix := replace_non_alphanumeric (CsrfMiddleware.toLowerCase projectName) in
  let prefix := slice_to (default 20%nat maxPrefixLength) prefix in
  CsrfMiddleware.toLowerCase (prefix +:+ "-" +:+ uniqueSuffix).

End Blueprint.

(** ** src/worker/services/sandbox/LocalSandbox.ts: SandboxSdkClient *)

Module SandboxSdkClient.
Import JS.

Record WriteResult := MkWriteResult {
  file : string;
  success : bool;
  error : option string
}.

Record WriteFilesResponse := MkWriteFiles {
  w_success : bool;
  w_results : list WriteResult;
  w_message : string
}.



(** One turn of the loop of [writeFiles]. *)
Definition write_one (fs : LocalSandboxFiles.FileSystem) (cwd instancePath : string)
    (acc : list WriteResult * gmap string string) (f : GitVersionControl.FileSnapshot)
  : list WriteResult * gmap string string :=
  let '(result, disk) :=
    LocalSandboxFiles.writeFile fs cwd
      (Path.join [instancePath; GitVersionControl.filePath f])
      (GitVersionControl.fileContents f) acc.2 in
  (acc.1 ++ [MkWriteResult (GitVersionControl.filePath f)
               (LocalSandboxFiles.w_success result) (LocalSandboxFiles.w_error result)],
   disk).

(** [writeFiles(instanceId, files)]; a file is [{filePath,
    fileContents}]. *)
Definition writeFiles (fs : LocalSandboxFiles.FileSystem) (cwd instanceId : string)
    (files : list GitVersionControl.FileSnapshot)
    (disk : gmap string string) : WriteFilesResponse * gmap string string :=
  let instancePath := Path.join ["data"; "instances"; instanceId] in
  let '(results, disk) := foldl (write_one fs cwd instancePath) ([], disk) files in
  (MkWriteFiles true results ("Wrote " +:+ pretty (length files) +:+ " files."), disk).




(** The target of a write below an instance path, its result and what
    it does to the disk. *)
Definition target_in (cwd instancePath : string) (f : GitVersionControl.FileSnapshot)
  : string :=
  Path.join [LocalSandboxFiles.getBasePath cwd;
             Path.join [instancePath; GitVersionControl.filePath f]].

(** The result of one write on a given disk, the disk it leaves, and
    the results of a series of writes. *)
Definition write_result (fs : LocalSandboxFiles.FileSystem) (cwd instancePath : string)
    (disk : gmap string string) (f : GitVersionControl.FileSnapshot) : WriteResult :=
  let result :=
    (LocalSandboxFiles.writeFile fs cwd
       (Path.join [instancePath; GitVersionControl.filePath f])
       (GitVersionControl.fileContents f) disk).1 in
  MkWriteResult (GitVersionControl.filePath f)
    (LocalSandboxFiles.w_success result) (LocalSandboxFiles.w_error result).

Definition write_disk (fs : LocalSandboxFiles.FileSystem) (cwd instancePath : string)
    (disk : gmap string string) (f : GitVersionControl.FileSnapshot) : gmap string string :=
  (LocalSandboxFiles.writeFile fs cwd
     (Path.join [instancePath; GitVersionControl.filePath f])
     (GitVersionControl.fileContents f) disk).2.

Fixpoint write_results (fs : LocalSandboxFiles.FileSystem) (cwd instancePath : string)
    (disk : gmap string string) (files : list GitVersionControl.FileSnapshot)
  : list WriteResult :=
  match files with
  | [] => []
  | f :: rest =>
      write_result fs cwd instancePath disk f
      :: write_results fs cwd instancePath (write_disk fs cwd instancePath disk f) rest
  end.


End SandboxSdkClient.

(** ** The generated phases over a build *)

Module PhasicPhases.
Import PhasicAgent.

(** [phases.map(p => p.name === phaseName ? {...p, completed: true} : p)] *)
Definition mark (phaseName : string) (phases : list PhaseState) : list PhaseState :=
  map (fun p => if String.eqb (name (concept p)) phaseName
                then MkPhaseState (concept p) true else p) phases.

Definition all_completed (phases : list PhaseState) : Prop :=
  forall ph, ph ∈ phases -> completed ph = true.

(** Every phase but the last one is completed. *)
Definition tidy (phases : list PhaseState) : Prop :=
  exists init rest, phases = init ++ rest /\ all_completed init /\ (length rest <= 1)%nat.

(** [later] has the phases of [earlier], in order and with their
    concepts, followed by new ones, and the phases that were completed
    are unchanged. *)
Definition extends (earlier later : list PhaseState) : Prop :=
  (exists added, map concept later = map concept earlier ++ added) /\
  (forall i ph, earlier !! i = Some ph -> completed ph = true -> later !! i = Some ph).

(** What the loop needs of the phase it is about to implement: it is
    one of the generated phases. *)
Definition chosen_is_generated (s : CurrentDevState) (pc : option PhaseConceptType)
    (phases : list PhaseState) : Prop :=
  s = PHASE_IMPLEMENTING -> exists p b, pc = Some p /\ MkPhaseState p b ∈ phases.

(** The same with every phase before it completed, and all phases
    completed in the other states. *)
Definition chosen_is_last (s : CurrentDevState) (pc : option PhaseConceptType)
    (phases : list PhaseState) : Prop :=
  match s with
  | PHASE_IMPLEMENTING =>
      exists p b init, pc = Some p /\ phases = init ++ [MkPhaseState p b] /\
                       all_completed init
  | _ => all_completed phases
  end.

End PhasicPhases.

(** ** src/worker/agents/core/state.ts: clearConversation *)

Module ConversationOps.
Import Conversation.

(** [clearConversation()]: the in-memory messages are emptied, the two
    tables are left alone; the number is the [clearedMessageCount] that
    is broadcast. *)
Definition clearConversation (st : Store) : Store * nat :=
  (MkStore [] (full_conversations st) (compact_conversations st),
   length (conversationMessages st)).

(** [addConversationMessage] for each of [messages], in order. *)
Definition add_all (sql : SqlOutcome) (id : string) (messages : list ConversationMessage)
    (st : Store) : Store :=
  foldl (fun st message => addConversationMessage sql id message st) st messages.

End ConversationOps.

(** ** src/worker/services/rate-limit/InMemoryRateLimitStore.ts:
       InMemoryDORateLimitStore *)

Module InMemoryDORateLimitStore.

Record RateLimitBucket := MkBucket {
  count : Z;
  timestamp : Z
}.

Record RateLimitState := MkState {
  buckets : gmap string RateLimitBucket;
  lastCleanup : Z
}.

(** [DORateLimitConfig] is read through the same fields as the
    configuration of the other store. *)
Definition DORateLimitConfig : Type := InMemoryRateLimitStore.KVRateLimitConfig.

(** [x || d] on an optional number: absent and 0 give [d]. *)
Definition or_default (x : option Z) (d : Z) : Z :=
  match x with
  | Some n => if Z.eqb n 0 then d else n
  | None => d
  end.

(** The template string [`${key}:${time}`]. *)
Definition bucketKey (key : string) (time : Z) : string :=
  key +:+ ":" +:+ pretty time.

(** [cleanup(state, now, maxWindow)] *)
Definition cleanup (state : RateLimitState) (now maxWindow : Z) : RateLimitState :=
  let cutoff := now - maxWindow in
  MkState (filter (fun kb => ~ (timestamp kb.2 < cutoff)) (buckets state)) now.

(** The [for] loop of [getBucketsInWindow]; [fuel] bounds the number
    of iterations. *)
Fixpoint window_loop (fuel : nat) (state : RateLimitState) (key : string)
    (time now bucketSizeMs : Z) : list RateLimitBucket :=
  match fuel with
  | O => []
  | S fuel' =>
      if time <=? now
      then match buckets state !! bucketKey key time with
           | Some bucket => [bucket]
           | None => []
           end ++ window_loop fuel' state key (time + bucketSizeMs) now bucketSizeMs
      else []
  end.

(** [getBucketsInWindow(state, key, now, windowMs, bucketSizeMs)]; the
    loop runs [(now - start) / bucketSizeMs + 1] times when the bucket
    size is positive, and that is the fuel given. *)
Definition getBucketsInWindow (state : RateLimitState) (key : string)
    (now windowMs bucketSizeMs : Z) : list RateLimitBucket :=
  let windowStart := now - windowMs in
  let start := windowStart / bucketSizeMs * bucketSizeMs in
  window_loop (Z.to_nat ((now - start) / bucketSizeMs + 1)) state key start now bucketSizeMs.

(** [buckets.reduce((sum, bucket) => sum + bucket.count, 0)] *)
Definition sum_counts (buckets : list RateLimitBucket) : Z :=
  foldl (fun sum bucket => sum + count bucket) 0 buckets.

Definition bucketSizeMs (config : DORateLimitConfig) : Z :=
  or_default (InMemoryRateLimitStore.bucketSize config) 10 * 1000.

Definition burstWindowMs (config : DORateLimitConfig) : Z :=
  or_default (InMemoryRateLimitStore.burstWindow config) 60 * 1000.

(** The state that [increment] counts in: the one of the key, created
    empty when there is none, after the cleanup that is due every five
    minutes.  [Date.now()] is taken to give [now] in [getState] as
    well. *)
Definition counting_state (now : Z) (key : string) (config : DORateLimitConfig)
    (stores : gmap string RateLimitState) : RateLimitState :=
  let state := default (MkState ∅ now) (stores !! key) in
  if now - lastCleanup state >? 5 * 60 * 1000
  then cleanup state now
         (Z.max (InMemoryRateLimitStore.period config * 1000) (burstWindowMs config))
  else state.

Definition mainCount (state : RateLimitState) (now : Z) (key : string)
    (config : DORateLimitConfig) : Z :=
  sum_counts (getBucketsInWindow state key now
                (InMemoryRateLimitStore.period config * 1000) (bucketSizeMs config)).

Definition burstCount (state : RateLimitState) (now : Z) (key : string)
    (config : DORateLimitConfig) : Z :=
  sum_counts (if InMemoryRateLimitStore.configured (InMemoryRateLimitStore.burst config)
              then getBucketsInWindow state key now (burstWindowMs config)
                     (bucketSizeMs config)
              else []).

(** [increment(key, config)] at time [now]. *)
Definition increment (now : Z) (key : string) (config : DORateLimitConfig)
    (stores : gmap string RateLimitState)
  : InMemoryRateLimitStore.RateLimitResult * gmap string RateLimitState :=
  let state := counting_state now key config stores in
  let currentBucketTimestamp := now / bucketSizeMs config * bucketSizeMs config in
  let bucketKey := bucketKey key currentBucketTimestamp in
  let main := mainCount state now key config in
  let burstC := burstCount state now key config in
  if main >=? InMemoryRateLimitStore.limit config
  then (InMemoryRateLimitStore.Result false (Some 0), <[key := state]> stores)
  else if InMemoryRateLimitStore.configured (InMemoryRateLimitStore.burst config)
          && (burstC >=? default 0 (InMemoryRateLimitStore.burst config))
  then (InMemoryRateLimitStore.Result false (Some 0), <[key := state]> stores)
  else
    let existing := buckets state !! bucketKey in
    let newCount := or_default (count <$> existing) 0 + 1 in
    (InMemoryRateLimitStore.Result true
       (Some (InMemoryRateLimitStore.limit config - main - 1)),
     <[key := MkState (<[bucketKey := MkBucket newCount now]> (buckets state))
                (lastCleanup state)]> stores).

(** The count of the bucket of [key] that starts at [time]. *)
Definition count_at (state : RateLimitState) (key : string) (time : Z) : Z :=
  match buckets state !! bucketKey key time with
  | Some bucket => count bucket
  | None => 0
  end.

End InMemoryDORateLimitStore.

(** ** src/unnamed/part_003: route authentication *)

Module RouteAuth.

Inductive AuthLevel := public | authenticated | owner_only.

Record AuthRequirement := MkRequirement {
  level : AuthLevel;
  resourceOwnershipCheck : option (string -> gmap string string -> bool)
}.

(** Truthiness of an optional string. *)
Definition present (x : option string) : bool :=
  match x with
  | Some s => negb (String.eqb s "")
  | None => false
  end.

(** [checkAppOwnership(userId, params)] *)
Definition checkAppOwnership (userId : string) (params : gmap string string) : bool :=
  let agentId := if present (params !! "agentId") then params !! "agentId"
                 else params !! "id" in
  if negb (present agentId) then false else true.

Definition AuthConfig_public : AuthRequirement := MkRequirement public None.
Definition AuthConfig_authenticated : AuthRequirement := MkRequirement authenticated None.
Definition AuthConfig_ownerOnly : AuthRequirement :=
  MkRequirement owner_only (Some checkAppOwnership).

(** What [getAuth(c)] gives: [userId] and the session claims read. *)
Record Auth := MkAuth {
  userId : option string;
  claim_email : option string;
  claim_name : option string;
  claim_picture : option string;
  claim_iss : option string
}.

Record AuthUser := MkUser {
  id : string;
  email : string;
  name : string;
  picture : string;
  provider : string
}.

(** [x || ''] *)
Definition or_empty (x : option string) : string := default "" x.

(** The middleware either hands over to [next], with the user it has
    set on the context if any, or answers with [c.json({error}, status)]. *)
Inductive Outcome :=
| Next (user : option AuthUser)
| Json (error : string) (status : Z).

(** [authMiddleware]; [requirement] is [c.get('authLevel')], [auth] is
    [getAuth(c)] and [params] is [c.req.param()]. *)
Definition authMiddleware (requirement : option AuthRequirement) (auth : option Auth)
    (params : gmap string string) : Outcome :=
  match requirement with
  | None => Next None
  | Some requirement =>
      match level requirement with
      | public => Next None
      | _ =>
          match auth with
          | Some a =>
              if negb (present (userId a)) then Json "Unauthorized" 401
              else
                let user := MkUser (or_empty (userId a)) (or_empty (claim_email a))
                              (or_empty (claim_name a)) (or_empty (claim_picture a))
                              (or_empty (claim_iss a)) in
                match level requirement, resourceOwnershipCheck requirement with
                | owner_only, Some check =>
                    if negb (check (or_empty (userId a)) params)
                    then Json "Forbidden" 403
                    else Next (Some user)
                | _, _ => Next (Some user)
                end
          | None => Json "Unauthorized" 401
          end
      end
  end.

(** [c.req.param()] inside a middleware registered by
    [app.use('/api/*', ..)]: the router hands a middleware the
    parameters of the pattern it was registered with, and [/api/*] names
    none, whatever route the request goes to afterwards. *)
Definition api_params : gmap string string := ∅.

(** [setAuthLevel(requirement)] followed by [authMiddleware], as
    [createApp] chains them on [/api/*]. *)
Definition with_auth_level (requirement : AuthRequirement) (auth : option Auth)
  : Outcome :=
  authMiddleware (Some requirement) auth api_params.

Definition reaches_handler (o : Outcome) : bool :=
  match o with Next _ => true | Json _ _ => false end.

End RouteAuth.

(** ** src/unnamed/part_002: configurable settings *)

Module ConfigurableSettings.

Section Settings.

(** [GlobalConfigurableSettings] *)
Context {Settings : Type}.

(** [getGlobalConfigurableSettings()]: [defaults] is the configuration
    built from [getConfigurableSecurityDefaults()]; the result and the
    module variable [cachedConfig]. *)
Definition getGlobalConfigurableSettings (defaults : Settings)
    (cachedConfig : option Settings) : Settings * option Settings :=
  match cachedConfig with
  | Some config => (config, cachedConfig)
  | None => (defaults, Some defaults)
  end.

(** [getUserConfigurableSettings(userId, globalConfig)]: the result and
    the module map [invocationUserCache]. *)
Definition getUserConfigurableSettings (userId : string) (globalConfig : Settings)
    (invocationUserCache : gmap string Settings) : Settings * gmap string Settings :=
  if String.eqb userId "" then (globalConfig, invocationUserCache)
  else
    match invocationUserCache !! userId with
    | Some config => (config, invocationUserCache)
    | None => (globalConfig, <[userId := globalConfig]> invocationUserCache)
    end.

(** The results of a series of [getUserConfigurableSettings] calls. *)
Fixpoint serve (calls : list (string * Settings))
    (invocationUserCache : gmap string Settings) : list Settings :=
  match calls with
  | [] => []
  | (userId, globalConfig) :: rest =>
      let served := getUserConfigurableSettings userId globalConfig invocationUserCache in
      served.1 :: serve rest served.2
  end.

End Settings.

End ConfigurableSettings.

(** ** The history that forcePushToGitHub creates *)

Module GitHubExportHistory.
Import GitHubExport.

(** The [createCommit] calls, in order: message, tree and parents. *)
Definition commits_created (calls : list ApiCall) : list (string * string * list string) :=
  omap (fun c => match c with
                 | CreateCommit message tree parents => Some (message, tree, parents)
                 | _ => None
                 end) calls.

(** The shas given to [updateRef], in order. *)
Definition refs_updated (calls : list ApiCall) : list string :=
  omap (fun c => match c with UpdateRef sha => Some sha | _ => None end) calls.

(** [files.length !== 0] for the files of a commit's tree. *)
Definition has_files (commit : LocalCommit) : bool :=
  match files commit with [] => false | _ => true end.

Section Chain.

Variable commitSha : string -> string -> list string -> string.

Definition sha_of (created : string * string * list string) : string :=
  commitSha created.1.1 created.1.2 created.2.

(** Each created commit has the one created before it as its only
    parent, and the first one has [parent], or none. *)
Fixpoint linear (parent : option string) (created : list (string * string * list string))
  : Prop :=
  match created with
  | [] => True
  | c :: rest =>
      c.2 = match parent with Some p => [p] | None => [] end /\
      linear (Some (sha_of c)) rest
  end.

(** The sha of the last commit of [created], or [parent]. *)
Definition tip (parent : option string) (created : list (string * string * list string))
  : option string :=
  match last created with
  | Some c => Some (sha_of c)
  | None => parent
  end.

End Chain.

End GitHubExportHistory.

(** ** src/unnamed/part_004: creating an agent for a query *)

Module AgentFactory.
Import JS.

Record TemplateInfo := MkTemplateInfo {
  template_name : string
}.

Record ListTemplatesResponse := MkListTemplates {
  lt_success : bool;
  templates : list TemplateInfo
}.

(** What [selectTemplate] answers, as far as it is read here. *)
Record TemplateSelection := MkSelection {
  selectedTemplateName : option string
}.

Section Templates.

(** [TemplateDetails] *)
Context {TemplateDetails : Type}.

Record TemplateDetailsResponse := MkDetailsResponse {
  td_success : bool;
  templateDetails : option TemplateDetails;
  td_error : option string
}.

(** [SandboxSdkClient.listTemplates()] and
    [SandboxSdkClient.getTemplateDetails(templateName)], from
    LocalSandbox.ts. *)
Definition SandboxSdkClient_listTemplates : ListTemplatesResponse :=
  MkListTemplates true [].

Definition SandboxSdkClient_getTemplateDetails (templateName : string)
  : TemplateDetailsResponse :=
  MkDetailsResponse false None (Some "Not implemented").

(** [getTemplateForQuery].  [templatesResponse] is what
    [SandboxSdkClient.listTemplates()] resolved to ([None] for a value
    that is not an object), [sandboxSessionId] the generated id,
    [selectTemplate] and [getSandboxService] the two settled promises
    given to [Promise.all], the service being read through its
    [getTemplateDetails].  When both reject, the error of
    [selectTemplate] is the one taken here. *)
Definition getTemplateForQuery (templatesResponse : option ListTemplatesResponse)
    (sandboxSessionId : string)
    (selectTemplate : list TemplateInfo -> promise TemplateSelection)
    (getSandboxService : string -> promise (string -> TemplateDetailsResponse))
  : promise (string * TemplateDetails * TemplateSelection) :=
  match templatesResponse with
  | Some response =>
      if negb (lt_success response)
      then Rejected (new_Error "Failed to fetch templates from sandbox service")
      else
        bind (selectTemplate (templates response)) (fun analyzeQueryResponse =>
        bind (getSandboxService sandboxSessionId) (fun getTemplateDetails =>
          match selectedTemplateName analyzeQueryResponse with
          | Some name =>
              if String.eqb name ""
              then Rejected (new_Error "No suitable template found for code generation")
              else
                match List.find (fun template => String.eqb (template_name template) name)
                        (templates response) with
                | Some selectedTemplate =>
                    let response := getTemplateDetails (template_name selectedTemplate) in
                    match td_success response, templateDetails response with
                    | true, Some details =>
                        Resolved (sandboxSessionId, details, analyzeQueryResponse)
                    | _, _ => Rejected (new_Error "Failed to fetch files")
                    end
                | None => Rejected (new_Error "Selected template not found")
                end
          | None => Rejected (new_Error "No suitable template found for code generation")
          end))
  | None => Rejected (new_Error "Failed to fetch templates from sandbox service")
  end.

(** [createAgent(env, inferenceContext, query, logger)]: the template
    for the query, then [agentManager.createAgent]. *)
Definition createAgent (templatesResponse : option ListTemplatesResponse)
    (sandboxSessionId : string)
    (selectTemplate : list TemplateInfo -> promise TemplateSelection)
    (getSandboxService : string -> promise (string -> TemplateDetailsResponse))
    (initialize : AgentManager.SmartCodeGeneratorAgent -> promise unit)
    (interleaved : gmap string AgentManager.SmartCodeGeneratorAgent
                   -> gmap string AgentManager.SmartCodeGeneratorAgent)
    (fresh : nat) (agentId query : string)
    (agents : gmap string AgentManager.SmartCodeGeneratorAgent)
  : promise AgentManager.SmartCodeGeneratorAgent
    * gmap string AgentManager.SmartCodeGeneratorAgent :=
  match getTemplateForQuery templatesResponse sandboxSessionId selectTemplate
          getSandboxService with
  | Resolved _ =>
      AgentManager.createAgent initialize interleaved fresh
        (AgentManager.InitArgs agentId query) agents
  | Rejected e => (Rejected e, agents)
  end.

End Templates.

Arguments TemplateDetailsResponse TemplateDetails : clear implicits.

Definition rejected {A} (p : promise A) : bool :=
  match p with Rejected _ => true | Resolved _ => false end.

End AgentFactory.

(** ** src/worker/agents/core/state.ts: generateAllFiles and buildWrapper *)

Module Generation.
Import JS.

(** What a generation reads and writes of the agent: the state machine
    with its state, whether [generationPromise] is set, and the abort
    controller. *)
Record Runtime := MkRuntime {
  machine : PhasicAgent.Machine;
  generationPromise : bool;            (* this.generationPromise !== null *)
  abort : InferenceAbort.Agent
}.

(** [isCodeGenerating()] *)
Definition isCodeGenerating (rt : Runtime) : bool := generationPromise rt.

(** [buildWrapper()], once [generationPromise] has been set.
    [ensureTemplateDetails] and [updateApp] are the two settled calls
    outside the [try]; [build] is the behaviour's [build()], whose error,
    if any, is caught and broadcast. *)
Definition buildWrapper (ensureTemplateDetails : promise unit)
    (build : PhasicAgent.Machine -> promise unit * PhasicAgent.Machine)
    (updateApp : promise bool) (rt : Runtime) : promise unit * Runtime :=
  match ensureTemplateDetails with
  | Rejected e => (Rejected e, rt)
  | Resolved _ =>
      let m := (build (machine rt)).2 in
      let abort := InferenceAbort.clearAbortController (abort rt) in
      match updateApp with
      | Rejected e => (Rejected e, MkRuntime m (generationPromise rt) abort)
      | Resolved _ => (Resolved tt, MkRuntime m false abort)
      end
  end.

(** [generateAllFiles()] *)
Definition generateAllFiles (ensureTemplateDetails : promise unit)
    (build : PhasicAgent.Machine -> promise unit * PhasicAgent.Machine)
    (updateApp : promise bool) (rt : Runtime) : promise unit * Runtime :=
  let state := PhasicAgent.state (machine rt) in
  if PhasicAgent.mvpGenerated state
     && Nat.eqb (length (PhasicAgent.pendingUserInputs state)) 0
  then (Resolved tt, rt)
  else if isCodeGenerating rt then (Resolved tt, rt)
  else buildWrapper ensureTemplateDetails build updateApp
         (MkRuntime (machine rt) true (abort rt)).

(** The [build()] of the phasic behaviour: [launchStateMachine]
    catches every error. *)
Definition phasic_build (env : PhasicAgent.Environment) (fuel : nat)
    (m : PhasicAgent.Machine) : promise unit * PhasicAgent.Machine :=
  (Resolved tt, (PhasicAgent.launchStateMachine env fuel m).2).

Definition resolved {A} (p : promise A) : bool :=
  match p with Resolved _ => true | Rejected _ => false end.

End Generation.

(** ** src/worker/agents/core/state.ts: executeCommands, from the
       removal of duplicate commands on *)

Module CommandRunner.
Import JS.

Record CommandResult := MkResult {
  command : string;
  success : bool
}.

(** What the awaited [executeCommands] of the sandbox client gives. *)
Inductive Response :=
| Results (results : list CommandResult)    (* resp.results and resp.success *)
| NotOk                                     (* !resp.results || !resp.success *)
| ExecuteThrown.

(** [getInstanceStatus]: [status.success && status.isHealthy], or an
    error. *)
Inductive Status := Healthy | Unhealthy | StatusThrown.

(** [generateSetupCommands]: [newCommands?.commands], or an error. *)
Inductive Suggestion :=
| Suggested (commands : option (list string))
| SuggestThrown.

(** The environment: the answers of the sandbox and of the setup
    assistant, by call number, and [looksLikeCommand]. *)
Record Oracles := MkOracles {
  execute : nat -> list string -> Response;
  status : nat -> Status;
  suggest : nat -> Suggestion;
  looksLikeCommand : string -> bool
}.

Record Run := MkRun {
  successfulCommands : list string;
  executed : list (list string);       (* the chunks sent to the sandbox *)
  status_checks : nat;
  suggestions : nat
}.

(** How the retry loop of a chunk is left: to go on with the next
    chunk, or by the [return] of the whole function. *)
Inductive Flow := Continue | Return.

(** [Array.from(new Set(commands))] *)
Fixpoint unique_from (seen : list string) (commands : list string) : list string :=
  match commands with
  | [] => []
  | cmd :: rest =>
      if bool_decide (cmd ∈ seen) then unique_from seen rest
      else cmd :: unique_from (cmd :: seen) rest
  end.

Definition unique (commands : list string) : list string := unique_from [] commands.

(** The loop that cuts [commands] into chunks; [fuel] bounds the number
    of chunks. *)
Fixpoint chunk_loop (fuel : nat) (chunkSize : nat) (commands : list string)
  : list (list string) :=
  match fuel with
  | O => []
  | S fuel =>
      match commands with
      | [] => []
      | _ => take chunkSize commands :: chunk_loop fuel chunkSize (drop chunkSize commands)
      end
  end.

(** With a chunk size of at least 1 there are at most as many chunks as
    commands. *)
Definition commandChunks (chunkSize : nat) (commands : list string) : list (list string) :=
  chunk_loop (length commands) chunkSize commands.

Definition is_install (cmd : string) : bool :=
  startsWith "bun" cmd || startsWith "npm" cmd || includes "install" cmd.

(** The [while (currentChunk.length > 0 && retryCount < maxRetries)]
    loop of one chunk. *)
Fixpoint retry_loop (o : Oracles) (shouldRetry : bool) (maxRetries : nat) (fuel : nat)
    (currentChunk : list string) (retryCount : nat) (run : Run) : Flow * Run :=
  match fuel with
  | O => (Continue, run)
  | S fuel =>
      if negb (Nat.ltb 0 (length currentChunk) && Nat.ltb retryCount maxRetries)
      then (Continue, run)
      else
        let resp := execute o (length (executed run)) currentChunk in
        let run := MkRun (successfulCommands run) (executed run ++ [currentChunk])
                     (status_checks run) (suggestions run) in
        match resp with
        | ExecuteThrown => (Continue, run)
        | NotOk =>
            let checked := MkRun (successfulCommands run) (executed run)
                             (S (status_checks run)) (suggestions run) in
            match status o (status_checks run) with
            | Unhealthy => (Return, checked)
            | Healthy | StatusThrown => (Continue, checked)
            end
        | Results results =>
            let successful := List.filter success results in
            let failures := List.filter (fun r => negb (success r)) results in
            let run := MkRun (successfulCommands run ++ map command successful)
                         (executed run) (status_checks run) (suggestions run) in
            if Nat.eqb (length failures) 0 then (Continue, run)
            else if negb shouldRetry then (Continue, run)
            else
              let retryCount := S retryCount in
              let failedCommands := map command failures in
              let failedInstallCommands := List.filter is_install failedCommands in
              if Nat.ltb 0 (length failedInstallCommands) && Nat.ltb retryCount maxRetries
              then
                let asked := MkRun (successfulCommands run) (executed run)
                               (status_checks run) (S (suggestions run)) in
                match suggest o (suggestions run) with
                | SuggestThrown => (Continue, asked)
                | Suggested (Some (c :: cs)) =>
                    retry_loop o shouldRetry maxRetries fuel
                      (List.filter (looksLikeCommand o) (c :: cs)) retryCount asked
                | Suggested _ =>
                    retry_loop o shouldRetry maxRetries fuel [] retryCount asked
                end
              else retry_loop o shouldRetry maxRetries fuel [] retryCount run
        end
  end.

(** [shouldRetry ? 3 : 1] *)
Definition maxRetries (shouldRetry : bool) : nat := if shouldRetry then 3%nat else 1%nat.

(** [for (const chunk of commandChunks)] *)
Fixpoint run_chunks (o : Oracles) (shouldRetry : bool) (chunks : list (list string))
    (run : Run) : Flow * Run :=
  match chunks with
  | [] => (Continue, run)
  | chunk :: rest =>
      match retry_loop o shouldRetry (maxRetries shouldRetry) (S (maxRetries shouldRetry))
              chunk 0 run with
      | (Return, run) => (Return, run)
      | (Continue, run) => run_chunks o shouldRetry rest run
      end
  end.

Record Outcome := MkOutcome {
  run : Run;
  failedCommands : option (list string);   (* the failures reported at the end *)
  saved : option (list string)             (* what saveExecutedCommands is given *)
}.

(** [executeCommands(commands, shouldRetry, chunkSize)] on a list of
    commands that has been sanitised, with a sandbox instance. *)
Definition executeCommands (o : Oracles) (commands : list string) (shouldRetry : bool)
    (chunkSize : nat) : Outcome :=
  let commands := unique commands in
  match run_chunks o shouldRetry (commandChunks chunkSize commands) (MkRun [] [] 0 0) with
  | (Return, run) => MkOutcome run None None
  | (Continue, run) =>
      MkOutcome run
        (Some (List.filter (fun cmd => negb (bool_decide (cmd ∈ successfulCommands run)))
                 commands))
        (Some (successfulCommands run))
  end.

(** A command counted as successful was reported so by the sandbox for
    a chunk that was sent. *)
Definition reported (o : Oracles) (run : Run) (cmd : string) : Prop :=
  exists i chunk results,
    executed run !! i = Some chunk /\ execute o i chunk = Results results /\
    MkResult cmd true ∈ results.

End CommandRunner.

(** * Theorems *)

Section AgentManagerFacts.
Import JS AgentManager.

(** C9 — [createAgent] and the registry: when the id of the init
    arguments already maps to an agent, [createAgent] rejects with the
    "already exists" error and leaves the registry as it was, so
    [getAgent] still returns the original agent.  When the id is fresh,
    [createAgent] settles as the initialisation of the newly allocated
    agent does: if [initialize] resolves, [createAgent] resolves to that
    agent and [getAgent] returns it afterwards, whatever other tasks did
    to the registry in the meantime, every other id being as those tasks
    left it; if [initialize] rejects, [createAgent] rejects with the same
    error and registers nothing.  So [createAgent] resolves exactly when
    the id is fresh and [initialize] resolves, and whenever it resolves
    [getAgent] returns the agent it resolved to. *)
Theorem createAgent_registry :
  forall initialize interleaved fresh initArgs (agents : gmap string SmartCodeGeneratorAgent),
    let id := agentId initArgs in
    let created := createAgent initialize interleaved fresh initArgs agents in
    (forall original,
        getAgent agents id = Some original ->
        exists e,
          created = (Rejected e, agents) /\
          message e = "Agent with ID " +:+ id +:+ " already exists." /\
          getAgent agents id = Some original) /\
    (getAgent agents id = None ->
     (forall u,
         initialize (Agent fresh initArgs) = Resolved u ->
         created = (Resolved (Agent fresh initArgs),
                    <[id := Agent fresh initArgs]> (interleaved agents)) /\
         getAgent created.2 id = Some (Agent fresh initArgs) /\
         forall other, other <> id ->
                       getAgent created.2 other = getAgent (interleaved agents) other) /\
     (forall e,
         initialize (Agent fresh initArgs) = Rejected e ->
         created = (Rejected e, interleaved agents))) /\
    ((exists agent, created.1 = Resolved agent) <->
     getAgent agents id = None /\ exists u, initialize (Agent fresh initArgs) = Resolved u) /\
    (forall agent,
        created.1 = Resolved agent ->
        agent = Agent fresh initArgs /\ getAgent created.2 id = Some agent).
Proof.
  intros initialize interleaved fresh initArgs agents id created.
  unfold created, getAgent, createAgent. fold id.
  destruct (agents !! id) as [original|] eqn:Hid.
  - rewrite bool_decide_eq_true_2 by eauto. simpl.
    split; [|split; [done|split]].
    + intros original' [= <-]. eexists. split; [reflexivity|]. done.
    + split; [intros [agent [=]]|intros [[=] _]].
    + intros agent [=].
  - rewrite bool_decide_eq_false_2 by (intros [? ?]; discriminate).
    split; [done|]. split; [intros _; split|split].
    + intros u ->. simpl. split; [done|]. split; [apply lookup_insert_eq|].
      intros other Hne. by rewrite lookup_insert_ne.
    + by intros e ->.
    + destruct (initialize (Agent fresh initArgs)) as [u|e]; simpl.
      * split; [eauto|eauto].
      * split; [intros [agent [=]]|intros [_ [u [=]]]].
    + destruct (initialize (Agent fresh initArgs)) as [u|e]; simpl; [|done].
      intros agent [= <-]. split; [done|]. apply lookup_insert_eq.
Qed.

(** A fresh id whose initialisation resolves, on a registry that holds
    another agent: the agent is created and both are registered. *)
Example createAgent_registers :
  let other := Agent 0 (InitArgs "agent-1" "a todo app") in
  let created :=
    createAgent (fun _ => Resolved tt) (fun agents => agents) 1
      (InitArgs "agent-2" "a blog") {[ "agent-1" := other ]} in
  created.1 = Resolved (Agent 1 (InitArgs "agent-2" "a blog")) /\
  getAgent created.2 "agent-2" = Some (Agent 1 (InitArgs "agent-2" "a blog")) /\
  getAgent created.2 "agent-1" = Some other.
Proof. vm_compute. repeat split. Qed.

End AgentManagerFacts.

Section LocalSandboxExecFacts.
Import JS LocalSandboxExec.

Lemma or_else_one_nonzero (c : value) : or_else c (VNum 1) <> VNum 0.
Proof.
  unfold or_else. destruct c as [| |n|s]; simpl; try discriminate.
  - destruct (Z.eqb_spec n 0); simpl; [discriminate|congruence].
  - destruct (String.eqb s ""); simpl; discriminate.
Qed.

(** C10 — [exec] is total at its interface: for every command and
    options the returned promise resolves (it never rejects); the
    response has [exitCode] 0 exactly when the command succeeds, and then
    it carries the two streams that [execAsync] resolved to for this
    command, working directory and timeout; every failure, the traversal
    guard on the working directory included, becomes a response whose
    [exitCode] is the error's [code] or 1, which is never 0, and whose
    streams are those attached to the error. *)
Theorem exec_total :
  forall execAsync basePath command options,
  exists r,
    exec execAsync basePath command options = Resolved r /\
    (exitCode r = VNum 0 <-> succeeds execAsync basePath command options) /\
    (forall out err,
        includes ".." (effective_cwd basePath options) = false ->
        execAsync command (effective_cwd basePath options) (options_timeout options)
          = Resolved (out, err) ->
        r = Response (Some out) (Some err) (VNum 0)) /\
    (includes ".." (effective_cwd basePath options) = true ->
     r = Response None None (VNum 1)) /\
    (forall e,
        includes ".." (effective_cwd basePath options) = false ->
        execAsync command (effective_cwd basePath options) (options_timeout options)
          = Rejected e ->
        r = Response (err_stdout e) (err_stderr e) (or_else (code e) (VNum 1)) /\
        exitCode r <> VNum 0).
Proof.
  intros execAsync basePath command options.
  unfold exec, succeeds.
  destruct (includes ".." (effective_cwd basePath options)) eqn:Hguard; simpl.
  - eexists. split; [reflexivity|]. simpl.
    split; [split; [discriminate|intros [? _]; discriminate]|].
    split; [discriminate|]. split; [reflexivity|]. discriminate.
  - destruct (execAsync command (effective_cwd basePath options) (options_timeout options))
      as [[out err]|e] eqn:Hrun; simpl.
    + eexists. split; [reflexivity|]. simpl.
      split; [split; eauto|]. split; [by intros out' err' _ [= <- <-]|].
      split; [discriminate|]. intros e _ [=].
    + eexists. split; [reflexivity|]. simpl.
      split; [|split; [|split]].
      * split.
        -- intros H. exfalso. exact (or_else_one_nonzero _ H).
        -- intros [_ (out & err & H)]. discriminate.
      * intros out err _ [=].
      * discriminate.
      * intros e' _ [= <-]. split; [reflexivity|]. simpl. apply or_else_one_nonzero.
Qed.

End LocalSandboxExecFacts.

Section ConversationFacts.
Import Conversation.

Lemma dedup_from_fresh seen l x :
  x ∈ ids (dedup_from seen l) -> (x ∉ seen) /\ (x ∈ ids l).
Proof.
  revert seen. induction l as [|m l IH]; intros seen; simpl.
  - intros H. by apply elem_of_nil in H.
  - case_bool_decide as Hm; simpl.
    + intros H. destruct (IH _ H). split; [done|]. by right.
    + intros [->|H]%elem_of_cons.
      * split; [done|]. by left.
      * destruct (IH _ H) as [Hn ?]. split; [set_solver|]. by right.
Qed.

Lemma dedup_from_NoDup seen l : NoDup (ids (dedup_from seen l)).
Proof.
  revert seen. induction l as [|m l IH]; intros seen; simpl.
  - constructor.
  - case_bool_decide as Hm; simpl; [apply IH|].
    constructor; [|apply IH].
    intros Hx. apply dedup_from_fresh in Hx. set_solver.
Qed.

Lemma dedup_from_covers seen l x :
  x ∈ ids l -> x ∉ seen -> x ∈ ids (dedup_from seen l).
Proof.
  revert seen. induction l as [|m l IH]; intros seen; simpl.
  - intros H. by apply elem_of_nil in H.
  - intros [->|H]%elem_of_cons Hn.
    + rewrite bool_decide_eq_false_2 by done. by left.
    + case_bool_decide as Hm; simpl; [by apply IH|].
      destruct (decide (x = conversationId m)) as [->|Hne]; [by left|].
      right. apply IH; [done|set_solver].
Qed.

(** Every message that survives is the first of its id in the input. *)
Lemma dedup_from_first seen l k x :
  dedup_from seen l !! k = Some x ->
  exists i, l !! i = Some x /\
            forall j y, (j < i)%nat -> l !! j = Some y ->
                        conversationId y <> conversationId x.
Proof.
  revert seen k. induction l as [|m l IH]; intros seen k; simpl; [done|].
  case_bool_decide as Hm.
  - intros H. destruct (IH _ _ H) as (i & Hi & Hfirst).
    exists (S i). split; [done|].
    intros [|j] y Hj; simpl.
    + intros [= ->] Heq.
      assert (conversationId x ∈ ids (dedup_from seen l)) as Hx.
      { apply list_elem_of_fmap. exists x. split; [done|].
        by eapply list_elem_of_lookup_2. }
      apply dedup_from_fresh in Hx. rewrite <- Heq in Hx. tauto.
    + apply Hfirst. lia.
  - destruct k as [|k]; simpl.
    + intros [= <-]. exists 0%nat. split; [done|]. intros; lia.
    + intros H. destruct (IH _ _ H) as (i & Hi & Hfirst).
      exists (S i). split; [done|].
      intros [|j] y Hj; simpl.
      * intros [= ->] Heq.
        assert (conversationId x ∈ ids (dedup_from ({[conversationId y]} ∪ seen) l)) as Hx.
        { apply list_elem_of_fmap. exists x. split; [done|].
          by eapply list_elem_of_lookup_2. }
        apply dedup_from_fresh in Hx. set_solver.
      * apply Hfirst. lia.
Qed.

Lemma dedup_from_NoDup_id seen l :
  NoDup (ids l) -> (forall x, x ∈ ids l -> x ∉ seen) -> dedup_from seen l = l.
Proof.
  revert seen. induction l as [|m l IH]; intros seen Hnd Hdisj; simpl; [done|].
  apply NoDup_cons in Hnd as [Hm Hnd].
  rewrite bool_decide_eq_false_2 by (apply Hdisj; by left).
  f_equal. apply IH; [done|].
  intros x Hx. specialize (Hdisj x ltac:(by right)).
  assert (x <> conversationId m) by (intros ->; done). set_solver.
Qed.

Lemma find_by_id_None id h : find_by_id id h = None <-> id ∉ ids h.
Proof.
  unfold find_by_id. induction h as [|m h IH]; simpl.
  - split; [intros _ H; by apply elem_of_nil in H|done].
  - destruct (String.eqb_spec (conversationId m) id) as [<-|Hne].
    + split; [done|]. intros H. exfalso. apply H. by left.
    + rewrite IH. split.
      * intros Hn [->|H]%elem_of_cons; done.
      * intros Hn H. apply Hn. by right.
Qed.

Lemma replace_absent (m : ConversationMessage) h :
  conversationId m ∉ ids h ->
  map (fun msg => if String.eqb (conversationId msg) (conversationId m)
                  then m else msg) h = h.
Proof.
  induction h as [|x h IH]; simpl; [done|].
  intros Hn. destruct (String.eqb_spec (conversationId x) (conversationId m)) as [Heq|_].
  - exfalso. apply Hn. rewrite <- Heq. by left.
  - f_equal. apply IH. intros H. apply Hn. by right.
Qed.

(** Replacement happens at the one position that holds the id. *)
Lemma insert_or_replace_present (m : ConversationMessage) h :
  NoDup (ids h) -> conversationId m ∈ ids h ->
  exists i old, h !! i = Some old /\ conversationId old = conversationId m /\
                insert_or_replace m h = <[i := m]> h.
Proof.
  intros Hnd Hin. unfold insert_or_replace.
  destruct (find_by_id (conversationId m) h) eqn:Hfind;
    [|apply find_by_id_None in Hfind; done].
  clear Hfind. induction h as [|x h IH]; simpl; [by apply elem_of_nil in Hin|].
  apply NoDup_cons in Hnd as [Hx Hnd].
  destruct (String.eqb_spec (conversationId x) (conversationId m)) as [Heq|Hne].
  - exists 0%nat, x. split; [done|]. split; [done|]. simpl. f_equal.
    apply replace_absent. by rewrite <- Heq.
  - apply elem_of_cons in Hin as [Heq|Hin]; [congruence|].
    destruct (IH Hnd Hin) as (i & old & Hi & Hid & Hrep).
    exists (S i), old. split; [done|]. split; [done|]. simpl. by f_equal.
Qed.

Lemma insert_or_replace_absent (m : ConversationMessage) h :
  conversationId m ∉ ids h -> insert_or_replace m h = h ++ [m].
Proof.
  intros Hn. unfold insert_or_replace.
  by apply find_by_id_None in Hn as ->.
Qed.

Lemma ids_insert (m : ConversationMessage) h i old :
  h !! i = Some old -> conversationId old = conversationId m ->
  ids (<[i := m]> h) = ids h.
Proof.
  intros Hi Hid. unfold ids. rewrite list_fmap_insert.
  apply list_insert_id. rewrite list_lookup_fmap, Hi. simpl. by rewrite Hid.
Qed.

Lemma insert_or_replace_NoDup (m : ConversationMessage) h :
  NoDup (ids h) -> NoDup (ids (insert_or_replace m h)).
Proof.
  intros Hnd. destruct (decide (conversationId m ∈ ids h)) as [Hin|Hn].
  - destruct (insert_or_replace_present m h Hnd Hin) as (i & old & Hi & Hid & ->).
    by erewrite ids_insert.
  - rewrite insert_or_replace_absent by done. unfold ids. rewrite fmap_app. simpl.
    apply NoDup_app. split; [done|]. split.
    + intros x Hx [->|H]%elem_of_cons; [done|by apply elem_of_nil in H].
    + apply NoDup_singleton.
Qed.

Lemma insert_or_replace_nonempty (m : ConversationMessage) h :
  Nat.eqb (length (insert_or_replace m h)) 0 = false.
Proof.
  unfold insert_or_replace. destruct (find_by_id _ h) eqn:Hf.
  - rewrite length_map. destruct h; [discriminate|done].
  - rewrite length_app. simpl. apply Nat.eqb_neq. lia.
Qed.

Lemma deduplicateMessages_fixed h :
  NoDup (ids h) -> deduplicateMessages h = h.
Proof. intros. apply dedup_from_NoDup_id; [done|set_solver]. Qed.

Lemma getConversationState_add_read st id m :
  let cs := getConversationState st id in
  let cs' := getConversationState (addConversationMessage (Sql true true) id m st) id in
  runningHistory cs' = insert_or_replace m (runningHistory cs) /\
  fullHistory cs' = insert_or_replace m (fullHistory cs).
Proof.
  simpl. unfold addConversationMessage, setConversationState, getConversationState.
  simpl. unfold read_table. rewrite !lookup_insert_eq. simpl.
  rewrite !insert_or_replace_nonempty.
  split; apply deduplicateMessages_fixed, insert_or_replace_NoDup, dedup_from_NoDup.
Qed.

(** C6 — conversation ids are unique in both histories that
    [getConversationState] returns; the deduplication pass keeps, for
    every id of its input, the first message with that id and nothing
    else; and after [addConversationMessage] (with both table writes
    going through) the next read returns each history with the message
    inserted or replaced: replaced at the position that held its id, the
    length unchanged, when the id was present in that history, and
    appended at the end when it was not. *)
Theorem conversation_ids_unique_and_replaced :
  forall st id m,
    let cs := getConversationState st id in
    let cs' := getConversationState (addConversationMessage (Sql true true) id m st) id in
    NoDup (ids (runningHistory cs)) /\ NoDup (ids (fullHistory cs)) /\
    (forall l k x,
        deduplicateMessages l !! k = Some x ->
        exists i, l !! i = Some x /\
                  forall j y, (j < i)%nat -> l !! j = Some y ->
                              conversationId y <> conversationId x) /\
    (forall l x, x ∈ ids l -> x ∈ ids (deduplicateMessages l)) /\
    runningHistory cs' = insert_or_replace m (runningHistory cs) /\
    fullHistory cs' = insert_or_replace m (fullHistory cs) /\
    NoDup (ids (runningHistory cs')) /\ NoDup (ids (fullHistory cs')) /\
    (forall h,
        h = runningHistory cs \/ h = fullHistory cs ->
        (conversationId m ∈ ids h ->
         exists i old,
           h !! i = Some old /\ conversationId old = conversationId m /\
           insert_or_replace m h = <[i := m]> h /\
           length (insert_or_replace m h) = length h) /\
        (conversationId m ∉ ids h -> insert_or_replace m h = h ++ [m])).
Proof.
  intros st id m cs cs'.
  assert (NoDup (ids (runningHistory cs)) /\ NoDup (ids (fullHistory cs))) as [Hr Hf].
  { split; apply dedup_from_NoDup. }
  split; [done|]. split; [done|].
  split; [intros l k x; apply dedup_from_first|].
  split; [intros l x Hx; apply dedup_from_covers; [done|set_solver]|].
  destruct (getConversationState_add_read st id m) as [Hrun Hfull].
  split; [done|]. split; [done|].
  split; [apply dedup_from_NoDup|]. split; [apply dedup_from_NoDup|].
  intros h Hh. assert (NoDup (ids h)) as Hnd by (destruct Hh as [->| ->]; done).
  split.
  - intros Hin. destruct (insert_or_replace_present m h Hnd Hin) as (i & old & Hi & Hid & Heq).
    exists i, old. repeat split; try done. rewrite Heq. apply length_insert.
  - apply insert_or_replace_absent.
Qed.

Example conversation_streaming_update :
  let a := Message "c1" user "hello" in
  let b := Message "c2" assistant "par" in
  let b' := Message "c2" assistant "partial answer" in
  let st0 := MkStore [a; b; a] ∅ ∅ in
  let st1 := addConversationMessage (Sql true true) "default" b' st0 in
  runningHistory (getConversationState st0 "default") = [a; b] /\
  runningHistory (getConversationState st1 "default") = [a; b'] /\
  fullHistory (getConversationState st1 "default") = [a; b'].
Proof. vm_compute. auto. Qed.

End ConversationFacts.

Section RateLimitFacts.
Import InMemoryRateLimitStore.

Lemma bucketKey_inj key t1 t2 : bucketKey key t1 = bucketKey key t2 -> t1 = t2.
Proof.
  unfold bucketKey. intros H.
  do 3 apply (inj (String.app _)) in H.
  by apply (inj pretty) in H.
Qed.

Lemma bucket_loop_times fuel key time now bs :
  bucket_loop fuel key time now bs = map (bucketKey key) (times_loop fuel time now bs).
Proof.
  revert time. induction fuel as [|fuel IH]; intros time; simpl; [done|].
  destruct (time <=? now); simpl; [by rewrite IH|done].
Qed.

(** The loop stops on its own condition: fuel beyond the iteration
    count changes nothing. *)
Lemma times_loop_enough fuel extra time now bs :
  0 < bs -> (now - time) / bs + 1 <= Z.of_nat fuel ->
  times_loop (fuel + extra) time now bs = times_loop fuel time now bs.
Proof.
  intros Hbs. revert time. induction fuel as [|fuel IH]; intros time Hfuel; simpl.
  - assert (now - time < 0) as Hlt.
    { destruct (Z.lt_ge_cases (now - time) 0) as [|Hge]; [done|].
      pose proof (Z.div_pos (now - time) bs Hge Hbs). lia. }
    destruct extra; simpl; [done|].
    destruct (Z.leb_spec time now); [lia|done].
  - destruct (Z.leb_spec time now); [|done]. f_equal. apply IH.
    replace (now - (time + bs)) with (now - time + (-1) * bs) by lia.
    rewrite Z.div_add by lia. lia.
Qed.

Lemma times_loop_elem fuel time now bs t :
  0 < bs ->
  t ∈ times_loop fuel time now bs <->
  exists i : nat, (i < fuel)%nat /\ t = time + Z.of_nat i * bs /\ t <= now.
Proof.
  intros Hbs. revert time. induction fuel as [|fuel IH]; intros time; simpl.
  - split; [intros H; by apply elem_of_nil in H|intros (i & ? & _); lia].
  - destruct (Z.leb_spec time now) as [Hle|Hgt].
    + rewrite elem_of_cons, IH. split.
      * intros [->|(i & Hi & -> & Hnow)].
        -- exists 0%nat. split; [lia|]. split; lia.
        -- exists (S i). split; [lia|]. split; lia.
      * intros ([|i] & Hi & -> & Hnow).
        -- left. lia.
        -- right. exists i. split; [lia|]. split; lia.
    + split; [intros H; by apply elem_of_nil in H|].
      intros (i & _ & -> & Hnow). nia.
Qed.

Lemma times_loop_NoDup fuel time now bs : 0 < bs -> NoDup (times_loop fuel time now bs).
Proof.
  intros Hbs. revert time. induction fuel as [|fuel IH]; intros time; simpl.
  - constructor.
  - destruct (time <=? now); [|constructor].
    constructor; [|apply IH].
    rewrite times_loop_elem by done. intros (i & _ & Heq & _). nia.
Qed.

Lemma window_keys_times key now windowMs bs :
  bucket_loop (Z.to_nat ((now - (now - windowMs) / bs * bs) / bs + 1)) key
    ((now - windowMs) / bs * bs) now bs
  = window_keys key now windowMs bs.
Proof. unfold window_keys, window_times. apply bucket_loop_times. Qed.

(** With a positive bucket size [generateBucketKeys] returns, with the
    keys of the whole window. *)
Lemma generateBucketKeys_pos key now windowMs bs :
  0 < bs -> generateBucketKeys key now windowMs bs = Some (window_keys key now windowMs bs).
Proof.
  intros Hbs. unfold generateBucketKeys, floor_to_bucket.
  destruct (Z.eqb_spec bs 0); [lia|].
  destruct (Z.ltb_spec bs 0); [lia|]. simpl. by rewrite window_keys_times.
Qed.

(** With a bucket size of 0 it returns no key at all. *)
Lemma generateBucketKeys_zero key now windowMs :
  generateBucketKeys key now windowMs 0 = Some [].
Proof. reflexivity. Qed.

(** The window holds exactly the bucket timestamps from the bucket of
    [now - windowMs] up to [now]. *)
Lemma window_times_elem now windowMs bs t :
  0 < bs ->
  t ∈ window_times now windowMs bs <->
  (exists q, t = q * bs) /\ (now - windowMs) / bs * bs <= t <= now.
Proof.
  intros Hbs. unfold window_times. rewrite times_loop_elem by done.
  set (start := (now - windowMs) / bs * bs). split.
  - intros (i & _ & -> & Hnow). split; [|nia].
    exists ((now - windowMs) / bs + Z.of_nat i). unfold start. lia.
  - intros [[q ->] [Hlo Hhi]].
    assert ((now - windowMs) / bs <= q) as Hq by (unfold start in Hlo; nia).
    exists (Z.to_nat (q - (now - windowMs) / bs)).
    assert (q * bs = start + (q - (now - windowMs) / bs) * bs) as Heq
        by (unfold start; lia).
    split; [|split; [rewrite Z2Nat.id by lia; exact Heq|done]].
    apply Nat2Z.inj_lt. rewrite !Z2Nat.id.
    + assert ((q - (now - windowMs) / bs) * bs <= now - start) as Hle by lia.
      apply (Z.div_le_mono _ _ bs) in Hle; [|done].
      rewrite Z.div_mul in Hle by lia. lia.
    + assert (0 <= (now - start) / bs); [|lia].
      apply Z.div_pos; [nia|done].
    + lia.
Qed.

Lemma window_times_NoDup now windowMs bs : 0 < bs -> NoDup (window_times now windowMs bs).
Proof. intros. by apply times_loop_NoDup. Qed.

Lemma window_keys_NoDup key now windowMs bs :
  0 < bs -> NoDup (window_keys key now windowMs bs).
Proof.
  intros Hbs. unfold window_keys.
  apply NoDup_fmap_2_strong; [|by apply window_times_NoDup].
  intros t1 t2 _ _. apply bucketKey_inj.
Qed.

Lemma window_keys_elem key now windowMs bs t :
  0 < bs ->
  bucketKey key t ∈ window_keys key now windowMs bs <->
  (exists q, t = q * bs) /\ (now - windowMs) / bs * bs <= t <= now.
Proof.
  intros Hbs. unfold window_keys. rewrite <- window_times_elem by done.
  rewrite list_elem_of_fmap. split.
  - intros (t' & Heq & Hin). by apply bucketKey_inj in Heq as ->.
  - intros Hin. by exists t.
Qed.

Lemma foldl_sum_shift (f : string -> Z) (a : Z) keys :
  foldl (fun sum k => sum + f k) a keys = a + foldl (fun sum k => sum + f k) 0 keys.
Proof.
  revert a. induction keys as [|k keys IH]; intros a; simpl; [lia|].
  rewrite (IH (a + f k)), (IH (0 + f k)). lia.
Qed.

Lemma sum_counts_cons store now k keys :
  sum_counts store now (k :: keys) = live_count store now k + sum_counts store now keys.
Proof. unfold sum_counts. simpl. apply foldl_sum_shift. Qed.

Lemma sum_counts_ext store store' now now' keys :
  (forall k, k ∈ keys -> live_count store now k = live_count store' now' k) ->
  sum_counts store now keys = sum_counts store' now' keys.
Proof.
  induction keys as [|k keys IH]; intros H; [done|].
  rewrite !sum_counts_cons, H, IH; [done| |by left].
  intros k' Hk'. apply H. by right.
Qed.

Lemma sum_counts_empty now keys : sum_counts ∅ now keys = 0.
Proof.
  induction keys as [|k keys IH]; [done|].
  rewrite sum_counts_cons, IH. unfold live_count. by rewrite lookup_empty.
Qed.

Lemma live_count_insert_eq store now k b :
  live_count (<[k := b]> store) now k = if expiresAt b >? now then count b else 0.
Proof. unfold live_count. by rewrite lookup_insert_eq. Qed.

Lemma live_count_insert_ne store now k k' b :
  k <> k' -> live_count (<[k := b]> store) now k' = live_count store now k'.
Proof. intros. unfold live_count. by rewrite lookup_insert_ne. Qed.

Lemma sum_counts_insert_notin store now k b keys :
  k ∉ keys -> sum_counts (<[k := b]> store) now keys = sum_counts store now keys.
Proof.
  intros Hk. apply sum_counts_ext. intros k' Hk'.
  apply live_count_insert_ne. intros ->. done.
Qed.

Lemma sum_counts_insert_in store now k b keys :
  NoDup keys -> k ∈ keys ->
  sum_counts (<[k := b]> store) now keys =
  sum_counts store now keys - live_count store now k
  + (if expiresAt b >? now then count b else 0).
Proof.
  induction keys as [|k' keys IH]; intros Hnd Hin; [by apply elem_of_nil in Hin|].
  apply NoDup_cons in Hnd as [Hk' Hnd]. rewrite !sum_counts_cons.
  destruct (decide (k = k')) as [<-|Hne].
  - rewrite live_count_insert_eq, sum_counts_insert_notin by done. lia.
  - apply elem_of_cons in Hin as [?|Hin]; [done|].
    rewrite live_count_insert_ne, IH by done. lia.
Qed.

(** A successful write adds exactly one to any sum that covers the
    current bucket, read at [now] or later while the bucket is live. *)
Lemma sum_counts_bump store now now' k e keys :
  NoDup keys -> k ∈ keys -> now <= now' -> now' < e ->
  (forall b, store !! k = Some b -> now < expiresAt b -> now' < expiresAt b) ->
  sum_counts (bump store now k e) now' keys = sum_counts store now' keys + 1.
Proof.
  intros Hnd Hin Hle He Hlive. unfold bump.
  destruct (store !! k) as [b|] eqn:Hk.
  - destruct (Z.gtb_spec (expiresAt b) now) as [Hb|Hb].
    + rewrite sum_counts_insert_in by done. simpl.
      unfold live_count. rewrite Hk.
      destruct (Z.gtb_spec e now'); [|lia].
      destruct (Z.gtb_spec (expiresAt b) now'); [lia|].
      specialize (Hlive b eq_refl). lia.
    + rewrite sum_counts_insert_in by done. simpl.
      unfold live_count. rewrite Hk.
      destruct (Z.gtb_spec e now'); [|lia].
      destruct (Z.gtb_spec (expiresAt b) now'); lia.
  - rewrite sum_counts_insert_in by done. simpl.
    unfold live_count. rewrite Hk.
    destruct (Z.gtb_spec e now'); lia.
Qed.

Lemma live_count_bump_ne store now now' k k' e :
  k <> k' -> live_count (bump store now k e) now' k' = live_count store now' k'.
Proof.
  intros Hne. unfold bump.
  destruct (store !! k) as [b|]; [destruct (expiresAt b >? now)|];
    by apply live_count_insert_ne.
Qed.

Lemma live_count_bump_eq store now k e :
  now < e -> live_count (bump store now k e) now k = live_count store now k + 1.
Proof.
  intros He. unfold bump, live_count.
  destruct (store !! k) as [b|] eqn:Hk.
  - destruct (Z.gtb_spec (expiresAt b) now); rewrite lookup_insert_eq; simpl;
      destruct (Z.gtb_spec e now); lia.
  - rewrite lookup_insert_eq; simpl. destruct (Z.gtb_spec e now); lia.
Qed.

(** The sweep only drops buckets that no longer count. *)
Lemma live_count_cleanup store now now' k :
  now <= now' -> live_count (cleanup now store) now' k = live_count store now' k.
Proof.
  intros Hle. unfold live_count, cleanup. rewrite map_lookup_filter.
  destruct (store !! k) as [b|]; simpl; [|done].
  case_guard as Hg; simpl in *; [done|].
  destruct (Z.gtb_spec (expiresAt b) now'); [lia|done].
Qed.

Lemma cleanup_subseteq store now : cleanup now store ⊆ store.
Proof. apply map_filter_subseteq. Qed.

Lemma cleanup_unexpired store now :
  (forall k b, store !! k = Some b -> now <= expiresAt b) -> cleanup now store = store.
Proof.
  intros H. apply map_eq. intros k. unfold cleanup. rewrite map_lookup_filter.
  destruct (store !! k) as [b|] eqn:Hk; simpl; [|done].
  case_guard as Hg; simpl in *; [done|]. specialize (H k b Hk). lia.
Qed.

Lemma sum_counts_sweep (sweep : bool) store now keys :
  sum_counts (if sweep then cleanup now store else store) now keys
  = sum_counts store now keys.
Proof.
  destruct sweep; [|done]. apply sum_counts_ext. intros k _. by apply live_count_cleanup.
Qed.

Lemma current_bucket_in_window key now windowMs bs :
  0 < bs -> 0 <= windowMs ->
  bucketKey key (now / bs * bs) ∈ window_keys key now windowMs bs.
Proof.
  intros Hbs Hw. apply window_keys_elem; [done|].
  split; [by eexists|]. split.
  - apply Z.mul_le_mono_nonneg_r; [lia|]. apply Z.div_le_mono; lia.
  - rewrite Z.mul_comm. apply Z.mul_div_le. lia.
Qed.

(** A bucket opened at [earlier] is still inside the window at [now]. *)
Lemma earlier_bucket_in_window key earlier now windowMs bs :
  0 < bs -> now - windowMs <= earlier <= now ->
  bucketKey key (earlier / bs * bs) ∈ window_keys key now windowMs bs.
Proof.
  intros Hbs [Hlo Hhi]. apply window_keys_elem; [done|].
  split; [by eexists|]. split.
  - apply Z.mul_le_mono_nonneg_r; [lia|]. apply Z.div_le_mono; lia.
  - pose proof (Z.mul_div_le earlier bs Hbs). lia.
Qed.

(** With a positive bucket size both counts are read, the main one
    over the keys of the whole window. *)
Lemma mainCount_pos store now key config :
  0 < bucketSizeMs config ->
  mainCount store now key config = Some (window_count store now key config).
Proof. intros Hbs. unfold mainCount. by rewrite generateBucketKeys_pos. Qed.

Lemma burstCount_pos store now key config :
  0 < bucketSizeMs config ->
  burstCount store now key config
  = Some (sum_counts store now
            (if configured (burst config)
             then window_keys key now (nullish (burstWindow config) 60 * 1000)
                    (bucketSizeMs config)
             else [])).
Proof.
  intros Hbs. unfold burstCount.
  destruct (configured (burst config)); [|done]. by rewrite generateBucketKeys_pos.
Qed.

Lemma window_count_sweep (sweep : bool) store now key config :
  window_count (if sweep then cleanup now store else store) now key config
  = window_count store now key config.
Proof. apply sum_counts_sweep. Qed.

Lemma floor_to_bucket_pos x bs : 0 < bs -> floor_to_bucket x bs = Int (x / bs * bs).
Proof. intros Hbs. unfold floor_to_bucket. destruct (Z.eqb_spec bs 0); [lia|done]. Qed.

(** [increment] with a positive bucket size, in terms of the counts
    over whole windows. *)
Lemma increment_pos (sweep : bool) now key config store :
  0 < bucketSizeMs config ->
  let swept := if sweep then cleanup now store else store in
  let main := window_count store now key config in
  let burstC :=
    sum_counts store now
      (if configured (burst config)
       then window_keys key now (nullish (burstWindow config) 60 * 1000)
              (bucketSizeMs config)
       else []) in
  increment sweep now key config store =
  Some (if main >=? limit config then (Result false (Some 0), swept)
        else if configured (burst config) && (burstC >=? nullish (burst config) 0)
             then (Result false (Some 0), swept)
             else (Result true (Some (Z.max 0 (limit config - main - 1))),
                   bump swept now
                     (bucketKey key (now / bucketSizeMs config * bucketSizeMs config))
                     (now + (Z.max (period config) (nullish (burstWindow config) 60)
                             + nullish (bucketSize config) 10) * 1000))).
Proof.
  intros Hbs swept main burstC. unfold increment. fold swept.
  rewrite mainCount_pos, burstCount_pos, floor_to_bucket_pos by done.
  assert (window_count swept now key config = main) as -> by apply window_count_sweep.
  assert (sum_counts swept now
            (if configured (burst config)
             then window_keys key now (nullish (burstWindow config) 60 * 1000)
                    (bucketSizeMs config)
             else []) = burstC) as -> by apply sum_counts_sweep.
  simpl.
  destruct (main >=? limit config); [done|].
  by destruct (configured (burst config) && (burstC >=? nullish (burst config) 0)).
Qed.

Lemma scenario_first sweep key t1 :
  increment sweep t1 key scenario_config (∅ : gmap string Bucket)
  = Some (Result true (Some 1),
          bump (∅ : gmap string Bucket) t1 (bucketKey key (t1 / 10000 * 10000)) (t1 + 70000)).
Proof.
  rewrite increment_pos by done.
  assert ((if sweep then cleanup t1 ∅ else ∅) = (∅ : gmap string Bucket)) as ->.
  { destruct sweep; [|done]. apply map_filter_empty. }
  unfold window_count. rewrite !sum_counts_empty. reflexivity.
Qed.

Lemma scenario_main_after_first key t1 now :
  t1 <= now <= t1 + 10000 ->
  window_count (bump (∅ : gmap string Bucket) t1 (bucketKey key (t1 / 10000 * 10000)) (t1 + 70000))
    now key scenario_config = 1.
Proof.
  intros Ht. unfold window_count.
  rewrite sum_counts_bump, sum_counts_empty; try done; try lia.
  - by apply window_keys_NoDup.
  - apply earlier_bucket_in_window; [done|]. simpl. lia.
Qed.

Lemma scenario_second sweep key t1 t2 :
  t1 <= t2 <= t1 + 10000 ->
  let store1 := bump (∅ : gmap string Bucket) t1 (bucketKey key (t1 / 10000 * 10000)) (t1 + 70000) in
  increment sweep t2 key scenario_config store1
  = Some (Result true (Some 0),
          bump store1 t2 (bucketKey key (t2 / 10000 * 10000)) (t2 + 70000)).
Proof.
  intros Ht store1.
  assert (window_count store1 t2 key scenario_config = 1) as Hmain
      by (by apply scenario_main_after_first).
  assert ((if sweep then cleanup t2 store1 else store1) = store1) as Hsweep.
  { destruct sweep; [|done]. apply cleanup_unexpired. intros k b.
    unfold store1, bump. rewrite lookup_empty.
    intros [[_ <-]|[_ ?]]%lookup_insert_Some; [simpl; lia|done]. }
  rewrite increment_pos by done. rewrite Hsweep, Hmain. reflexivity.
Qed.

Lemma scenario_third sweep key t1 t2 t3 :
  t1 <= t2 <= t3 -> t3 <= t1 + 10000 ->
  let store1 := bump (∅ : gmap string Bucket) t1 (bucketKey key (t1 / 10000 * 10000)) (t1 + 70000) in
  let store2 := bump store1 t2 (bucketKey key (t2 / 10000 * 10000)) (t2 + 70000) in
  increment sweep t3 key scenario_config store2 = Some (Result false (Some 0), store2).
Proof.
  intros Ht Ht3 store1 store2. rewrite increment_pos by done.
  assert (window_count store2 t3 key scenario_config = 2) as ->.
  { unfold window_count, store2.
    rewrite sum_counts_bump; try lia.
    - fold (window_count store1 t3 key scenario_config).
      unfold store1. rewrite scenario_main_after_first; lia.
    - by apply window_keys_NoDup.
    - apply earlier_bucket_in_window; [done|]. simpl. lia.
    - intros b. unfold store1, bump. rewrite lookup_empty.
      intros [[_ <-]|[_ ?]]%lookup_insert_Some; [simpl; lia|done]. }
  simpl.
  assert ((if sweep then cleanup t3 store2 else store2) = store2) as ->; [|done].
  destruct sweep; [|done]. apply cleanup_unexpired. intros k b.
  assert (forall k b, store1 !! k = Some b -> t3 <= expiresAt b) as H1.
  { intros k' b'. unfold store1, bump. rewrite lookup_empty.
    intros [[_ <-]|[_ ?]]%lookup_insert_Some; [simpl; lia|done]. }
  unfold store2, bump.
  destruct (store1 !! bucketKey key (t2 / 10000 * 10000)) as [b2|];
    [destruct (expiresAt b2 >? t2)|];
    (intros [[_ <-]|[_ ?]]%lookup_insert_Some; [simpl; lia|by eapply H1]).
Qed.

(** C3, as stated, fails for a bucket size of 0, which [??] keeps: the
    bucket timestamps are then [NaN], both windows are empty, and the
    counts read 0 whatever was recorded, so that with limit 2 a third
    increment within three seconds is accepted like the first two, each
    reporting 1 as remaining, while the one bucket [ratelimit:u1:NaN]
    counts 3.  With a negative bucket size the call does not return. *)
Lemma increment_never_refuses_on_zero_bucket :
  let config := Config 2 60 (Some 0) None None in
  let first := increment false 1700000001000 "u1" config ∅ in
  let second := first ≫= fun out => increment false 1700000002000 "u1" config out.2 in
  let third := second ≫= fun out => increment false 1700000003000 "u1" config out.2 in
  fst <$> first = Some (Result true (Some 1)) /\
  fst <$> second = Some (Result true (Some 1)) /\
  fst <$> third = Some (Result true (Some 1)) /\
  (third ≫= fun out => out.2 !! "ratelimit:u1:NaN") = Some (MkBucket 3 1700000063000) /\
  (third ≫= fun out => getRemainingLimit 1700000003000 "u1" config out.2) = Some 2 /\
  increment false 1700000001000 "u1" (Config 2 60 (Some (-10)) None None) ∅ = None.
Proof. vm_compute. repeat split. Qed.

(** C3, amended — [increment] on whole-number configurations with a
    positive bucket size.  The call returns.  The main count is the sum
    of the live buckets under the keys that [generateBucketKeys] lists,
    whose timestamps are the multiples of the bucket size from the bucket
    of [now - period] up to [now]; the burst count is that sum over the
    burst window when a burst is configured.  If the main count has
    reached the limit, the call fails with remaining 0 and writes no
    bucket; if a burst is configured and the burst-window count has
    reached it, likewise; otherwise the call succeeds with remaining
    [max 0 (limit - mainCount - 1)] and the current bucket, and only that
    one, counts one more.  With limit 2, period 60 and bucket size 10,
    three increments of one key on an empty store within ten seconds give
    success/1, success/0 and failure/0. *)
Theorem increment_sliding_window :
  (forall (sweep : bool) now key config (store : gmap string Bucket),
      0 < bucketSizeMs config ->
      let swept := if sweep then cleanup now store else store in
      let current := bucketKey key (now / bucketSizeMs config * bucketSizeMs config) in
      exists main burstC mainBuckets,
        mainCount swept now key config = Some main /\
        burstCount swept now key config = Some burstC /\
        mainCount store now key config = Some main /\
        generateBucketKeys key now (period config * 1000) (bucketSizeMs config)
        = Some mainBuckets /\
        main = sum_counts store now mainBuckets /\
        (forall t,
            bucketKey key t ∈ mainBuckets <->
            (exists q, t = q * bucketSizeMs config) /\
            (now - period config * 1000) / bucketSizeMs config * bucketSizeMs config
            <= t <= now) /\
        (configured (burst config) = true ->
         exists burstBuckets,
           generateBucketKeys key now (nullish (burstWindow config) 60 * 1000)
             (bucketSizeMs config) = Some burstBuckets /\
           burstC = sum_counts store now burstBuckets) /\
        swept ⊆ store /\
        (limit config <= main ->
         increment sweep now key config store = Some (Result false (Some 0), swept)) /\
        (forall b, burst config = Some b -> b <> 0 -> b <= burstC ->
                   increment sweep now key config store
                   = Some (Result false (Some 0), swept)) /\
        (main < limit config ->
         (configured (burst config) = false \/ burstC < nullish (burst config) 0) ->
         exists store',
           increment sweep now key config store =
           Some (Result true (Some (Z.max 0 (limit config - main - 1))), store') /\
           store' !! current
           = Some (MkBucket
                     (match swept !! current with
                      | Some currentBucket =>
                          if expiresAt currentBucket >? now
                          then count currentBucket + 1 else 1
                      | None => 1
                      end)
                     (now + (Z.max (period config) (nullish (burstWindow config) 60)
                             + nullish (bucketSize config) 10) * 1000)) /\
           (forall k, k <> current -> store' !! k = swept !! k) /\
           (0 <= period config ->
            live_count store' now current = live_count store now current + 1 /\
            mainCount store' now key config = Some (main + 1)) /\
           forall k now', k <> current -> now <= now' ->
                          live_count store' now' k = live_count store now' k)) /\
  (forall sweep1 sweep2 sweep3 key t1 t2 t3,
      t1 <= t2 <= t3 -> t3 <= t1 + 10000 ->
      let config := Config 2 60 (Some 10) None None in
      exists store1 store2,
        increment sweep1 t1 key config ∅ = Some (Result true (Some 1), store1) /\
        increment sweep2 t2 key config store1 = Some (Result true (Some 0), store2) /\
        increment sweep3 t3 key config store2 = Some (Result false (Some 0), store2)).
Proof.
  split.
  - intros sweep now key config store Hbs swept current.
    set (main := window_count store now key config).
    set (burstC :=
           sum_counts store now
             (if configured (burst config)
              then window_keys key now (nullish (burstWindow config) 60 * 1000)
                     (bucketSizeMs config)
              else [])).
    pose proof (increment_pos sweep now key config store Hbs) as Hinc.
    cbv zeta in Hinc. fold swept main burstC in Hinc.
    exists main, burstC, (window_keys key now (period config * 1000) (bucketSizeMs config)).
    split; [rewrite mainCount_pos by done; unfold swept; by rewrite window_count_sweep|].
    split; [rewrite burstCount_pos by done; unfold swept; by rewrite sum_counts_sweep|].
    split; [by apply mainCount_pos|].
    split; [by apply generateBucketKeys_pos|]. split; [done|].
    split; [intros t; by apply window_keys_elem|].
    split.
    { intros Hb. eexists. split; [by apply generateBucketKeys_pos|].
      unfold burstC. by rewrite Hb. }
    split; [destruct sweep; [apply cleanup_subseteq|done]|].
    split; [|split].
    + intros Hmain. rewrite Hinc.
      destruct (Z.geb_spec main (limit config)); [done|lia].
    + intros b Hb Hb0 Hge. rewrite Hinc.
      destruct (main >=? limit config); [done|].
      rewrite Hb. simpl.
      destruct (Z.eqb_spec b 0); [done|]. simpl.
      destruct (Z.geb_spec burstC b); [done|lia].
    + intros Hmain Hburst. eexists. split.
      { rewrite Hinc. destruct (Z.geb_spec main (limit config)); [lia|].
        destruct Hburst as [->|Hb]; [done|].
        destruct (Z.geb_spec burstC (nullish (burst config) 0)); [lia|].
        by rewrite andb_false_r. }
      split.
      { fold current. unfold bump.
        destruct (swept !! current) as [cb|]; [destruct (expiresAt cb >? now)|];
          by rewrite lookup_insert_eq. }
      split.
      { intros k Hk. fold current. unfold bump.
        destruct (swept !! current) as [cb|]; [destruct (expiresAt cb >? now)|];
          by rewrite lookup_insert_ne. }
      split.
      * intros Hp. fold current.
        assert (forall k, live_count swept now k = live_count store now k) as Hlive.
        { intros k. unfold swept. destruct sweep; [|done]. by apply live_count_cleanup. }
        split.
        -- rewrite live_count_bump_eq, Hlive; [done|]. unfold bucketSizeMs in Hbs. lia.
        -- rewrite mainCount_pos by done. f_equal. unfold window_count.
           rewrite sum_counts_bump; try done; try lia.
           ++ unfold swept. rewrite sum_counts_sweep. done.
           ++ by apply window_keys_NoDup.
           ++ apply current_bucket_in_window; [done|lia].
           ++ unfold bucketSizeMs in Hbs. lia.
      * intros k now' Hk Hle. fold current. rewrite live_count_bump_ne by done.
        unfold swept. destruct sweep; [|done].
        by apply live_count_cleanup.
  - intros sweep1 sweep2 sweep3 key t1 t2 t3 Ht Ht3 config.
    eexists _, _. split; [apply scenario_first|].
    split; [apply scenario_second; lia|by apply scenario_third].
Qed.

(** The scenario and the general statement at concrete inputs. *)
Lemma increment_sliding_window_witness :
  (exists store1,
      increment true 1700000001000 "u1" (Config 2 60 (Some 10) None None) ∅
      = Some (Result true (Some 1), store1)) /\
  (exists store1 store2,
      increment false 1700000001000 "u1" (Config 2 60 (Some 10) None None) ∅
      = Some (Result true (Some 1), store1) /\
      increment true 1700000005000 "u1" (Config 2 60 (Some 10) None None) store1
      = Some (Result true (Some 0), store2) /\
      increment true 1700000010500 "u1" (Config 2 60 (Some 10) None None) store2
      = Some (Result false (Some 0), store2)).
Proof.
  split.
  - destruct (proj1 increment_sliding_window true 1700000001000 "u1"
                (Config 2 60 (Some 10) None None) ∅ eq_refl)
      as (main & burstC & mainBuckets & _ & _ & Hmain & _ & _ & _ & _ & _ & _ & _ & Hok).
    rewrite mainCount_pos in Hmain by done. injection Hmain as <-.
    destruct Hok as (store' & Hinc & _); [vm_compute; reflexivity|by left|].
    exists store'. vm_compute in Hinc. vm_compute. exact Hinc.
  - apply (proj2 increment_sliding_window false true true "u1"
             1700000001000 1700000005000 1700000010500); lia.
Defined.

End RateLimitFacts.

Section LocalSandboxFilesFacts.
Import JS LocalSandboxFiles.

(** C4 — the traversal guard of [writeFile] and [readFile] tests the
    path that [path.join] has already normalised, in which every [..]
    segment has been resolved.  With base directory [/srv/app], writing
    [../outside.txt] succeeds and creates [/srv/outside.txt], and reading
    [../../etc/passwd] succeeds and returns the content of
    [/etc/passwd]; both paths contain [..] and both files lie outside the
    base directory.  The guard does fire on a name such as [notes..txt]
    that stays inside the base.  The file system is one that accepts the
    writes. *)
Theorem traversal_guard_tests_normalised_path :
  let disk := ({[ "/etc/passwd" := "root:x:0:0" ]} : gmap string string) in
  includes ".." "../outside.txt" = true /\
  Path.join [getBasePath "/srv/app"; "../outside.txt"] = "/srv/outside.txt" /\
  Path.inside "/srv/app" "/srv/outside.txt" = false /\
  (writeFile accepting "/srv/app" "../outside.txt" "data" disk).1
    = WriteResp true "../outside.txt" None /\
  (writeFile accepting "/srv/app" "../outside.txt" "data" disk).2 !! "/srv/outside.txt"
    = Some "data" /\
  includes ".." "../../etc/passwd" = true /\
  Path.inside "/srv/app" "/etc/passwd" = false /\
  readFile "/srv/app" "../../etc/passwd" disk = ReadResp true "root:x:0:0" None 0 /\
  (writeFile accepting "/srv/app" "notes..txt" "data" disk).1
    = WriteResp false "notes..txt" (Some "Directory traversal is not allowed.").
Proof. vm_compute. repeat split. Qed.

(** X3 — the guard of [startProcess] is on the raw working directory:
    a [cwd] that contains [..] is rejected before anything is spawned. *)
Lemma startProcess_rejects_traversal spawn base command cwd :
  includes ".." cwd = true ->
  startProcess spawn base command (Some cwd)
  = Rejected (new_Error "Directory traversal is not allowed.").
Proof.
  intros H. unfold startProcess.
  destruct (String.eqb_spec cwd "") as [->|_]; [discriminate|].
  by rewrite H.
Qed.

End LocalSandboxFilesFacts.

Section CsrfMiddlewareFacts.
Import JS CsrfMiddleware.

(** C8, as stated, fails on a WebSocket upgrade: a POST that carries
    [Upgrade: websocket] and whose validation would fail reaches the
    handler, nothing is validated and no 403 is produced. *)
Lemma csrf_skipped_on_websocket_upgrade :
  let req := Req "POST" "https://build.example/api/apps" (Some "WebSocket") in
  let validate := fun _ : Request => Throws (A := unit) (SecurityError CSRF_VIOLATION) in
  let set_token := fun (_ : Request) (_ : Z) => Returns tt in
  is_safe_method req = false /\
  validate req = Throws (SecurityError CSRF_VIOLATION) /\
  csrf_middleware validate set_token (Returns 200) req = ([Handler], Downstream 200).
Proof. vm_compute. repeat split. Qed.

(** C8, amended — a request with an [Upgrade: websocket] header goes
    straight to the handler.  For any other request whose method is not
    GET, HEAD or OPTIONS, validation is the first call: when it throws,
    the handler is not invoked, and a CSRF violation becomes the 403
    JSON response with code [CSRF_VIOLATION]; when it passes, the handler
    runs next.  For any other GET, HEAD or OPTIONS request the handler
    runs first, and a token is set only afterwards, only on a response
    with status below 400. *)
Theorem csrf_middleware_outside_upgrades :
  forall validate set_token next req,
    (is_websocket_upgrade req = true ->
     (csrf_middleware validate set_token next req).1 = [Handler]) /\
    (is_websocket_upgrade req = false -> is_safe_method req = false ->
     (forall e, validate req = Throws e ->
                csrf_middleware validate set_token next req = ([Validate], on_error e)) /\
     (validate req = Throws (SecurityError CSRF_VIOLATION) ->
      csrf_middleware validate set_token next req = ([Validate], Own csrf_violation_response)
      /\ status csrf_violation_response = 403
      /\ contentType csrf_violation_response = Some "application/json"
      /\ ("code", "CSRF_VIOLATION") ∈ body csrf_violation_response) /\
     (validate req = Returns tt ->
      exists r, csrf_middleware validate set_token next req = ([Validate; Handler], r))) /\
    (is_websocket_upgrade req = false -> is_safe_method req = true ->
     exists r,
       csrf_middleware validate set_token next req = ([Handler], r) \/
       exists s, csrf_middleware validate set_token next req = ([Handler; SetToken s], r)
                 /\ next = Returns s /\ s < 400).
Proof.
  intros validate set_token next req. unfold csrf_middleware.
  split; [intros ->; done|]. split.
  - intros -> ->. split; [|split].
    + intros e ->. done.
    + intros ->. simpl. repeat split. set_solver.
    + intros ->. destruct next; eauto.
  - intros -> ->. destruct next as [s|e]; [|eauto].
    destruct (startsWith "/api/" (url req)); simpl; [|eauto].
    destruct (Z.ltb_spec s 400); [|eauto].
    destruct (set_token req s); eexists; right; eauto.
Qed.

Lemma csrf_middleware_outside_upgrades_witness :
  csrf_middleware (fun _ => Throws (SecurityError CSRF_VIOLATION))
    (fun _ _ => Returns tt) (Returns 200)
    (Req "post" "https://build.example/api/apps" None)
  = ([Validate], Own csrf_violation_response).
Proof.
  apply (csrf_middleware_outside_upgrades
           (fun _ => Throws (SecurityError CSRF_VIOLATION)) (fun _ _ => Returns tt)
           (Returns 200) (Req "post" "https://build.example/api/apps" None));
    reflexivity.
Defined.

(** The token branch compares [c.req.url], the absolute URL of the
    request, with the prefix [/api/]: on such a URL no token is set. *)
Example csrf_no_token_on_absolute_url :
  csrf_middleware (fun _ => Returns tt) (fun _ _ => Returns tt) (Returns 200)
    (Req "GET" "https://build.example/api/apps" None)
  = ([Handler], Downstream 200).
Proof. reflexivity. Qed.

End CsrfMiddlewareFacts.

Section GitHubExportFacts.
Import GitHubExport.

Variable hashContent : string -> string.
Variable blobSha : string -> string.
Variable treeSha : list (string * option string) -> string.
Variable commitSha : string -> string -> list string -> string.

Let push := forcePushToGitHub hashContent blobSha treeSha commitSha.

(** C7 — the cache is filled by the continuation of each [createBlob]
    request, after its [await]; a second file of the same commit with the
    same content is tested against the cache before that.  When the
    responses arrive after the file loop (the empty schedule), one commit
    holding two files with identical content issues two [createBlob]
    requests for that one content, with no reuse, although the cache ends
    with a single entry. *)
Theorem duplicate_content_in_one_commit :
  let commit := MkCommit "c1" "add files" [MkFile "a.txt" "same"; MkFile "b.txt" "same"] in
  exists st sha,
    push [] [commit] = Some (st, sha) /\
    blobs_created (calls st) = ["same"; "same"] /\
    totalBlobsCreated st = 2%nat /\
    totalBlobsReused st = 0%nat /\
    size (blobCache st) = 1%nat.
Proof.
  unfold push, forcePushToGitHub. simpl. unfold process_file. simpl.
  eexists _, _. split; [reflexivity|].
  repeat split; repeat (rewrite lookup_empty; simpl); try done.
  rewrite insert_insert_eq, insert_empty. apply map_size_singleton.
Qed.

(** When the first response arrives while the second file is being
    hashed, the second file reuses the blob. *)
Lemma duplicate_content_reused_when_response_is_early :
  let commit := MkCommit "c1" "add files" [MkFile "a.txt" "same"; MkFile "b.txt" "same"] in
  exists st sha,
    push [[]; [true]] [commit] = Some (st, sha) /\
    blobs_created (calls st) = ["same"] /\
    totalBlobsReused st = 1%nat.
Proof.
  unfold push, forcePushToGitHub. simpl. unfold process_file. simpl.
  eexists _, _. split; [reflexivity|].
  repeat (rewrite lookup_empty; simpl). repeat (rewrite lookup_insert_eq; simpl). done.
Qed.

End GitHubExportFacts.

Section PhasicAgentFacts.
Import PhasicAgent PhasicBudget.

Variable env : Environment.








Lemma implemented_app e1 e2 : implemented (e1 ++ e2) = implemented e1 ++ implemented e2.
Proof. unfold implemented. apply omap_app. Qed.


Lemma state_machine_loop_idle fuel pc m :
  state_machine_loop env fuel IDLE pc m = ([], ReachedIdle, m).
Proof. by destruct fuel. Qed.







End PhasicAgentFacts.


Example phases_budget_is_reached :
  let '(events, stop, m') :=
    PhasicAgent.launchStateMachine PhasicBudget.endless 27
      (PhasicAgent.MkMachine (PhasicBudget.fresh_state false) 0 0) in
  length (PhasicAgent.implemented events) = 12%nat /\
  PhasicAgent.counters events = [11; 10; 9; 8; 7; 6; 5; 4; 3; 2; 1; 0] /\
  stop = PhasicAgent.ReachedIdle /\
  PhasicAgent.phasesCounter (PhasicAgent.state m') = 0 /\
  PhasicAgent.mvpGenerated (PhasicAgent.state m') = true.
Proof. vm_compute. repeat split. Qed.

Section GitVersionControlFacts.
Import JS GitVersionControl.

Variable st : Storage.
Variable toISOString : Z -> string.
Variable author_identity : string * string.

Lemma commit_not_its_parent c :
  Git.parent c <> Some c.
Proof.
  intros H. apply (f_equal (fun o => match o with
                                     | Some c' => Git.chain_length c'
                                     | None => 0%nat
                                     end)) in H.
  destruct c as [t [p|] m a]; simpl in H; lia.
Qed.

Lemma staged_repo_nil r : staged_repo [] r = r.
Proof. by destruct r. Qed.

Lemma staged_repo_cons f files r :
  staged_repo (f :: files) r
  = staged_repo files
      (Git.add (normalize_path (filePath f))
         (Git.writeFile (normalize_path (filePath f)) (fileContents f) r)).
Proof.
  unfold staged_repo, staged, Git.add, Git.writeFile. simpl.
  by rewrite lookup_insert_eq.
Qed.

(** A staging that goes through leaves every file written and added. *)
Lemma stage_resolved files :
  forall r u r', stage st files r = (Resolved u, r') -> r' = staged_repo files r.
Proof.
  induction files as [|f files IH]; intros r u r'; simpl.
  - intros [= _ <-]. by rewrite staged_repo_nil.
  - unfold stage_file.
    destruct (writeFile_error st r _ _); [done|].
    destruct (add_error st _ _); [done|].
    intros H. rewrite staged_repo_cons. by eapply IH.
Qed.

(** Staging, failed or not, moves no reference. *)
Lemma stage_refs files :
  forall r, Git.HEAD (stage st files r).2 = Git.HEAD r /\
            Git.branches (stage st files r).2 = Git.branches r.
Proof.
  induction files as [|f files IH]; intros r; simpl; [done|].
  unfold stage_file.
  destruct (writeFile_error st r _ _); [done|].
  destruct (add_error st _ _); [done|].
  destruct (IH (Git.add (normalize_path (filePath f))
                  (Git.writeFile (normalize_path (filePath f)) (fileContents f) r)))
    as [-> ->]. done.
Qed.

Lemma stage_accepting files r :
  stage accepting files r = (Resolved tt, staged_repo files r).
Proof.
  revert r. induction files as [|f files IH]; intros r; simpl.
  - by rewrite staged_repo_nil.
  - by rewrite IH, staged_repo_cons.
Qed.

Lemma find_app_first {A} (q : A -> bool) (l1 l2 : list A) :
  List.find q (l1 ++ l2)
  = match List.find q l1 with
    | Some x => Some x
    | None => List.find q l2
    end.
Proof. induction l1 as [|x l1 IH]; simpl; [done|]. by destruct (q x). Qed.

(** The last content staged for a path, if any. *)
Lemma staged_lookup files m p :
  staged files m !! p =
  match List.find (fun f => String.eqb (normalize_path (filePath f)) p) (rev files) with
  | Some f => Some (fileContents f)
  | None => m !! p
  end.
Proof.
  unfold staged. revert m. induction files as [|f files IH]; intros m; simpl; [done|].
  rewrite IH. clear IH.
  rewrite find_app_first. destruct (List.find _ (rev files)); [done|]. simpl.
  destruct (String.eqb_spec (normalize_path (filePath f)) p) as [<-|Hne].
  - by rewrite lookup_insert_eq.
  - by rewrite lookup_insert_ne.
Qed.

Lemma staged_idempotent files m :
  staged files (staged files m) = staged files m.
Proof.
  apply map_eq. intros p. rewrite (staged_lookup files (staged files m)).
  rewrite (staged_lookup files m). by destruct (List.find _ (rev files)).
Qed.

Lemma staged_repo_in_sync files r : in_sync r -> in_sync (staged_repo files r).
Proof. unfold in_sync, staged_repo. simpl. by intros ->. Qed.

(** A row differs in its HEAD and WORKDIR columns exactly when the
    path differs between the HEAD tree and the working tree. *)
Lemma status_row_differs r p :
  negb (Z.eqb (Git.row1 (Git.status_row r p)) (Git.row2 (Git.status_row r p))) = true
  <-> Git.head_tree r !! p <> Git.workdir r !! p.
Proof.
  unfold Git.status_row, Git.row1, Git.row2. simpl.
  destruct (Git.head_tree r !! p) as [h|], (Git.workdir r !! p) as [w|]; simpl;
    try case_bool_decide; simpl; split; intros; try done; try congruence.
Qed.

Lemma some_row_differs_false r rows :
  Git.statusMatrix r = Some rows ->
  some_row_differs rows = false <-> Git.head_tree r = Git.workdir r.
Proof.
  intros [= <-]. unfold some_row_differs. split.
  - intros Hnone. apply map_eq. intros p.
    destruct (decide (p ∈ dom (Git.head_tree r) ∪ dom (Git.workdir r) ∪ dom (Git.index r)))
      as [Hin|Hout].
    + destruct (negb (Z.eqb (Git.row1 (Git.status_row r p)) (Git.row2 (Git.status_row r p))))
        eqn:Hrow.
      * exfalso. apply not_true_iff_false in Hnone. apply Hnone.
        apply existsb_exists. exists (Git.status_row r p). split; [|done].
        apply in_map, list_elem_of_In, elem_of_elements. done.
      * apply not_true_iff_false in Hrow. rewrite status_row_differs in Hrow.
        destruct (decide (Git.head_tree r !! p = Git.workdir r !! p)); [done|tauto].
    + assert ((p ∉ dom (Git.head_tree r)) /\ (p ∉ dom (Git.workdir r))) as [Hh Hw]
          by set_solver.
      apply not_elem_of_dom in Hh, Hw. by rewrite Hh, Hw.
  - intros Heq. apply not_true_iff_false. intros Hsome.
    apply existsb_exists in Hsome as (row & Hin & Hrow).
    apply in_map_iff in Hin as (p & <- & _).
    apply status_row_differs in Hrow. by rewrite Heq in Hrow.
Qed.

Lemma staged_repo_idempotent files r :
  staged_repo files (staged_repo files r) = staged_repo files r.
Proof. unfold staged_repo. simpl. by rewrite !staged_idempotent. Qed.

(** [commit] in terms of its staging: a rejection is passed on; once
    the files are staged, a commit is made exactly when the HEAD tree and
    the working tree differ. *)
Lemma commit_unfold files message now r :
  commit st toISOString author_identity files message now r =
  match stage st files r with
  | (Rejected e, r') => (Rejected e, r')
  | (Resolved _, _) =>
      let r' := staged_repo files r in
      if bool_decide (Git.head_tree r' = Git.workdir r') then (Resolved None, r')
      else
        let msg := default ("Auto-checkpoint (" +:+ toISOString now +:+ ")")
                     (match message with
                      | Some m => if String.eqb m "" then None else Some m
                      | None => None
                      end) in
        let c := Git.MkCommit (Git.index r') (Git.resolveRef r' Git.RefHEAD) msg
                   (Git.MkAuthor author_identity.1 author_identity.2 (now / 1000)) in
        (Resolved (Some c),
         (Git.commit msg
            (Git.MkAuthor author_identity.1 author_identity.2 (now / 1000)) r').2)
  end.
Proof.
  unfold commit.
  assert ((match files with [] => (Resolved tt, r) | _ => stage st files r end)
          = stage st files r) as -> by by destruct files.
  destruct (stage st files r) as [[u|e] r'] eqn:Hstage; [|done].
  apply stage_resolved in Hstage as ->. simpl.
  destruct (some_row_differs _) eqn:Hrows; simpl.
  - rewrite bool_decide_eq_false_2; [done|].
    intros Heq. eapply some_row_differs_false in Heq; [|reflexivity].
    unfold Git.statusMatrix in Heq. simpl in Heq. congruence.
  - rewrite bool_decide_eq_true_2; [done|].
    eapply some_row_differs_false; [reflexivity|]. exact Hrows.
Qed.

Lemma head_tree_after_commit b msg a r :
  Git.HEAD r = Git.Symbolic b ->
  let r' := (Git.commit msg a r).2 in
  Git.head_tree r' = Git.index r /\ Git.workdir r' = Git.workdir r /\
  Git.index r' = Git.index r /\ Git.HEAD r' = Git.Symbolic b /\
  Git.resolveRef r' Git.RefHEAD
  = Some (Git.MkCommit (Git.index r) (Git.resolveRef r Git.RefHEAD) msg a).
Proof.
  intros Hb. unfold Git.commit, Git.head_tree, Git.resolveRef. simpl.
  rewrite Hb. simpl. rewrite lookup_insert_eq. done.
Qed.

Lemma trees_differ_at_a_path r :
  Git.head_tree r <> Git.workdir r <->
  exists path, Git.head_tree r !! path <> Git.workdir r !! path.
Proof.
  split.
  - intros Hne.
    destruct (some_row_differs
                (map (Git.status_row r)
                   (elements (dom (Git.head_tree r) ∪ dom (Git.workdir r)
                              ∪ dom (Git.index r))))) eqn:Hrows.
    + apply existsb_exists in Hrows as (row & Hin & Hrow).
      apply in_map_iff in Hin as (p & <- & _).
      exists p. by apply status_row_differs.
    + exfalso. apply Hne. eapply some_row_differs_false; [reflexivity|exact Hrows].
  - intros [p Hp] Heq. by rewrite Heq in Hp.
Qed.

Lemma walk_unlimited k c : Git.walk 0 k c = Git.walk 0 0 c.
Proof.
  revert k.
  assert (forall n c k, (Git.chain_length c <= n)%nat -> Git.walk 0 k c = Git.walk 0 0 c)
    as H; [|intros k; by apply (H (Git.chain_length c))].
  clear c. intros n. induction n as [|n IH]; intros c k Hn.
  - destruct c as [t [p|] m a]; simpl in Hn; lia.
  - destruct c as [t [p|] m a]; simpl in *; [|done].
    f_equal. rewrite (IH p (S k)), (IH p 1%nat); [done|lia|lia].
Qed.

(** Once HEAD and the working tree agree, every row of the status
    matrix reads [1, 1, 1]. *)
Lemma clean_status_rows r rows row :
  in_sync r -> Git.head_tree r = Git.workdir r ->
  Git.statusMatrix r = Some rows -> row ∈ rows ->
  Git.row1 row = 1 /\ Git.row2 row = 1 /\ Git.row3 row = 1.
Proof.
  unfold in_sync. intros Hsync Hclean [= <-] Hin.
  apply list_elem_of_fmap in Hin as (p & -> & Hp).
  apply elem_of_elements in Hp.
  unfold Git.status_row, Git.row1, Git.row2, Git.row3. simpl.
  rewrite <- Hsync, Hclean in *.
  assert (is_Some (Git.workdir r !! p)) as [w Hw].
  { apply elem_of_dom. set_solver. }
  rewrite Hw. simpl. by rewrite !bool_decide_eq_true_2.
Qed.

(** C2, amended — on a repository whose HEAD is on a branch and whose
    working tree and index agree, two calls of [commit] in a row with the
    same files.  The first call returns when its staging goes through
    (and only then).  The second call then creates no commit and moves
    neither HEAD nor a branch; it returns null exactly when its staging
    goes through, and then it leaves the repository as the first left
    it, every row of the status matrix reading [1, 1, 1]; otherwise it
    rejects with the staging error.  The first call creates a commit
    exactly when, after staging, some path differs between the HEAD tree
    and the index (equally, the working tree); the new commit holds the
    staged index, has the previous HEAD as its parent, differs from it,
    becomes HEAD, and adds one entry to the history of [main]; working
    tree and index still agree afterwards. *)
Theorem commit_twice_commits_once :
  forall files message1 message2 now1 now2 r b u,
    in_sync r -> Git.HEAD r = Git.Symbolic b ->
    let commit := commit st toISOString author_identity in
    let r0 := staged_repo files r in
    let first := commit files message1 now1 r in
    let second := commit files message2 now2 first.2 in
    (stage st files r).1 = Resolved u ->
    (forall e, first.1 = Rejected e <-> (stage st files r).1 = Rejected e) /\
    exists x,
    first.1 = Resolved x /\
    (forall c, second.1 <> Resolved (Some c)) /\
    getHead second.2 = getHead first.2 /\
    Git.HEAD second.2 = Git.HEAD first.2 /\
    Git.branches second.2 = Git.branches first.2 /\
    (second.1 = Resolved None <-> exists u, (stage st files first.2).1 = Resolved u) /\
    (forall e, second.1 = Rejected e <-> (stage st files first.2).1 = Rejected e) /\
    (second.1 = Resolved None -> second.2 = first.2) /\
    in_sync first.2 /\
    (forall rows row,
        Git.statusMatrix first.2 = Some rows -> row ∈ rows ->
        Git.row1 row = 1 /\ Git.row2 row = 1 /\ Git.row3 row = 1) /\
    (is_Some x <->
     exists path, Git.head_tree r0 !! path <> Git.index r0 !! path) /\
    (x = None -> first.2 = r0 /\ getHead first.2 = getHead r) /\
    (forall c, x = Some c ->
               getHead first.2 = Some c /\ getHead r <> Some c /\
               Git.parent c = getHead r /\ Git.tree c = Git.index r0 /\
               Git.author_timestamp (Git.author c) = now1 / 1000 /\
               (b = "main" -> log 0 first.2 = commit_info c :: log 0 r)).
Proof.
  intros files message1 message2 now1 now2 r b u Hsync Hb commit r0 first second Hstage.
  split.
  { intros e. unfold first, commit. rewrite commit_unfold.
    destruct (stage st files r) as [[u'|e'] r']; [|simpl in Hstage; discriminate].
    cbv zeta. case_bool_decide; simpl; split; intros Hrej; discriminate. }
  assert (exists x, first.1 = Resolved x) as [x Hfirst].
  { unfold first, commit. rewrite commit_unfold.
    destruct (stage st files r) as [[u'|e'] r']; [|simpl in Hstage; discriminate].
    cbv zeta. case_bool_decide; simpl; eauto. }
  exists x. split; [exact Hfirst|].
  assert (in_sync r0) as Hsync0 by by apply staged_repo_in_sync.
  assert (Git.HEAD r0 = Git.Symbolic b) as Hb0 by done.
  assert (getHead r0 = getHead r) as Hhead0 by done.
  set (msg1 := default ("Auto-checkpoint (" +:+ toISOString now1 +:+ ")")
                 (match message1 with
                  | Some m => if String.eqb m "" then None else Some m
                  | None => None
                  end)).
  set (a1 := Git.MkAuthor author_identity.1 author_identity.2 (now1 / 1000)).
  (* the first call, which returned *)
  assert (first =
          if bool_decide (Git.head_tree r0 = Git.workdir r0) then (Resolved None, r0)
          else (Resolved (Some (Git.MkCommit (Git.index r0) (Git.resolveRef r0 Git.RefHEAD)
                                  msg1 a1)),
                (Git.commit msg1 a1 r0).2)) as Hfirst_eq.
  { unfold first, commit in *. rewrite commit_unfold in *.
    destruct (stage st files r) as [[u'|e] r1]; [|done]. done. }
  clear Hstage u. clearbody first. subst first.
  destruct (head_tree_after_commit b msg1 a1 r0 Hb0) as (Ht & Hw & Hi & Hh & Hres).
  set (r1 := (if bool_decide (Git.head_tree r0 = Git.workdir r0)
              then (Resolved None, r0)
              else (Resolved (Some (Git.MkCommit (Git.index r0)
                                      (Git.resolveRef r0 Git.RefHEAD) msg1 a1)),
                    (Git.commit msg1 a1 r0).2)).2) in *.
  assert (in_sync r1 /\ Git.head_tree r1 = Git.workdir r1 /\
          staged_repo files r1 = r1 /\ Git.HEAD r1 = Git.Symbolic b)
    as (Hsync1 & Hclean1 & Hstaged1 & Hb1).
  { unfold r1. case_bool_decide as Hclean; cbn [snd].
    - split; [done|]. split; [done|]. split; [apply staged_repo_idempotent|done].
    - split; [unfold in_sync; by rewrite Hw, Hi|].
      split; [by rewrite Ht, Hw|]. split; [|done].
      unfold staged_repo. rewrite Hw, Hi, Hh.
      unfold Git.commit. rewrite Hb0. simpl.
      unfold r0, staged_repo. simpl. by rewrite !staged_idempotent. }
  (* the second call *)
  assert (second =
          match stage st files r1 with
          | (Rejected e, r') => (Rejected e, r')
          | (Resolved _, _) => (Resolved None, r1)
          end) as Hsecond.
  { unfold second, commit. rewrite commit_unfold. fold r1.
    destruct (stage st files r1) as [[u|e] r']; [|done].
    cbv zeta. rewrite Hstaged1. by rewrite bool_decide_eq_true_2. }
  clearbody second. subst second.
  destruct (stage_refs files r1) as [Hhead2 Hbranches2].
  assert (forall r', getHead r' = Git.resolveRef r' Git.RefHEAD) as HgetHead by done.
  split; [|split; [|split; [|split; [|split; [|split; [|split; [|split; [|split]]]]]]]].
  - intros c. by destruct (stage st files r1) as [[u|e] r'].
  - destruct (stage st files r1) as [[u|e] r']; [done|]. simpl in *.
    unfold getHead, Git.resolveRef. by rewrite Hhead2, Hbranches2.
  - by destruct (stage st files r1) as [[u|e] r'].
  - by destruct (stage st files r1) as [[u|e] r'].
  - destruct (stage st files r1) as [[u|e] r']; simpl; split; try done; eauto.
    intros [u [=]].
  - intros e. destruct (stage st files r1) as [[u|e'] r']; simpl;
      split; intros H; by inversion H.
  - by destruct (stage st files r1) as [[u|e] r'].
  - done.
  - intros rows row. by apply clean_status_rows.
  - assert (x = if bool_decide (Git.head_tree r0 = Git.workdir r0) then None
                else Some (Git.MkCommit (Git.index r0) (Git.resolveRef r0 Git.RefHEAD)
                             msg1 a1)) as ->.
    { case_bool_decide; simpl in Hfirst; by injection Hfirst as <-. }
    unfold r1. rewrite <- Hsync0. rewrite <- Hsync0 in Hres.
    case_bool_decide as Hclean; cbn [fst snd].
    + split.
      * split; [intros [? ?]; done|].
        intros Hpath. apply trees_differ_at_a_path in Hpath. done.
      * split; [done|]. intros c [=].
    + split.
      * split; [intros _; by apply trees_differ_at_a_path|eauto].
      * split; [done|]. intros c [= <-].
        unfold getHead. rewrite Hres. simpl.
        split; [done|]. split.
        { intros Heq.
          match type of Heq with _ = Some ?c => exact (commit_not_its_parent c Heq) end. }
        split; [done|]. split; [done|]. split; [done|].
        intros ->. unfold log, Git.log, Git.resolveRef, Git.commit. simpl.
        rewrite Hb. simpl. rewrite lookup_insert_eq. simpl.
        unfold in_sync in Hsync. rewrite Hsync.
        destruct (Git.branches r !! "main") as [c0|] eqn:Hmain; simpl; [|done].
        by rewrite walk_unlimited.
Qed.

End GitVersionControlFacts.

Section GitLogFacts.
Import GitVersionControl.

Lemma walk_eq depth k t p m au :
  Git.walk depth k (Git.MkCommit t p m au) =
  Git.MkCommit t p m au ::
    (if Nat.eqb (S k) depth then []
     else match p with
          | Some c' => Git.walk depth (S k) c'
          | None => []
          end).
Proof. reflexivity. Qed.

Lemma walk_head depth k c : Git.walk depth k c !! 0%nat = Some c.
Proof. by destruct c. Qed.

Lemma walk_parent_first depth :
  forall n c k i a b,
    (Git.chain_length c <= n)%nat ->
    Git.walk depth k c !! i = Some a ->
    Git.walk depth k c !! S i = Some b ->
    Git.parent a = Some b.
Proof.
  induction n as [|n IH]; intros c k i a b Hn.
  - destruct c as [t [p|] m au]; simpl in Hn; lia.
  - destruct c as [t p m au]. rewrite walk_eq.
    destruct (Nat.eqb (S k) depth); [destruct i; simpl; intros; done|].
    destruct p as [p|]; [|destruct i; simpl; intros; done].
    destruct i as [|i]; simpl.
    + intros [= <-]. rewrite walk_head. by intros [= <-].
    + apply IH. simpl in Hn. lia.
Qed.

Lemma walk_length depth :
  forall n c k,
    (Git.chain_length c <= n)%nat -> (k < depth)%nat ->
    (length (Git.walk depth k c) <= depth - k)%nat.
Proof.
  induction n as [|n IH]; intros c k Hn Hk.
  - destruct c as [t [p|] m au]; simpl in Hn; lia.
  - destruct c as [t p m au]. rewrite walk_eq.
    destruct (Nat.eqb_spec (S k) depth); [simpl; lia|].
    destruct p as [p|]; [|simpl; lia].
    simpl in Hn. specialize (IH p (S k) ltac:(lia) ltac:(lia)). simpl. lia.
Qed.

Lemma walk_unlimited_length :
  forall n c k, (Git.chain_length c <= n)%nat ->
                length (Git.walk 0 k c) = Git.chain_length c.
Proof.
  induction n as [|n IH]; intros c k Hn.
  - destruct c as [t [p|] m au]; simpl in Hn; lia.
  - destruct c as [t p m au]. rewrite walk_eq. simpl.
    destruct p as [p|]; [|done]. simpl in Hn. simpl. f_equal. apply IH. lia.
Qed.

Lemma reset_keeps_branches ref hard r res r' :
  reset ref hard r = (res, r') -> Git.branches r' = Git.branches r.
Proof.
  unfold reset. destruct (Git.resolveRef r ref) as [oid|] eqn:Href; [|by intros [= _ <-]].
  destruct hard.
  - unfold Git.checkout.
    destruct (Git.resolveRef (Git.writeRef_HEAD oid r) ref) as [c|]; [|by intros [= _ <-]].
    destruct (Git.listFiles _ ref); by intros [= _ <-].
  - destruct (Git.listFiles _ ref); by intros [= _ <-].
Qed.

(** C5, as stated, fails after a reset to an earlier commit: HEAD is
    then that commit, and [log] still lists the history of [main]. *)
Lemma log_after_reset_lists_main :
  let commit :=
    commit accepting (fun _ => "2026-01-01T00:00:00.000Z") default_author in
  let r1 := (commit [Snapshot "src/App.tsx" "v1"] (Some "feat: one") 1000 Git.init).2 in
  let r2 := (commit [Snapshot "src/App.tsx" "v2"] (Some "feat: two") 2000 r1).2 in
  exists c1 c2 r3,
    getHead r1 = Some c1 /\ getHead r2 = Some c2 /\ Git.parent c2 = Some c1 /\
    reset (Git.RefOid c1) true r2 = (Some (Git.RefOid c1, 1%nat), r3) /\
    getHead r3 = Some c1 /\
    history_from_head 50 r3 = [commit_info c1] /\
    log 50 r3 = [commit_info c2; commit_info c1].
Proof. vm_compute. eexists _, _, _. repeat split. Qed.

(** C5, amended — [log(limit)] walks the commits of the branch [main]
    from its tip, parent first, and returns for each its oid, message,
    [name <email>] and timestamp in milliseconds; it returns the empty
    list when [main] has no commit.  The walk stops after [limit] commits
    when [limit] is at least 1, and lists the whole history when it is 0.
    While HEAD is on [main] this is the history reachable from HEAD.
    [reset] moves HEAD to the commit of the reference and leaves [main]
    where it was, so [log] returns after it what it returned before. *)
Theorem log_walks_main :
  forall limit r,
    log limit r =
      match Git.branches r !! "main" with
      | Some tip => map commit_info (Git.walk limit 0 tip)
      | None => []
      end /\
    (forall tip, Git.branches r !! "main" = Some tip ->
                 log limit r !! 0%nat = Some (commit_info tip)) /\
    (forall i a b, log limit r !! i = Some a -> log limit r !! S i = Some b ->
                   Git.parent (oid a) = Some (oid b)) /\
    (forall a, a ∈ log limit r ->
               message a = Git.message (oid a) /\
               author a = Git.author_name (Git.author (oid a)) +:+ " <"
                          +:+ Git.author_email (Git.author (oid a)) +:+ ">" /\
               timestamp a = Git.author_timestamp (Git.author (oid a)) * 1000) /\
    ((0 < limit)%nat -> (length (log limit r) <= limit)%nat) /\
    (forall tip, Git.branches r !! "main" = Some tip ->
                 length (log 0 r) = Git.chain_length tip) /\
    (Git.HEAD r = Git.Symbolic "main" -> log limit r = history_from_head limit r) /\
    (forall ref hard res r', reset ref hard r = (res, r') -> log limit r' = log limit r) /\
    (forall ref hard n r', reset ref hard r = (Some (ref, n), r') ->
                           getHead r' = Git.resolveRef r ref).
Proof.
  intros limit r.
  assert (log limit r =
          match Git.branches r !! "main" with
          | Some tip => map commit_info (Git.walk limit 0 tip)
          | None => []
          end) as Hlog.
  { unfold log, Git.log, Git.resolveRef. by destruct (Git.branches r !! "main"). }
  split; [done|]. split; [|split; [|split; [|split; [|split; [|split; [|split]]]]]].
  - intros tip Htip. rewrite Hlog, Htip, list_lookup_fmap, walk_head. done.
  - intros i a b. rewrite Hlog. destruct (Git.branches r !! "main") as [tip|]; [|done].
    rewrite !list_lookup_fmap.
    destruct (Git.walk limit 0 tip !! i) as [ca|] eqn:Ha; [|done].
    destruct (Git.walk limit 0 tip !! S i) as [cb|] eqn:Hb; [|done].
    simpl. intros [= <-] [= <-]. simpl.
    by eapply (walk_parent_first limit (Git.chain_length tip)).
  - intros a. rewrite Hlog. destruct (Git.branches r !! "main") as [tip|].
    + intros (c & -> & _)%list_elem_of_fmap. done.
    + intros H. by apply elem_of_nil in H.
  - intros Hlimit. rewrite Hlog. destruct (Git.branches r !! "main") as [tip|]; simpl; [|lia].
    rewrite length_map.
    pose proof (walk_length limit (Git.chain_length tip) tip 0 ltac:(lia) Hlimit). lia.
  - intros tip Htip. unfold log, Git.log, Git.resolveRef. rewrite Htip.
    rewrite length_map. by apply (walk_unlimited_length (Git.chain_length tip)).
  - intros Hhead. unfold log, history_from_head, Git.log, Git.resolveRef. by rewrite Hhead.
  - intros ref hard res r' Hreset. unfold log, Git.log, Git.resolveRef.
    by rewrite (reset_keeps_branches _ _ _ _ _ Hreset).
  - intros ref hard n r'. unfold reset, getHead.
    destruct (Git.resolveRef r ref) as [c|] eqn:Href; [|done].
    destruct hard.
    + unfold Git.checkout.
      destruct (Git.resolveRef (Git.writeRef_HEAD c r) ref) as [c'|] eqn:Href'; [|done].
      destruct (Git.listFiles _ ref); [|done]. intros [= _ <-].
      destruct ref as [|b|c0]; simpl in *; congruence.
    + destruct (Git.listFiles _ ref); [|done]. by intros [= _ <-].
Qed.

End GitLogFacts.

(** The idempotence statement on a fresh repository: the first commit
    of a file is created, the second call with the same file is a
    no-op. *)
Lemma commit_twice_commits_once_witness :
  let commit := GitVersionControl.commit GitVersionControl.accepting (fun _ => "")
                  GitVersionControl.default_author in
  let files := [GitVersionControl.Snapshot "/src/App.tsx" "v1"] in
  let first := commit files (Some "feat: one") 1000 Git.init in
  let second := commit files (Some "feat: one") 2000 first.2 in
  (exists c, first.1 = JS.Resolved (Some c)) /\
  second.1 = JS.Resolved None /\ second.2 = first.2.
Proof.
  intros commit files first second.
  pose proof (commit_twice_commits_once GitVersionControl.accepting (fun _ => "")
                GitVersionControl.default_author
                files (Some "feat: one") (Some "feat: one") 1000 2000 Git.init "main" tt
                eq_refl eq_refl eq_refl)
    as (_ & x & Hx & _ & _ & _ & _ & Hnull & _ & Hsame & _ & _ & Hcreated & _).
  assert (second.1 = JS.Resolved None) as Hnone.
  { apply Hnull. eexists. reflexivity. }
  split; [|split; [exact Hnone|exact (Hsame Hnone)]].
  destruct (proj2 Hcreated) as [c Hc].
  { exists "src/App.tsx". vm_compute. discriminate. }
  exists c. rewrite Hc in Hx. exact Hx.
Defined.

(** C2, as stated, fails once HEAD is detached.  After two commits and
    a hard [reset] to the oid of the first, HEAD is that oid; a [commit]
    of a changed file then creates a commit on top of it and moves
    neither HEAD nor [main], so that a second [commit] of the same files
    finds the same difference and creates a commit again instead of
    returning null. *)
Lemma commit_twice_on_detached_head :
  let commit :=
    GitVersionControl.commit GitVersionControl.accepting
      (fun _ => "2026-01-01T00:00:00.000Z") GitVersionControl.default_author in
  let r1 := (commit [GitVersionControl.Snapshot "src/App.tsx" "v1"]
               (Some "feat: one") 1000 Git.init).2 in
  let r2 := (commit [GitVersionControl.Snapshot "src/App.tsx" "v2"]
               (Some "feat: two") 2000 r1).2 in
  let files := [GitVersionControl.Snapshot "src/App.tsx" "v3"] in
  match GitVersionControl.getHead r1, GitVersionControl.getHead r2 with
  | Some c1, Some c2 =>
      let r3 := (GitVersionControl.reset (Git.RefOid c1) true r2).2 in
      let first := commit files (Some "feat: three") 3000 r3 in
      let second := commit files (Some "feat: three") 4000 first.2 in
      (GitVersionControl.reset (Git.RefOid c1) true r2).1 = Some (Git.RefOid c1, 1%nat) /\
      GitVersionControl.in_sync r3 /\
      Git.HEAD r3 = Git.Detached c1 /\
      (exists c3 c4,
          first.1 = JS.Resolved (Some c3) /\
          second.1 = JS.Resolved (Some c4) /\
          Git.parent c3 = Some c1 /\ Git.parent c4 = Some c1 /\
          Git.tree c3 = Git.tree c4 /\
          Git.author_timestamp (Git.author c3) = 3 /\
          Git.author_timestamp (Git.author c4) = 4) /\
      GitVersionControl.getHead first.2 = Some c1 /\
      GitVersionControl.getHead second.2 = Some c1 /\
      Git.branches second.2 !! "main" = Some c2
  | _, _ => False
  end.
Proof. vm_compute. repeat split. eexists _, _. repeat split. Qed.

Section GitHubExportDedup.
Import GitHubExport.

Variable hashContent : string -> string.
Variable blobSha : string -> string.
Variable treeSha : list (string * option string) -> string.
Variable commitSha : string -> string -> list string -> string.

(** SHA-256 is taken to be free of collisions on the contents pushed. *)
Hypothesis hashContent_inj : forall a b, hashContent a = hashContent b -> a = b.

Lemma blobs_created_app calls1 calls2 :
  blobs_created (calls1 ++ calls2) = blobs_created calls1 ++ blobs_created calls2.
Proof. unfold blobs_created. apply omap_app. Qed.

(** The arrival of one response keeps the link; the request leaves
    the waiting list. *)
Lemma consistent_settle seen current cache created kept p rest sha :
  consistent hashContent seen current cache created (kept ++ p :: rest) ->
  consistent hashContent seen current (<[p_hash p := sha]> cache) created (kept ++ rest).
Proof.
  intros (Hnd & Hdom & Hcovered & Hwaiting & Hseen).
  destruct (Hwaiting p) as (Hhash & Hcreated & _); [set_solver|].
  split; [done|]. split; [|split; [|split]]; [| | |done].
  - intros h. rewrite dom_insert. intros [->%elem_of_singleton|Hin]%elem_of_union.
    + exists (p_content p). by rewrite Hhash.
    + by apply Hdom.
  - intros c Hc. rewrite dom_insert.
    destruct (Hcovered c Hc) as [Hin|(q & Hq & <-)]; [left; set_solver|].
    apply elem_of_app in Hq as [Hq|[->|Hq]%elem_of_cons].
    + right. exists q. split; [set_solver|done].
    + left. rewrite <- Hhash. set_solver.
    + right. exists q. split; [set_solver|done].
  - intros q Hq. apply Hwaiting. set_solver.
Qed.

Lemma deliver_consistent seen current created :
  forall waiting arrived kept st st' waiting',
    consistent hashContent seen current (blobCache st) created (kept ++ waiting) ->
    deliver blobSha arrived waiting st = (st', waiting') ->
    calls st' = calls st /\
    consistent hashContent seen current (blobCache st') created (kept ++ waiting').
Proof.
  induction waiting as [|p rest IH]; intros arrived kept st st' waiting' Hc; simpl.
  - intros [= <- <-]. done.
  - destruct arrived as [|[|] flags].
    + intros [= <- <-]. done.
    + intros Hrec. apply (IH flags kept (settle blobSha st p)) in Hrec; [done|].
      simpl. by apply consistent_settle.
    + destruct (deliver blobSha flags rest st) as [st1 others] eqn:Hrec.
      intros [= <- <-].
      apply (IH flags (kept ++ [p])) in Hrec; [|by rewrite <- app_assoc].
      by rewrite <- app_assoc in Hrec.
Qed.

Lemma consistent_current seen current current' cache created :
  consistent hashContent seen current cache created [] ->
  consistent hashContent seen current' cache created [].
Proof.
  intros (Hnd & Hdom & Hcovered & _ & Hseen).
  split; [done|]. split; [done|]. split; [done|]. split; [|done].
  intros p Hp. by apply elem_of_nil in Hp.
Qed.

(** One file: a hit leaves the requests as they are; a miss can only
    happen for a content that was never requested. *)
Lemma process_file_consistent seen current arrived st file :
  consistent hashContent seen current (blobCache st) (blobs_created (calls st))
    (pending st) ->
  content file ∉ current ->
  let st' := process_file hashContent blobSha arrived st file in
  consistent hashContent (seen ++ [content file]) (current ++ [content file])
    (blobCache st') (blobs_created (calls st')) (pending st').
Proof.
  intros Hc Hfresh. unfold process_file.
  destruct (deliver blobSha arrived (pending st) st) as [st1 waiting] eqn:Hdel.
  destruct (deliver_consistent seen current _ _ arrived [] st st1 waiting Hc Hdel)
    as [Hcalls (Hnd & Hdom & Hcovered & Hwaiting & Hseen)].
  simpl in Hcovered, Hwaiting. rewrite <- Hcalls in *.
  destruct (blobCache st1 !! hashContent (content file)) as [sha|] eqn:Hlook; simpl.
  - assert (content file ∈ blobs_created (calls st1)) as Hin.
    { destruct (Hdom (hashContent (content file))) as (c & Hc' & Heq).
      - apply elem_of_dom. eauto.
      - by apply hashContent_inj in Heq as ->. }
    split; [done|]. split; [done|]. split; [done|]. split.
    + intros p Hp. destruct (Hwaiting p Hp) as (? & ? & ?). set_solver.
    + intros c. rewrite Hseen. set_solver.
  - assert (content file ∉ blobs_created (calls st1)) as Hnew.
    { intros Hin. destruct (Hcovered _ Hin) as [Hd|(p & Hp & Heq)].
      - apply elem_of_dom in Hd as [? ?]. congruence.
      - destruct (Hwaiting p Hp) as (_ & _ & Hcur). rewrite Heq in Hcur. done. }
    rewrite blobs_created_app. simpl.
    split; [|split; [|split; [|split]]].
    + apply NoDup_app. split; [done|]. split; [|apply NoDup_singleton].
      intros c Hc' ->%list_elem_of_singleton. done.
    + intros h Hh. destruct (Hdom h Hh) as (c & ? & ?). exists c. set_solver.
    + intros c [Hc'| ->%list_elem_of_singleton]%elem_of_app.
      * destruct (Hcovered c Hc') as [?|(p & ? & ?)]; [by left|].
        right. exists p. set_solver.
      * right. eexists. split; [apply elem_of_app; right; by left|done].
    + intros p [Hp| ->%list_elem_of_singleton]%elem_of_app.
      * destruct (Hwaiting p Hp) as (? & ? & ?). set_solver.
      * simpl. set_solver.
    + intros c. rewrite !elem_of_app, Hseen. done.
Qed.

Lemma process_files_consistent :
  forall fs seen current schedule st st' schedule',
    consistent hashContent seen current (blobCache st) (blobs_created (calls st))
      (pending st) ->
    NoDup (current ++ map content fs) ->
    process_files hashContent blobSha schedule st fs = (st', schedule') ->
    consistent hashContent (seen ++ map content fs) (current ++ map content fs)
      (blobCache st') (blobs_created (calls st')) (pending st').
Proof.
  induction fs as [|f fs IH]; intros seen current schedule st st' schedule' Hc Hnd; simpl.
  - intros [= <- <-]. by rewrite !app_nil_r.
  - intros Hrun.
    apply (IH (seen ++ [content f]) (current ++ [content f])) in Hrun.
    + by rewrite <- !app_assoc in Hrun.
    + apply process_file_consistent; [done|].
      apply NoDup_app in Hnd as (_ & Hdisj & _). intros Hin.
      apply (Hdisj _ Hin). by left.
    + by rewrite <- app_assoc.
Qed.

Lemma settle_all_consistent seen current created :
  forall waiting st,
    consistent hashContent seen current (blobCache st) created waiting ->
    calls (foldl (settle blobSha) st waiting) = calls st /\
    consistent hashContent seen current
      (blobCache (foldl (settle blobSha) st waiting)) created [].
Proof.
  induction waiting as [|p rest IH]; intros st Hc; simpl; [done|].
  destruct (IH (settle blobSha st p)) as [Hcalls Hc'].
  - simpl. by apply (consistent_settle seen current _ created [] p rest).
  - by rewrite Hcalls.
Qed.

Lemma push_commit_settled seen st schedule parentSha commit st' schedule' parentSha' :
  settled hashContent seen st ->
  NoDup (map content (files commit)) ->
  push_commit hashContent blobSha treeSha commitSha (st, schedule, parentSha) commit
  = (st', schedule', parentSha') ->
  settled hashContent (seen ++ map content (files commit)) st'.
Proof.
  intros Hst Hnd. unfold push_commit.
  destruct (files commit) as [|f fs] eqn:Hfiles.
  - intros [= <- <- <-]. simpl. by rewrite app_nil_r.
  - rewrite <- Hfiles in *. clear Hfiles f fs.
    set (st0 := MkState (blobCache st) (calls st) (totalBlobsCreated st)
                  (totalBlobsReused st) ∅ []).
    destruct (process_files hashContent blobSha schedule st0 (files commit))
      as [st1 schedule1] eqn:Hrun.
    intros [= <- <- <-]. unfold settled. simpl.
    apply (process_files_consistent _ seen []) in Hrun; [|exact Hst|done].
    destruct (settle_all_consistent _ _ _ _ _ Hrun) as [Hcalls Hc].
    rewrite blobs_created_app, Hcalls. simpl. rewrite app_nil_r.
    by eapply consistent_current.
Qed.

Lemma push_commits_settled :
  forall commits seen st schedule parentSha st' schedule' parentSha',
    settled hashContent seen st ->
    distinct_within_commits commits ->
    foldl (push_commit hashContent blobSha treeSha commitSha)
      (st, schedule, parentSha) commits = (st', schedule', parentSha') ->
    settled hashContent (seen ++ all_contents commits) st'.
Proof.
  induction commits as [|c commits IH];
    intros seen st schedule parentSha st' schedule' parentSha' Hst Hdist; cbn [foldl].
  - intros [= <- <- <-]. unfold all_contents. simpl. by rewrite app_nil_r.
  - apply Forall_cons in Hdist as [Hc Hdist].
    destruct (push_commit hashContent blobSha treeSha commitSha
                (st, schedule, parentSha) c) as [[st1 schedule1] parent1] eqn:Hpush.
    intros Hrun. eapply IH in Hrun; [|by eapply push_commit_settled|done].
    unfold all_contents in *. simpl. by rewrite app_assoc.
Qed.

Lemma all_contents_app commits1 commits2 :
  all_contents (commits1 ++ commits2) = all_contents commits1 ++ all_contents commits2.
Proof. unfold all_contents. by rewrite map_app, concat_app. Qed.

Lemma all_contents_reverse commits c :
  c ∈ all_contents (reverse commits) <-> c ∈ all_contents commits.
Proof.
  induction commits as [|x commits IH]; [done|].
  rewrite reverse_cons, all_contents_app, elem_of_app, IH.
  change (all_contents (x :: commits))
    with (map content (files x) ++ all_contents commits).
  rewrite elem_of_app. unfold all_contents at 2. simpl. rewrite app_nil_r. tauto.
Qed.

(** X1 — when no commit holds two files with the same content, and
    for every order in which the responses arrive: every content of the
    exported commits is sent to [createBlob] once and only once, and the
    cache ends with one entry per distinct content. *)
Theorem export_creates_each_content_once :
  forall schedule commits st sha,
    distinct_within_commits commits ->
    forcePushToGitHub hashContent blobSha treeSha commitSha schedule commits
    = Some (st, sha) ->
    NoDup (blobs_created (calls st)) /\
    (forall c, c ∈ blobs_created (calls st) <-> c ∈ all_contents commits) /\
    dom (blobCache st) = list_to_set (map hashContent (blobs_created (calls st))) /\
    size (blobCache st) = length (blobs_created (calls st)).
Proof.
  intros schedule commits st sha Hdist. unfold forcePushToGitHub.
  destruct (foldl (push_commit hashContent blobSha treeSha commitSha)
              (initial, schedule, None) (reverse commits))
    as [[st1 schedule1] [parent|]] eqn:Hrun; [|done].
  intros [= <- <-]. simpl.
  apply (push_commits_settled _ []) in Hrun.
  - destruct Hrun as (Hnd & Hdom & Hcovered & _ & Hseen). simpl in *.
    rewrite blobs_created_app. simpl. rewrite app_nil_r.
    assert (dom (blobCache st1)
            = list_to_set (map hashContent (blobs_created (calls st1)))) as Hcache.
    { apply set_eq. intros h. rewrite elem_of_list_to_set, list_elem_of_fmap. split.
      - intros Hh. destruct (Hdom h Hh) as (c & ? & <-). eauto.
      - intros (c & -> & Hc). destruct (Hcovered c Hc) as [?|(p & Hp & _)]; [done|].
        by apply elem_of_nil in Hp. }
    split; [done|]. split; [|split; [done|]].
    + intros c. rewrite Hseen. apply all_contents_reverse.
    + rewrite <- size_dom, Hcache, size_list_to_set, length_map; [done|].
      apply NoDup_fmap_2_strong; [|done]. intros a b _ _. apply hashContent_inj.
  - unfold settled, consistent, initial. simpl.
    split; [constructor|]. split; [set_solver|]. split.
    + intros c Hc. by apply elem_of_nil in Hc.
    + split; [intros p Hp; by apply elem_of_nil in Hp|done].
  - unfold distinct_within_commits. by apply Forall_reverse.
Qed.

End GitHubExportDedup.

(** Three local commits that touch the same unchanged file create one
    remote blob. *)
Lemma export_creates_each_content_once_witness :
  let commits :=
    [GitHubExport.MkCommit "c3" "three" [GitHubExport.MkFile "README.md" "same"];
     GitHubExport.MkCommit "c2" "two" [GitHubExport.MkFile "README.md" "same"];
     GitHubExport.MkCommit "c1" "one" [GitHubExport.MkFile "README.md" "same"]] in
  exists st sha,
    GitHubExport.forcePushToGitHub (fun c => c) (fun c => "blob " +:+ c)
      (fun _ => "tree") (fun m _ _ => "commit " +:+ m) [] commits = Some (st, sha) /\
    GitHubExport.blobs_created (GitHubExport.calls st) = ["same"] /\
    size (GitHubExport.blobCache st) = 1%nat.
Proof.
  eexists _, _. split; [vm_compute; reflexivity|].
  match goal with
  | |- context [GitHubExport.calls ?st] =>
      pose proof (export_creates_each_content_once (fun c => c) (fun c => "blob " +:+ c)
                    (fun _ => "tree") (fun m _ _ => "commit " +:+ m)
                    (fun a b H => H) []
                    [GitHubExport.MkCommit "c3" "three" [GitHubExport.MkFile "README.md" "same"];
                     GitHubExport.MkCommit "c2" "two" [GitHubExport.MkFile "README.md" "same"];
                     GitHubExport.MkCommit "c1" "one" [GitHubExport.MkFile "README.md" "same"]]
                    st "commit three") as H
  end.
  destruct H as (_ & _ & _ & Hsize).
  - repeat constructor; set_solver.
  - vm_compute. reflexivity.
  - split; [vm_compute; reflexivity|]. rewrite Hsize. vm_compute. reflexivity.
Defined.

Section PhasicRechargeFacts.
Import PhasicAgent.

(** X2 — a user request queued during a build appends the text to
    the pending inputs and recharges the phases counter to the larger of
    its current value and 3. *)
Theorem queueUserRequest_recharges :
  forall request s,
    phasesCounter (queueUserRequest request s) = Z.max (phasesCounter s) 3 /\
    pendingUserInputs (queueUserRequest request s) = pendingUserInputs s ++ [request] /\
    generatedPhases (queueUserRequest request s) = generatedPhases s.
Proof.
  intros request s. unfold queueUserRequest, rechargePhasesCounter.
  destruct (Z.leb_spec (phasesCounter s) 3); simpl; repeat split; lia.
Qed.

End PhasicRechargeFacts.

(** A working directory that climbs out with [..] is refused by
    [startProcess] before anything is spawned. *)
Lemma startProcess_rejects_traversal_witness :
  LocalSandboxFiles.startProcess (fun _ _ => 4242) "/srv/app" "bun run dev"
    (Some "/srv/app/../other")
  = JS.Rejected (JS.new_Error "Directory traversal is not allowed.").
Proof.
  apply (startProcess_rejects_traversal (fun _ _ => 4242) "/srv/app" "bun run dev"
           "/srv/app/../other").
  reflexivity.
Defined.

Section RateLimitRemainingFacts.
Import InMemoryRateLimitStore.

Lemma window_count_after_success (sweep : bool) now key config store :
  0 < bucketSizeMs config -> 0 <= period config ->
  let swept := if sweep then cleanup now store else store in
  window_count
    (bump swept now (bucketKey key (now / bucketSizeMs config * bucketSizeMs config))
       (now + (Z.max (period config) (nullish (burstWindow config) 60)
               + nullish (bucketSize config) 10) * 1000))
    now key config
  = window_count store now key config + 1.
Proof.
  intros Hbs Hp swept. unfold window_count at 1.
  rewrite sum_counts_bump; try done; try lia.
  - fold (window_count swept now key config). unfold swept. by rewrite window_count_sweep.
  - by apply window_keys_NoDup.
  - apply current_bucket_in_window; [done|lia].
  - unfold bucketSizeMs in Hbs. lia.
Qed.

(** X4 — [getRemainingLimit] and [increment] agree on the main window.
    Read at the same instant as an [increment] (positive bucket size,
    period not negative), both calls return, and: if [getRemainingLimit]
    is 0 the increment is refused and it stays 0; if the increment
    succeeds it returns [getRemainingLimit - 1], and that is what
    [getRemainingLimit] returns afterwards; without a burst limit the
    increment succeeds exactly when [getRemainingLimit] is positive. *)
Theorem getRemainingLimit_tracks_increment :
  forall (sweep : bool) now key config (store : gmap string Bucket),
    0 < bucketSizeMs config -> 0 <= period config ->
    exists before result store',
      getRemainingLimit now key config store = Some before /\
      increment sweep now key config store = Some (result, store') /\
      (before = 0 ->
       result = Result false (Some 0) /\
       getRemainingLimit now key config store' = Some 0) /\
      (success result = true ->
       0 < before /\ remainingLimit result = Some (before - 1) /\
       getRemainingLimit now key config store' = Some (before - 1)) /\
      (success result = false ->
       remainingLimit result = Some 0 /\
       getRemainingLimit now key config store' = Some before) /\
      (configured (burst config) = false -> (success result = true <-> 0 < before)).
Proof.
  intros sweep now key config store Hbs Hp.
  pose proof (window_count_sweep sweep store now key config) as Hsw.
  pose proof (window_count_after_success sweep now key config store Hbs Hp) as Hok.
  pose proof (increment_pos sweep now key config store Hbs) as Hinc.
  cbv zeta in Hok, Hinc.
  assert (forall s, getRemainingLimit now key config s
                    = Some (Z.max 0 (limit config - window_count s now key config)))
    as Hremaining.
  { intros s. unfold getRemainingLimit. by rewrite mainCount_pos. }
  set (swept := if sweep then cleanup now store else store) in *.
  set (main := window_count store now key config) in *.
  destruct (Z.geb_spec main (limit config)) as [Hfull|Hfree].
  - eexists _, _, _. split; [apply Hremaining|]. fold main.
    split; [exact Hinc|]. simpl. rewrite !Hremaining, Hsw. fold main.
    split; [intros _; split; [done|f_equal; lia]|].
    split; [done|]. split; [intros _; split; [done|done]|].
    intros _. split; [done|lia].
  - destruct (configured (burst config) &&
              (sum_counts store now
                 (if configured (burst config)
                  then window_keys key now (nullish (burstWindow config) 60 * 1000)
                         (bucketSizeMs config)
                  else []) >=? nullish (burst config) 0)) eqn:Hb.
    + eexists _, _, _. split; [apply Hremaining|]. fold main.
      split; [exact Hinc|]. simpl. rewrite !Hremaining, Hsw. fold main.
      split; [lia|]. split; [done|]. split; [intros _; split; [done|done]|].
      intros Hnb. rewrite Hnb in Hb. done.
    + eexists _, _, _. split; [apply Hremaining|]. fold main.
      split; [exact Hinc|]. simpl. rewrite !Hremaining, Hok. fold main.
      split; [lia|].
      split; [intros _; split; [lia|split; f_equal; lia]|].
      split; [done|]. intros _. split; [lia|done].
Qed.

End RateLimitRemainingFacts.

Lemma getRemainingLimit_tracks_increment_witness :
  let config := InMemoryRateLimitStore.Config 2 60 (Some 10) None None in
  let store : gmap string InMemoryRateLimitStore.Bucket := ∅ in
  exists result store',
    InMemoryRateLimitStore.getRemainingLimit 1700000001000 "u1" config store = Some 2 /\
    InMemoryRateLimitStore.increment true 1700000001000 "u1" config store
    = Some (result, store') /\
    InMemoryRateLimitStore.remainingLimit result = Some 1 /\
    InMemoryRateLimitStore.getRemainingLimit 1700000001000 "u1" config store' = Some 1.
Proof.
  intros config store.
  destruct (getRemainingLimit_tracks_increment true 1700000001000 "u1" config store
              eq_refl ltac:(vm_compute; discriminate))
    as (before & result & store' & Hbefore & Hinc & _ & Hok & _).
  assert (before = 2) as ->.
  { assert (InMemoryRateLimitStore.getRemainingLimit 1700000001000 "u1" config store
            = Some 2) as H2 by (vm_compute; reflexivity).
    rewrite H2 in Hbefore. by injection Hbefore as <-. }
  exists result, store'. split; [exact Hbefore|]. split; [exact Hinc|].
  destruct Hok as (_ & H1 & H2); [|split; [exact H1|exact H2]].
  assert (exists s, InMemoryRateLimitStore.increment true 1700000001000 "u1" config store
                    = Some (InMemoryRateLimitStore.Result true (Some 1), s)) as [s Hs]
      by (vm_compute; eexists; reflexivity).
  rewrite Hs in Hinc. by injection Hinc as <- _.
Defined.

Section InMemoryCacheFacts.
Import JS InMemoryCache.
Context {T : Type}.

Lemma prefix_app_same (a b c : string) :
  String.prefix (a +:+ b) (a +:+ c) = String.prefix b c.
Proof.
  induction a as [|x a IH]; simpl; [done|].
  destruct (ascii_dec x x); [done|congruence].
Qed.

Lemma prefix_app_self (a b : string) : String.prefix a (a +:+ b) = true.
Proof.
  induction a as [|x a IH]; simpl; [by destruct b|].
  destruct (ascii_dec x x); [done|congruence].
Qed.

Lemma append_assoc (a b c : string) : (a +:+ b) +:+ c = a +:+ b +:+ c.
Proof.
  induction a as [|x a IH]; [done|].
  change (String x ((a +:+ b) +:+ c) = String x (a +:+ b +:+ c)). by rewrite IH.
Qed.

Lemma generateKey_eq (p k p' k' : string) :
  generateKey p k = generateKey p' k' <-> p +:+ ":" +:+ k = p' +:+ ":" +:+ k'.
Proof.
  unfold generateKey. split; [|by intros ->].
  intros H. by simplify_eq/=.
Qed.

Lemma generateKey_searched (p k : string) :
  startsWith ("cache-" +:+ p +:+ ":") (generateKey p k) = true.
Proof.
  unfold startsWith, generateKey.
  rewrite !prefix_app_same. apply prefix_app_self.
Qed.

(** X5 — [set] then [get].  An entry stored without a time to live (or
    with 0) is returned at any later reading and the store is left as it
    is.  An entry stored at [now] with [ttl] seconds is returned as long
    as the clock has not passed [now + ttl * 1000]; read after that, [get]
    returns [null] and removes the entry, so that every later reading
    returns [null] whatever the clock says.  Entries are told apart by
    [prefix:key] as one string: a reading under another prefix and key
    sees the entry exactly when the two strings coincide. *)
Theorem cache_set_then_get :
  forall (store : gmap string (CacheEntry T)) now prefix key (v : T) ttl,
    let stored := set now prefix key v ttl store in
    (given ttl = false ->
     forall now', get now' prefix key stored = (Some v, stored)) /\
    (forall t now', ttl = Some t -> now' <= now + t * 1000 ->
                    get now' prefix key stored = (Some v, stored)) /\
    (forall t now', ttl = Some t -> t <> 0 -> now + t * 1000 <> 0 ->
                    now + t * 1000 < now' ->
                    (get now' prefix key stored).1 = None /\
                    forall now'', (get now'' prefix key (get now' prefix key stored).2).1
                                  = None) /\
    (forall prefix' key' now',
        prefix' +:+ ":" +:+ key' = prefix +:+ ":" +:+ key ->
        get now' prefix' key' stored = get now' prefix key stored) /\
    (forall prefix' key' now',
        prefix' +:+ ":" +:+ key' <> prefix +:+ ":" +:+ key ->
        (get now' prefix' key' stored).1 = (get now' prefix' key' store).1).
Proof.
  intros store now prefix key v ttl stored.
  assert (stored !! generateKey prefix key
          = Some (Entry v (if given ttl then Some (now + default 0 ttl * 1000) else None)))
    as Hstored by apply lookup_insert_eq.
  split; [|split; [|split; [|split]]].
  - intros Httl now'. unfold get. rewrite Hstored, Httl. done.
  - intros t now' -> Hle. unfold get. rewrite Hstored. unfold expired. simpl.
    destruct (Z.eqb_spec t 0); simpl; [done|].
    destruct (Z.ltb_spec (now + t * 1000) now'); [lia|].
    by rewrite andb_false_r.
  - intros t now' -> Ht Hnz Hlt. unfold get at 1 3. rewrite Hstored. unfold expired. simpl.
    destruct (Z.eqb_spec t 0); [done|]. simpl.
    destruct (Z.eqb_spec (now + t * 1000) 0); [done|]. simpl.
    destruct (Z.ltb_spec (now + t * 1000) now'); [|lia]. simpl.
    split; [done|]. intros now''. unfold get. by rewrite lookup_delete_eq.
  - intros prefix' key' now' Heq. unfold get.
    by rewrite (proj2 (generateKey_eq prefix' key' prefix key) Heq).
  - intros prefix' key' now' Hne. unfold get, stored, set.
    rewrite lookup_insert_ne; [|intros Heq; apply Hne; symmetry; by apply generateKey_eq].
    destruct (store !! generateKey prefix' key') as [e|]; [|done].
    by destruct (expired now' e).
Qed.

Lemma deleteByPrefix_lookup (store : gmap string (CacheEntry T)) prefix fullKey :
  deleteByPrefix prefix store !! fullKey =
  if startsWith ("cache-" +:+ prefix +:+ ":") fullKey then None else store !! fullKey.
Proof.
  unfold deleteByPrefix.
  destruct (startsWith ("cache-" +:+ prefix +:+ ":") fullKey) eqn:Hs.
  - apply map_lookup_filter_None. right. intros e _. simpl. congruence.
  - destruct (store !! fullKey) as [e|] eqn:He.
    + by apply map_lookup_filter_Some.
    + apply map_lookup_filter_None. by left.
Qed.

Lemma invalidate_lookup patterns (store : gmap string (CacheEntry T)) fullKey :
  invalidate patterns store !! fullKey =
  if existsb (fun p => startsWith ("cache-" +:+ p +:+ ":") fullKey) patterns
  then None else store !! fullKey.
Proof.
  unfold invalidate. revert store.
  induction patterns as [|p patterns IH]; intros store; simpl; [done|].
  rewrite IH, deleteByPrefix_lookup.
  destruct (startsWith ("cache-" +:+ p +:+ ":") fullKey); simpl; [|done].
  by destruct (existsb _ patterns).
Qed.

Lemma get_missing (store : gmap string (CacheEntry T)) now prefix key :
  store !! generateKey prefix key = None -> get now prefix key store = (None, store).
Proof. intros H. unfold get. by rewrite H. Qed.

(** X6 — [deleteByPrefix(prefix)] removes every entry whose full key
    starts with [cache-prefix:].  Afterwards [get] under that prefix
    returns [null] for every key, and so does [get] under any longer
    prefix [prefix:rest]; a reading under a prefix and key for which
    [prefix':key] does not start with [prefix:] gives what it gave
    before.  After [invalidate(patterns)] the same holds for each of the
    patterns. *)
Theorem deleteByPrefix_clears_prefix :
  forall (store : gmap string (CacheEntry T)) prefix,
    let swept := deleteByPrefix prefix store in
    (forall key now, get now prefix key swept = (None, swept)) /\
    (forall rest key now, get now (prefix +:+ ":" +:+ rest) key swept = (None, swept)) /\
    (forall prefix' key now,
        startsWith (prefix +:+ ":") (prefix' +:+ ":" +:+ key) = false ->
        (get now prefix' key swept).1 = (get now prefix' key store).1) /\
    (forall patterns pattern key now,
        pattern ∈ patterns ->
        get now pattern key (invalidate patterns store)
        = (None, invalidate patterns store)).
Proof.
  intros store prefix swept.
  split; [|split; [|split]].
  - intros key now. apply get_missing. unfold swept.
    by rewrite deleteByPrefix_lookup, generateKey_searched.
  - intros rest key now. apply get_missing. unfold swept.
    rewrite deleteByPrefix_lookup.
    replace (startsWith _ _) with true; [done|]. symmetry.
    unfold startsWith, generateKey.
    rewrite prefix_app_same, !append_assoc, prefix_app_same.
    apply prefix_app_self.
  - intros prefix' key now Hs. unfold get, swept.
    rewrite deleteByPrefix_lookup.
    assert (startsWith ("cache-" +:+ prefix +:+ ":") (generateKey prefix' key) = false)
      as -> by (unfold startsWith, generateKey in *; by rewrite prefix_app_same).
    destruct (store !! generateKey prefix' key) as [e|]; [|done].
    by destruct (expired now e).
  - intros patterns pattern key now Hin. apply get_missing.
    rewrite invalidate_lookup.
    replace (existsb _ patterns) with true; [done|]. symmetry.
    apply existsb_exists. exists pattern. split; [by apply list_elem_of_In|].
    apply generateKey_searched.
Qed.

End InMemoryCacheFacts.

Section GitHubRemoteStatusFacts.
Import JS GitHubRemoteStatus.

Variable trim : string -> string.
Variable now_iso : string.

Lemma filter_length_zero {A} (f : A -> bool) (l : list A) :
  length (List.filter f l) = 0%nat <-> forall x, x ∈ l -> f x = false.
Proof.
  induction l as [|a l IH]; simpl.
  - split; [|done]. intros _ x Hx. by apply elem_of_nil in Hx.
  - destruct (f a) eqn:Ha; simpl.
    + split; [done|]. intros H. specialize (H a ltac:(left)). congruence.
    + rewrite IH. split.
      * intros H x [->|Hx]%elem_of_cons; auto.
      * intros H x Hx. apply H. by right.
Qed.

Lemma filter_length_all {A} (f : A -> bool) (l : list A) :
  (forall x, x ∈ l -> f x = true) -> List.filter f l = l.
Proof.
  induction l as [|a l IH]; simpl; [done|]. intros H.
  rewrite (H a ltac:(left)). f_equal. apply IH. intros x Hx. apply H. by right.
Qed.

Lemma has_true (set : list string) x : has set x = true <-> x ∈ set.
Proof. unfold has. apply bool_decide_eq_true. Qed.

Lemma has_false (set : list string) x : has set x = false <-> x ∉ set.
Proof. unfold has. apply bool_decide_eq_false. Qed.

(** X7 — what [checkRemoteStatus] reports, commits being matched by
    their trimmed messages.  [behindBy] is 0 exactly when every local
    commit has a remote commit with the same message; [aheadBy] is 0
    exactly when every remote commit has a local commit with the same
    message or is a deploy-button commit; [divergedCommits] has [aheadBy]
    entries, each a remote commit that matches no local one and is not a
    deploy-button commit; [compatible] holds exactly when the remote has
    no commit or some local and remote commit match, and when it does not
    hold every local commit is counted in [behindBy]. *)
Theorem checkRemoteStatus_counts :
  forall repo (localCommits : list GitHubExport.LocalCommit)
         (remoteCommits : list RemoteCommit),
    let matches (l : GitHubExport.LocalCommit) (r : RemoteCommit) :=
      trim (message r) = trim (GitHubExport.message l) in
    exists st,
      checkRemoteStatus trim now_iso (Some repo) false
        (Resolved remoteCommits) (Resolved localCommits) = Resolved st /\
      (behindBy st = 0%nat <->
       forall l, l ∈ localCommits -> exists r, r ∈ remoteCommits /\ matches l r) /\
      (aheadBy st = 0%nat <->
       forall r, r ∈ remoteCommits ->
                 (exists l, l ∈ localCommits /\ matches l r) \/
                 isSystemGeneratedCommit trim (message r) = true) /\
      length (divergedCommits st) = aheadBy st /\
      (forall d, d ∈ divergedCommits st ->
                 isSystemGeneratedCommit trim (d_message d) = false /\
                 (forall l, l ∈ localCommits ->
                            trim (d_message d) <> trim (GitHubExport.message l)) /\
                 exists r, r ∈ remoteCommits /\ d_sha d = sha r /\ d_message d = message r) /\
      (compatible st = true <->
       remoteCommits = [] \/
       exists l r, l ∈ localCommits /\ r ∈ remoteCommits /\ matches l r) /\
      (compatible st = false -> behindBy st = length localCommits).
Proof.
  intros repo localCommits remoteCommits matches.
  eexists. split; [reflexivity|]. simpl.
  split; [|split; [|split; [|split; [|split]]]].
  - rewrite filter_length_zero. split.
    + intros H l Hl. specialize (H l Hl). apply negb_false_iff, has_true in H.
      apply list_elem_of_fmap in H as (r & Hr & Hin). exists r. split; [done|].
      symmetry. exact Hr.
    + intros H l Hl. destruct (H l Hl) as (r & Hr & Hm).
      apply negb_false_iff, has_true. apply list_elem_of_fmap. exists r.
      split; [|done]. unfold normalizeMessage. by rewrite Hm.
  - rewrite filter_length_zero. split.
    + intros H r Hr. specialize (H r Hr). apply andb_false_iff in H as [H|H].
      * left. apply negb_false_iff, has_true in H.
        apply list_elem_of_fmap in H as (l & Hl & Hin). exists l. split; [done|].
        exact Hl.
      * right. by apply negb_false_iff in H.
    + intros H r Hr. apply andb_false_iff. destruct (H r Hr) as [(l & Hl & Hm)|Hsys].
      * left. apply negb_false_iff, has_true. apply list_elem_of_fmap. exists l.
        split; [|done]. unfold normalizeMessage. by rewrite Hm.
      * right. by rewrite Hsys.
  - by rewrite length_map.
  - intros d (r & -> & Hr)%list_elem_of_fmap. simpl.
    apply list_elem_of_In, filter_In in Hr as [Hr Hf].
    apply andb_true_iff in Hf as [Hl Hsys].
    apply negb_true_iff in Hl, Hsys. apply has_false in Hl.
    split; [done|]. split.
    + intros l Hl' Heq. apply Hl. apply list_elem_of_fmap. exists l.
      split; [done|done].
    + exists r. split; [by apply list_elem_of_In|done].
  - rewrite orb_true_iff, Nat.eqb_eq, existsb_exists. split.
    + intros [(l & Hl & Hex)|Hlen].
      * right. apply existsb_exists in Hex as (r & Hr & Heq).
        apply String.eqb_eq in Heq. exists l, r.
        split; [by apply list_elem_of_In|]. split; [by apply list_elem_of_In|done].
      * left. by destruct remoteCommits.
    + intros [->|(l & r & Hl & Hr & Hm)]; [by right|]. left.
      exists l. split; [by apply list_elem_of_In|]. apply existsb_exists.
      exists r. split; [by apply list_elem_of_In|]. by apply String.eqb_eq.
  - intros Hc. apply orb_false_iff in Hc as [Hc _].
    f_equal. apply filter_length_all. intros l Hl.
    apply negb_true_iff, has_false. intros (r & Hr & Hin)%list_elem_of_fmap.
    assert (existsb (fun local =>
               existsb (fun remote =>
                          String.eqb (normalizeMessage trim (message remote))
                            (normalizeMessage trim (GitHubExport.message local)))
                 remoteCommits) localCommits = true) as Habs; [|congruence].
    apply existsb_exists. exists l. split; [by apply list_elem_of_In|].
    apply existsb_exists. exists r. split; [by apply list_elem_of_In|].
    apply String.eqb_eq. by rewrite Hr.
Qed.

End GitHubRemoteStatusFacts.

Section GitTreeWalkFacts.
Import JS GitTreeWalk.

Variable decode : string -> string.

(** Induction on entries with the hypothesis for every entry of a
    subtree. *)
Lemma Entry_nested_ind (P : Entry -> Prop) :
  (forall path oid blob, P (BlobEntry path oid blob)) ->
  (forall path oid tree, Forall P tree -> P (TreeEntry path oid tree)) ->
  (forall path oid, P (CommitEntry path oid)) ->
  forall entry, P entry.
Proof.
  intros Hblob Htree Hcommit.
  fix IH 1. intros [path oid blob|path oid tree|path oid].
  - apply Hblob.
  - apply Htree. induction tree as [|e tree IHtree]; constructor; [apply IH|apply IHtree].
  - apply Hcommit.
Qed.

Lemma walkGitTree_loop tree basePath files :
  foldl (fun files entry => walkGitTree_entry decode basePath entry files) files tree
  = files ++ walkGitTree decode tree basePath.
Proof.
  unfold walkGitTree. revert files.
  assert (forall entry files,
             walkGitTree_entry decode basePath entry files
             = files ++ walkGitTree_entry decode basePath entry []) as Hentry.
  { intros [path oid blob|path oid sub|path oid] files; simpl; by rewrite ?app_nil_r. }
  induction tree as [|e tree IH] using rev_ind; intros files.
  - simpl. by rewrite app_nil_r.
  - rewrite !foldl_app. simpl. rewrite (Hentry e (foldl _ files tree)), IH.
    rewrite (Hentry e (foldl _ [] tree)). by rewrite app_assoc.
Qed.

Lemma walkGitTree_cons entry tree basePath :
  walkGitTree decode (entry :: tree) basePath
  = walkGitTree_entry decode basePath entry [] ++ walkGitTree decode tree basePath.
Proof. unfold walkGitTree at 1. simpl. apply walkGitTree_loop. Qed.

Lemma walkTree_entry_spec entry :
  forall prefix files,
    walkTree_entry decode prefix entry files
    = files ++ omap as_text (walkGitTree_entry decode prefix entry []).
Proof.
  induction entry as [path oid blob|path oid tree IH|path oid] using Entry_nested_ind;
    intros prefix files.
  - simpl. unfold as_text. simpl.
    destruct (includes (String Ascii.zero "") (decode blob)); simpl; by rewrite ?app_nil_r.
  - simpl. fold (walkGitTree decode tree (child_path prefix path)).
    generalize (child_path prefix path). intros base. revert files.
    induction IH as [|e tree He _ IHtree]; intros files.
    + simpl. by rewrite app_nil_r.
    + simpl. rewrite IHtree, He, walkGitTree_cons, omap_app. by rewrite app_assoc.
  - simpl. by rewrite app_nil_r.
Qed.

Lemma walkTree_spec tree :
  forall prefix files,
    walkTree decode tree prefix files
    = files ++ omap as_text (walkGitTree decode tree prefix).
Proof.
  unfold walkTree. induction tree as [|e tree IH]; intros prefix files.
  - simpl. by rewrite app_nil_r.
  - simpl. rewrite IH, walkTree_entry_spec, walkGitTree_cons, omap_app.
    by rewrite app_assoc.
Qed.

Lemma walkGitTree_entry_length entry :
  forall basePath,
    length (walkGitTree_entry decode basePath entry []) = blobs_entry entry.
Proof.
  induction entry as [path oid blob|path oid tree IH|path oid] using Entry_nested_ind;
    intros basePath; simpl; [done| |done].
  fold (walkGitTree decode tree (child_path basePath path)).
  generalize (child_path basePath path). intros base.
  induction IH as [|e tree He _ IHtree]; [done|].
  rewrite walkGitTree_cons, length_app, He, IHtree. done.
Qed.

(** X8 — the two walkers of a git tree agree.  [walkGitTree] lists one
    file for every blob below the tree.  [walkTree] returns the list it
    was given followed by the files that [walkGitTree] lists from the same
    base path, in the same order and under the same paths, with their
    oids dropped and without those whose text contains a NUL character;
    so [readFilesFromCommit] never returns a file with a NUL character,
    and returns every other file of the commit. *)
Theorem walkTree_filters_walkGitTree :
  forall tree prefix files,
    length (walkGitTree decode tree prefix) = blobs tree /\
    walkTree decode tree prefix files
    = files ++ omap as_text (walkGitTree decode tree prefix) /\
    (forall f, f ∈ readFilesFromCommit decode tree ->
               includes (String Ascii.zero "") (GitVersionControl.fileContents f) = false) /\
    (forall w, w ∈ walkGitTree decode tree "" ->
               includes (String Ascii.zero "") (w_content w) = false ->
               GitVersionControl.Snapshot (w_path w) (w_content w)
               ∈ readFilesFromCommit decode tree).
Proof.
  intros tree prefix files.
  split; [|split; [apply walkTree_spec|split]].
  - revert prefix. induction tree as [|e tree IH]; intros prefix; [done|].
    rewrite walkGitTree_cons, length_app, walkGitTree_entry_length, IH. done.
  - intros f. unfold readFilesFromCommit. rewrite walkTree_spec. simpl.
    intros (w & _ & Hw)%list_elem_of_omap. unfold as_text in Hw.
    destruct (includes (String Ascii.zero "") (w_content w)) eqn:Hnul; [done|].
    by injection Hw as <-.
  - intros w Hw Hnul. unfold readFilesFromCommit. rewrite walkTree_spec. simpl.
    apply list_elem_of_omap. exists w. split; [done|].
    unfold as_text. by rewrite Hnul.
Qed.

End GitTreeWalkFacts.

Section GitResetFacts.
Import JS GitVersionControl.

Variable st : Storage.
Variable toISOString : Z -> string.
Variable author_identity : string * string.



End GitResetFacts.

Section GitCommitContentFacts.
Import JS GitVersionControl.

Variable st : Storage.
Variable toISOString : Z -> string.
Variable author_identity : string * string.

Lemma find_none_iff {A} (q : A -> bool) (l : list A) :
  List.find q l = None <-> forall x, x ∈ l -> q x = false.
Proof.
  split.
  - intros H x Hx. apply list_elem_of_In in Hx. by eapply find_none in H.
  - intros H. induction l as [|a l IH]; simpl; [done|].
    rewrite (H a ltac:(left)). apply IH. intros x Hx. apply H. by right.
Qed.

(** The snapshot found from the end of the list is the last one of its
    path. *)
Lemma find_last_snapshot (files : list FileSnapshot) i f :
  files !! i = Some f ->
  (forall j g, (i < j)%nat -> files !! j = Some g ->
               normalize_path (filePath g) <> normalize_path (filePath f)) ->
  List.find (fun g => String.eqb (normalize_path (filePath g)) (normalize_path (filePath f)))
    (rev files) = Some f.
Proof.
  intros Hi Hlast.
  apply list_elem_of_split_length in Hi as (before & after & -> & ->).
  rewrite rev_app_distr. simpl. rewrite <- app_assoc. simpl.
  rewrite find_app_first.
  replace (List.find _ (rev after)) with (@None FileSnapshot).
  - simpl. by rewrite String.eqb_refl.
  - symmetry. apply find_none_iff. intros g Hg.
    apply list_elem_of_In, in_rev, list_elem_of_In in Hg.
    apply list_elem_of_lookup in Hg as (k & Hk).
    apply String.eqb_neq. apply (Hlast (length before + S k)%nat); [lia|].
    rewrite lookup_app_r by lia.
    replace (length before + S k - length before)%nat with (S k) by lia. done.
Qed.

(** X10 — what a commit holds.  When [commit(files, message)] creates a
    commit, its tree has, for every snapshot that is the last one of its
    path in [files], the contents of that snapshot under the path
    without its leading slash, and for every path that no snapshot names
    the entry the index had before the call; working tree and index hold
    the same contents for the snapshots' paths afterwards. *)
Theorem commit_holds_staged_files :
  forall files message now r c r',
    commit st toISOString author_identity files message now r
    = (Resolved (Some c), r') ->
    (forall i f,
        files !! i = Some f ->
        (forall j g, (i < j)%nat -> files !! j = Some g ->
                     normalize_path (filePath g) <> normalize_path (filePath f)) ->
        Git.tree c !! normalize_path (filePath f) = Some (fileContents f)) /\
    (forall p, (forall f, f ∈ files -> normalize_path (filePath f) <> p) ->
               Git.tree c !! p = Git.index r !! p) /\
    (forall f, f ∈ files ->
               Git.tree c !! normalize_path (filePath f)
               = staged files (Git.workdir r) !! normalize_path (filePath f)).
Proof.
  intros files message now r c r'. rewrite commit_unfold.
  destruct (stage st files r) as [[u|e] r1]; [|done]. cbv zeta.
  case_bool_decide as Hclean; [done|]. intros [= <- _]. simpl.
  split; [|split].
  - intros i f Hi Hlast. rewrite staged_lookup.
    by rewrite (find_last_snapshot files i f Hi Hlast).
  - intros p Hp. rewrite staged_lookup.
    replace (List.find _ (rev files)) with (@None FileSnapshot); [done|].
    symmetry. apply find_none_iff. intros g Hg.
    apply list_elem_of_In, in_rev, list_elem_of_In in Hg.
    apply String.eqb_neq. by apply Hp.
  - intros f Hf. rewrite !staged_lookup.
    destruct (List.find _ (rev files)) as [g|] eqn:Hfind; [done|].
    exfalso. rewrite find_none_iff in Hfind.
    specialize (Hfind f). rewrite String.eqb_refl in Hfind.
    assert (f ∈ rev files) as Hin by by apply list_elem_of_In, in_rev, list_elem_of_In in Hf.
    by specialize (Hfind Hin).
Qed.

End GitCommitContentFacts.

Lemma commit_holds_staged_files_witness :
  let files := [GitVersionControl.Snapshot "/src/App.tsx" "v1";
                GitVersionControl.Snapshot "README.md" "hello";
                GitVersionControl.Snapshot "src/App.tsx" "v2"] in
  exists c r',
    GitVersionControl.commit GitVersionControl.accepting
      (fun _ => "2026-01-01T00:00:00.000Z")
      GitVersionControl.default_author files (Some "feat: app") 1000 Git.init
    = (JS.Resolved (Some c), r') /\
    Git.tree c !! "src/App.tsx" = Some "v2" /\
    Git.tree c !! "README.md" = Some "hello".
Proof.
  intros files. eexists _, _. split; [vm_compute; reflexivity|].
  pose proof (commit_holds_staged_files GitVersionControl.accepting
                (fun _ => "2026-01-01T00:00:00.000Z") GitVersionControl.default_author
                files (Some "feat: app") 1000 Git.init _ _ eq_refl) as (Hlast & _ & _).
  split.
  - apply (Hlast 2%nat (GitVersionControl.Snapshot "src/App.tsx" "v2") eq_refl).
    intros [|[|[|j]]] g Hj; try lia; done.
  - apply (Hlast 1%nat (GitVersionControl.Snapshot "README.md" "hello") eq_refl).
    intros [|[|[|j]]] g Hj Hg; try lia; [|done].
    injection Hg as <-. done.
Defined.

Section InferenceAbortFacts.
Import InferenceAbort.

Lemma call_live a c : live a -> live (call a c).
Proof.
  unfold live. intros Hlive.
  destruct c; simpl; [| |done].
  2:{ unfold cancelCurrentInference.
      destruct (currentAbortController a) as [k|] eqn:Hk; simpl; [done|by rewrite Hk]. }
  unfold getInferenceContext, getOrCreateAbortController, aborted.
  destruct (currentAbortController a) as [k|] eqn:Hk; simpl.
  - rewrite Hlive. simpl. by rewrite Hk.
  - rewrite lookup_app_r by lia. by rewrite Nat.sub_diag.
Qed.

Lemma run_live calls : live (run calls).
Proof.
  unfold run. induction calls as [|c calls IH] using rev_ind; [done|].
  rewrite foldl_app. simpl. by apply call_live.
Qed.

Lemma getInferenceContext_live a :
  live a ->
  let got := getInferenceContext a in
  live got.2 /\ currentAbortController got.2 = Some got.1 /\
  controllers got.2 !! got.1 = Some false /\
  (forall c, c <> got.1 -> aborted got.2 c = aborted a c) /\
  (currentAbortController a = None -> got.1 = length (controllers a)).
Proof.
  intros Hlive got. unfold got, getInferenceContext, getOrCreateAbortController, aborted.
  unfold live in *.
  destruct (currentAbortController a) as [k|] eqn:Hk; simpl.
  - rewrite Hlive. simpl. rewrite Hk. done.
  - rewrite lookup_app_r by lia. rewrite Nat.sub_diag. simpl.
    split; [done|]. split; [done|]. split; [done|]. split; [|done].
    intros c Hc. destruct (decide (c < length (controllers a))%nat).
    + by rewrite lookup_app_l.
    + rewrite !lookup_ge_None_2; [done|lia|rewrite length_app; simpl; lia].
Qed.

(** X11 — one abort signal per operation.  After any history of
    calls, the inference contexts obtained one after the other carry the
    same signal, not aborted, and the second call changes nothing;
    [cancelCurrentInference] then returns [true] and aborts that signal
    and no other, a second cancellation returns [false], and the next
    context carries a new signal that is not aborted.  If instead the
    controller is cleared, a cancellation returns [false] and leaves the
    signal of the finished operation as it is, and the next context
    carries a new signal. *)
Theorem abort_signal_shared_until_cancel :
  forall calls,
    let a := run calls in
    let first := getInferenceContext a in
    let second := getInferenceContext first.2 in
    let cancelled := cancelCurrentInference second.2 in
    let next := getInferenceContext cancelled.2 in
    let cleared := clearAbortController second.2 in
    second = first /\
    aborted first.2 first.1 = false /\
    cancelled.1 = true /\
    aborted cancelled.2 first.1 = true /\
    (forall c, c <> first.1 -> aborted cancelled.2 c = aborted a c) /\
    (cancelCurrentInference cancelled.2).1 = false /\
    next.1 <> first.1 /\ aborted next.2 next.1 = false /\ aborted next.2 first.1 = true /\
    cancelCurrentInference cleared = (false, cleared) /\
    aborted cleared first.1 = false /\
    (getInferenceContext cleared).1 <> first.1.
Proof.
  intros calls a first second cancelled next cleared.
  destruct (getInferenceContext_live a (run_live calls))
    as (Hlive1 & Hcur1 & Hflag1 & Hothers1 & _).
  fold first in Hlive1, Hcur1, Hflag1, Hothers1.
  assert (second = first) as Hsecond.
  { unfold second, getInferenceContext, getOrCreateAbortController, aborted.
    rewrite Hcur1, Hflag1. simpl. by destruct first. }
  assert (first.1 < length (controllers first.2))%nat as Hlt
      by (by apply lookup_lt_Some in Hflag1).
  assert (cancelled = (true, MkAgent (<[first.1 := true]> (controllers first.2)) None))
    as Hcancelled.
  { unfold cancelled. rewrite Hsecond. unfold cancelCurrentInference. by rewrite Hcur1. }
  assert (cleared = MkAgent (controllers first.2) None) as Hcleared
      by (unfold cleared; by rewrite Hsecond).
  split; [done|].
  split; [unfold aborted; by rewrite Hflag1|].
  rewrite Hcancelled, Hcleared. unfold next. rewrite Hcancelled. simpl.
  split; [done|].
  split; [unfold aborted; simpl; by rewrite list_lookup_insert_eq|].
  split.
  { intros c Hc. rewrite <- Hothers1 by done. unfold aborted. simpl.
    by rewrite list_lookup_insert_ne. }
  split; [done|].
  unfold getInferenceContext, getOrCreateAbortController, aborted. simpl.
  rewrite length_insert.
  split; [lia|].
  split; [rewrite lookup_app_r by (rewrite length_insert; lia);
          by rewrite length_insert, Nat.sub_diag|].
  split; [rewrite lookup_app_l by (rewrite length_insert; lia);
          by rewrite list_lookup_insert_eq|].
  split; [done|]. split; [by rewrite Hflag1|lia].
Qed.

End InferenceAbortFacts.

Section GitHubTokenCacheFacts.
Import GitHubTokenCache.

(** X12 — the cached GitHub token.  A token stored at [now] with
    [ttl] milliseconds (one hour when no [ttl] is given) is returned by
    [getGitHubToken] as long as the clock is before [now + ttl], and the
    cache is kept; from [now + ttl] on, [getGitHubToken] returns [null]
    and empties the cache, so that every later call returns [null]
    whatever the clock says, as it does after [clearGitHubToken]. *)
Theorem github_token_expires :
  forall now token username ttl now',
    let cache := setGitHubToken now token username ttl in
    let expiry := now + default 3600000 ttl in
    (now' < expiry -> getGitHubToken now' cache = (Some (token, username), cache)) /\
    (expiry <= now' ->
     getGitHubToken now' cache = (None, None) /\
     forall now'', getGitHubToken now'' (getGitHubToken now' cache).2 = (None, None)) /\
    getGitHubToken now' clearGitHubToken = (None, None) /\
    (ttl = None ->
     (getGitHubToken (now + 3599999) cache).1 = Some (token, username) /\
     (getGitHubToken (now + 3600000) cache).1 = None).
Proof.
  intros now token username ttl now' cache expiry.
  unfold cache, expiry, getGitHubToken, setGitHubToken, clearGitHubToken. simpl.
  split; [|split; [|split; [done|]]].
  - intros Hlt. destruct (Z.geb_spec now' (now + default 3600000 ttl)); [lia|done].
  - intros Hge. destruct (Z.geb_spec now' (now + default 3600000 ttl)); [done|lia].
  - intros ->. simpl.
    destruct (Z.geb_spec (now + 3599999) (now + 3600000)); [lia|].
    destruct (Z.geb_spec (now + 3600000) (now + 3600000)); [done|lia].
Qed.

End GitHubTokenCacheFacts.

Section BlueprintFacts.
Import JS Blueprint.

Lemma filtered_lookup (patch : gmap string (option json)) key :
  (omap id (filter (fun kv => kv.1 ∈ safeUpdatableFields) patch) : gmap string json) !! key
  = if bool_decide (key ∈ safeUpdatableFields)
    then match patch !! key with Some (Some v) => Some v | _ => None end
    else None.
Proof.
  rewrite lookup_omap. case_bool_decide as Hsafe.
  - destruct (patch !! key) as [v|] eqn:Hp.
    + rewrite (map_lookup_filter_Some_2 _ _ key v); [by destruct v|done|done].
    + rewrite map_lookup_filter_None_2; [done|by left].
  - rewrite map_lookup_filter_None_2; [done|]. right. intros v _. done.
Qed.

(** X13 — [updateBlueprint] changes allowed fields only.  In the
    blueprint it returns and stores, a key that is neither one of the
    eleven updatable fields nor [projectName] (so [initialPhase], for
    one) has the value it had; an updatable field has the value the patch
    gives it when the patch has that key with a value that is not
    [undefined], and the value it had otherwise; and [projectName] is the
    one of the patch only if that is a string of 3 to 50 characters among
    [a-z], [0-9], [-] and [_], whatever the sandbox and the database
    answered, and the one it had otherwise. *)
Theorem updateBlueprint_allow_list :
  forall sandbox db (patch : gmap string (option json)) (blueprint : gmap string json),
    let updated := updateBlueprint sandbox db patch blueprint in
    (forall key, key ∉ safeUpdatableFields -> key <> "projectName" ->
                 updated !! key = blueprint !! key) /\
    updated !! "initialPhase" = blueprint !! "initialPhase" /\
    (forall key, key ∈ safeUpdatableFields ->
                 updated !! key = match patch !! key with
                                  | Some (Some v) => Some v
                                  | _ => blueprint !! key
                                  end) /\
    updated !! "projectName"
    = match patch !! "projectName" with
      | Some (Some (JStr newName)) =>
          if valid_project_name newName then Some (JStr newName)
          else blueprint !! "projectName"
      | _ => blueprint !! "projectName"
      end.
Proof.
  intros sandbox db patch blueprint updated.
  assert (forall key, key <> "projectName" ->
            match patch !! "projectName" with
            | Some (Some (JStr projectName)) =>
                (updateProjectName sandbox db projectName blueprint).2
            | _ => blueprint
            end !! key = blueprint !! key) as Hother.
  { intros key Hkey. destruct (patch !! "projectName") as [[[]|]|]; try done.
    unfold updateProjectName. destruct (valid_project_name s); simpl; [|done].
    by rewrite lookup_insert_ne. }
  assert (forall key, key ∉ safeUpdatableFields -> key <> "projectName" ->
                      updated !! key = blueprint !! key) as Hkept.
  { intros key Hsafe Hkey. unfold updated, updateBlueprint.
    rewrite lookup_union_r; [by apply Hother|].
    rewrite filtered_lookup. by rewrite bool_decide_eq_false_2. }
  split; [done|]. split; [apply Hkept; [by apply (bool_decide_eq_false_1 _)|done]|].
  split.
  - intros key Hsafe. unfold updated, updateBlueprint.
    assert (key <> "projectName") as Hkey.
    { intros ->. revert Hsafe. by apply (bool_decide_eq_false_1 _). }
    rewrite lookup_union, filtered_lookup, bool_decide_eq_true_2 by done.
    rewrite Hother by done.
    destruct (patch !! key) as [[v|]|]; simpl.
    + by destruct (blueprint !! key).
    + by destruct (blueprint !! key).
    + by destruct (blueprint !! key).
  - unfold updated, updateBlueprint.
    rewrite lookup_union_r.
    + destruct (patch !! "projectName") as [[[]|]|]; try done.
      unfold updateProjectName. destruct (valid_project_name s); simpl; [|done].
      by rewrite lookup_insert_eq.
    + by rewrite filtered_lookup.
Qed.

End BlueprintFacts.

Section GenerateProjectNameFacts.
Import JS Blueprint.

Lemma string_app_cons c (a b : string) : String c a +:+ b = String c (a +:+ b).
Proof. reflexivity. Qed.

Lemma toLowerCase_app (a b : string) :
  CsrfMiddleware.toLowerCase (a +:+ b)
  = CsrfMiddleware.toLowerCase a +:+ CsrfMiddleware.toLowerCase b.
Proof.
  induction a as [|c a IH]; [done|].
  rewrite string_app_cons. simpl. by rewrite IH.
Qed.

Lemma lower_char_prefix_char c : prefix_char c = true -> CsrfMiddleware.lower_char c = c.
Proof.
  unfold prefix_char, is_lower, is_digit, CsrfMiddleware.lower_char.
  intros H.
  destruct ((65 <=? nat_of_ascii c)%nat && (nat_of_ascii c <=? 90)%nat) eqn:Hupper; [|done].
  exfalso. apply andb_true_iff in Hupper as [H1 H2].
  apply Nat.leb_le in H1, H2.
  apply orb_true_iff in H as [H|H]; [apply orb_true_iff in H as [H|H]|].
  - apply andb_true_iff in H as [H3 _]. apply Nat.leb_le in H3. lia.
  - apply andb_true_iff in H as [_ H4]. apply Nat.leb_le in H4. lia.
  - apply Ascii.eqb_eq in H. subst c. vm_compute in H1. lia.
Qed.

Lemma toLowerCase_prefix_chars (s : string) :
  forallb prefix_char (list_ascii_of_string s) = true -> CsrfMiddleware.toLowerCase s = s.
Proof.
  induction s as [|c s IH]; simpl; [done|].
  intros [Hc Hs]%andb_true_iff. by rewrite lower_char_prefix_char, IH.
Qed.

Lemma replace_non_alphanumeric_chars (s : string) :
  forallb prefix_char (list_ascii_of_string (replace_non_alphanumeric s)) = true.
Proof.
  induction s as [|c s IH]; simpl; [done|]. rewrite IH, andb_true_r.
  unfold prefix_char. destruct (is_lower c || is_digit c) eqn:Hc; [by rewrite Hc|done].
Qed.

Lemma replace_non_alphanumeric_length (s : string) :
  String.length (replace_non_alphanumeric s) = String.length s.
Proof. induction s as [|c s IH]; simpl; [done|]. by rewrite IH. Qed.

Lemma toLowerCase_length (s : string) :
  String.length (CsrfMiddleware.toLowerCase s) = String.length s.
Proof. induction s as [|c s IH]; simpl; [done|]. by rewrite IH. Qed.

Lemma slice_to_length n (s : string) :
  String.length (slice_to n s) = Nat.min n (String.length s).
Proof.
  revert s. induction n as [|n IH]; intros [|c s]; simpl; try done. by rewrite IH.
Qed.

Lemma slice_to_chars (q : ascii -> bool) n (s : string) :
  forallb q (list_ascii_of_string s) = true ->
  forallb q (list_ascii_of_string (slice_to n s)) = true.
Proof.
  revert s. induction n as [|n IH]; intros [|c s]; simpl; try done.
  intros [Hc Hs]%andb_true_iff. by rewrite Hc, IH.
Qed.

Lemma string_app_length (a b : string) :
  String.length (a +:+ b) = (String.length a + String.length b)%nat.
Proof.
  induction a as [|c a IH]; [done|]. rewrite string_app_cons. simpl. by rewrite IH.
Qed.

Lemma string_app_chars (a b : string) :
  list_ascii_of_string (a +:+ b) = list_ascii_of_string a ++ list_ascii_of_string b.
Proof.
  induction a as [|c a IH]; [done|]. rewrite string_app_cons. simpl. by rewrite IH.
Qed.

Lemma prefix_char_name_char c : prefix_char c = true -> name_char c = true.
Proof. unfold prefix_char, name_char. intros ->. done. Qed.

(** X14 — the shape of a generated project name (ASCII text).
    [generateProjectName] returns [prefix-suffix], where the suffix is
    the given one in lower case and the prefix has as many characters as
    the project name, at most [maxPrefixLength] (20 when not given), all
    of them among [a-z], [0-9] and [-].  When the lower-cased suffix is
    made of [a-z], [0-9], [-] and [_] and the whole has 3 to 50
    characters, the name passes the check of [updateProjectName], which
    then stores it as the project name of the blueprint. *)
Theorem generateProjectName_shape :
  forall projectName uniqueSuffix maxPrefixLength,
    let n := default 20%nat maxPrefixLength in
    let generated := generateProjectName projectName uniqueSuffix maxPrefixLength in
    exists prefix,
      generated = prefix +:+ "-" +:+ CsrfMiddleware.toLowerCase uniqueSuffix /\
      String.length prefix = Nat.min n (String.length projectName) /\
      forallb prefix_char (list_ascii_of_string prefix) = true /\
      (forallb name_char (list_ascii_of_string (CsrfMiddleware.toLowerCase uniqueSuffix))
       = true ->
       (3 <= Nat.min n (String.length projectName) + 1 + String.length uniqueSuffix <= 50)%nat ->
       valid_project_name generated = true /\
       forall sandbox db blueprint,
         (updateProjectName sandbox db generated blueprint).2 !! "projectName"
         = Some (JStr generated)).
Proof.
  intros projectName uniqueSuffix maxPrefixLength n generated.
  set (prefix := slice_to n (replace_non_alphanumeric (CsrfMiddleware.toLowerCase projectName))).
  assert (forallb prefix_char (list_ascii_of_string prefix) = true) as Hchars
      by apply slice_to_chars, replace_non_alphanumeric_chars.
  assert (String.length prefix = Nat.min n (String.length projectName)) as Hlen.
  { unfold prefix. by rewrite slice_to_length, replace_non_alphanumeric_length,
      toLowerCase_length. }
  assert (generated = prefix +:+ "-" +:+ CsrfMiddleware.toLowerCase uniqueSuffix) as Hgen.
  { unfold generated, generateProjectName. fold n. fold prefix.
    rewrite !toLowerCase_app. by rewrite toLowerCase_prefix_chars. }
  exists prefix. split; [done|]. split; [done|]. split; [done|].
  intros Hsuffix Hsize.
  assert (valid_project_name generated = true) as Hvalid.
  { unfold valid_project_name. rewrite Hgen.
    apply andb_true_iff. split.
    - rewrite !string_app_length, Hlen, toLowerCase_length.
      change (String.length "-") with 1%nat.
      apply andb_true_iff. split; apply Nat.leb_le; lia.
    - rewrite !string_app_chars, !forallb_app, Hsuffix, andb_true_r.
      clear -Hchars. induction (list_ascii_of_string prefix) as [|c l IH]; [done|].
      simpl in *. apply andb_true_iff in Hchars as [Hc Hl].
      by rewrite (prefix_char_name_char c Hc), IH. }
  split; [done|]. intros sandbox db blueprint.
  unfold updateProjectName. rewrite Hvalid. simpl. by rewrite lookup_insert_eq.
Qed.

End GenerateProjectNameFacts.

Section SandboxSdkClientFacts.
Import JS SandboxSdkClient.

Variable fs : LocalSandboxFiles.FileSystem.










(** With a file system that accepts every write, a file is written
    exactly when its target contains no [..]. *)
Lemma writeFiles_accepting_guard_only cwd instancePath files :
  forall disk i f r,
    files !! i = Some f ->
    write_results LocalSandboxFiles.accepting cwd instancePath disk files !! i = Some r ->
    success r = negb (includes ".." (target_in cwd instancePath f)).
Proof.
  induction files as [|g files IH]; intros disk i f r; [done|].
  destruct i as [|i]; simpl; [|apply IH].
  intros [= ->] [= <-]. unfold write_result, LocalSandboxFiles.writeFile. simpl.
  fold (target_in cwd instancePath f).
  by destruct (includes ".." (target_in cwd instancePath f)).
Qed.

End SandboxSdkClientFacts.


(** The second of two writes can fail although no path contains [..]:
    here the file system refuses to create a directory where a file
    stands, and [writeFiles] still answers [success: true]. *)
Example writeFiles_reports_file_system_errors :
  let fs := LocalSandboxFiles.MkFileSystem
              (fun disk fullPath =>
                 if bool_decide (is_Some (disk !! "/srv/app/data/instances/i-1/a"))
                    && String.prefix "/srv/app/data/instances/i-1/a/" fullPath
                 then Some "ENOTDIR: not a directory, mkdir"
                 else None)
              (fun _ _ _ => None) in
  let files := [GitVersionControl.Snapshot "a" "one";
                GitVersionControl.Snapshot "a/b" "two"] in
  (SandboxSdkClient.writeFiles fs "/srv/app" "i-1" files ∅).1
  = SandboxSdkClient.MkWriteFiles true
      [SandboxSdkClient.MkWriteResult "a" true None;
       SandboxSdkClient.MkWriteResult "a/b" false (Some "ENOTDIR: not a directory, mkdir")]
      "Wrote 2 files.".
Proof. vm_compute. reflexivity. Qed.

Section PhasicPhasesFacts.
Import PhasicAgent PhasicPhases.

Variable env : Environment.

Lemma markPhaseComplete_phases phaseName s :
  generatedPhases (markPhaseComplete phaseName s) = mark phaseName (generatedPhases s).
Proof.
  unfold markPhaseComplete, mark.
  destruct (existsb _ (generatedPhases s)) eqn:Hex; [done|].
  symmetry. rewrite <- (map_id (generatedPhases s)) at 2. apply map_ext_in.
  intros ph Hph.
  destruct (String.eqb (name (concept ph)) phaseName) eqn:Hn; [|done].
  exfalso. apply not_true_iff_false in Hex. apply Hex. apply existsb_exists. eauto.
Qed.

Lemma extends_refl phases : extends phases phases.
Proof. split; [exists []; by rewrite app_nil_r|done]. Qed.

Lemma extends_trans a b c : extends a b -> extends b c -> extends a c.
Proof.
  intros [[x Hx] Hab] [[y Hy] Hbc]. split.
  - exists (x ++ y). by rewrite Hy, Hx, app_assoc.
  - intros i ph Hi Hc. apply Hbc; [|done]. by apply Hab.
Qed.

Lemma extends_mark phaseName phases : extends phases (mark phaseName phases).
Proof.
  unfold mark. split.
  - exists []. rewrite app_nil_r, map_map. apply map_ext. intros ph.
    by destruct (String.eqb _ _).
  - intros i ph Hi Hc. rewrite list_lookup_fmap, Hi. simpl.
    destruct (String.eqb _ _); [|done]. destruct ph as [c b]. simpl in *. by subst b.
Qed.

Lemma extends_snoc phases ph : extends phases (phases ++ [ph]).
Proof.
  split.
  - exists [concept ph]. by rewrite map_app.
  - intros i p Hi _. by apply lookup_app_l_Some.
Qed.

Lemma extends_elem a b p :
  extends a b -> MkPhaseState p true ∈ a -> MkPhaseState p true ∈ b.
Proof.
  intros [_ H] (i & Hi)%list_elem_of_lookup. apply list_elem_of_lookup. exists i.
  by apply H.
Qed.

Lemma mark_elem p b phases :
  MkPhaseState p b ∈ phases -> MkPhaseState p true ∈ mark (name p) phases.
Proof.
  intros Hin. unfold mark. apply list_elem_of_fmap. exists (MkPhaseState p b).
  split; [|done]. simpl. by rewrite String.eqb_refl.
Qed.

Lemma mark_all_completed phaseName phases :
  all_completed phases -> all_completed (mark phaseName phases).
Proof.
  intros H ph (q & -> & Hq)%list_elem_of_fmap.
  destruct (String.eqb _ _); [done|by apply H].
Qed.

Lemma mark_last_completed p b init :
  all_completed init -> all_completed (mark (name p) (init ++ [MkPhaseState p b])).
Proof.
  intros H ph. unfold mark. rewrite map_app. simpl. rewrite String.eqb_refl.
  intros [Hin|Hin]%elem_of_app.
  - by apply (mark_all_completed (name p) init).
  - apply list_elem_of_singleton in Hin. by subst ph.
Qed.

Lemma all_completed_tidy phases : all_completed phases -> tidy phases.
Proof.
  intros H. exists phases, []. rewrite app_nil_r. split; [done|]. split; [done|simpl; lia].
Qed.

Lemma snoc_tidy init ph : all_completed init -> tidy (init ++ [ph]).
Proof. intros H. exists init, [ph]. split; [done|]. split; [done|simpl; lia]. Qed.

Lemma chosen_is_last_tidy s pc phases : chosen_is_last s pc phases -> tidy phases.
Proof.
  destruct s; simpl; try apply all_completed_tidy.
  intros (p & b & init & _ & -> & H). by apply snoc_tidy.
Qed.

(** What each handler does to the generated phases. *)
Lemma executePhaseGeneration_phases m h m' :
  executePhaseGeneration env m = (h, m') ->
  (exists p, h = Next PHASE_IMPLEMENTING (Some p) /\
             generatedPhases (state m')
             = generatedPhases (state m) ++ [MkPhaseState p false]) \/
  ((h = Next FINALIZING None \/ h = Next IDLE None \/ h = Rethrown) /\
   generatedPhases (state m') = generatedPhases (state m)).
Proof.
  unfold executePhaseGeneration, fetchPendingUserRequests, generateNextPhase. simpl.
  assert (forall s : PhasicState,
             generatedPhases (match pendingUserInputs s with
                              | [] => s | _ => with_pending s [] end)
             = generatedPhases s) as Hdrain.
  { intros s. by destruct (pendingUserInputs s). }
  destruct (issues env (generations m)) as [u| |];
    [|intros [= <- <-]; right; auto..].
  destruct (generate env (generations m)) as [result| |].
  - destruct (files result) eqn:Hfiles; intros [= <- <-]; simpl.
    + right. split; [auto|]. apply Hdrain.
    + left. exists result. split; [done|]. by rewrite Hdrain.
  - intros [= <- <-]. simpl. right. split; [auto|]. apply Hdrain.
  - intros [= <- <-]. simpl. right. split; [auto|]. apply Hdrain.
Qed.

Lemma implement_chosen_phases p m h m' events :
  implement_chosen env p m = (h, m', events) ->
  (exists c next, h = Next next None /\ next <> PHASE_IMPLEMENTING /\
                  events = [Implemented p c] /\
                  generatedPhases (state m') = mark (name p) (generatedPhases (state m))) \/
  ((h = Next IDLE None \/ h = Rethrown) /\ events = [] /\
   generatedPhases (state m') = generatedPhases (state m)).
Proof.
  unfold implement_chosen, implementPhase. simpl.
  destruct (implement env (implementations m)) as [u| |]; simpl.
  - intros [= <- <- <-]. left. eexists _, _. split; [done|].
    split; [by destruct (_ && _)|]. split; [done|]. simpl.
    by rewrite markPhaseComplete_phases.
  - intros [= <- <- <-]. right. auto.
  - intros [= <- <- <-]. right. auto.
Qed.

Lemma executeFinalizing_phases m r m' :
  executeFinalizing env m = (r, m') ->
  (r = Done REVIEWING /\
   (generatedPhases (state m') = generatedPhases (state m) \/
    generatedPhases (state m')
    = mark (name finalization_phase)
        (generatedPhases (state m) ++ [MkPhaseState finalization_phase false]))) \/
  ((r = RateLimited \/ r = Failed) /\
   generatedPhases (state m')
   = generatedPhases (state m) ++ [MkPhaseState finalization_phase false]).
Proof.
  unfold executeFinalizing. destruct (mvpGenerated (state m)).
  - intros [= <- <-]. left. auto.
  - unfold implementPhase. simpl.
    destruct (implement env (implementations m)) as [u| |]; intros [= <- <-]; simpl.
    + left. split; [done|]. right. by rewrite markPhaseComplete_phases.
    + right. auto.
    + right. auto.
Qed.

Lemma executeReviewCycle_phases m r m' events :
  executeReviewCycle env m = (r, m', events) ->
  generatedPhases (state m') = generatedPhases (state m) /\
  implemented events = [] /\
  (forall next, r = Done next -> next = IDLE).
Proof.
  unfold executeReviewCycle. destruct (reviewingInitiated (state m)).
  - intros [= <- <- <-]. split; [done|]. split; [done|]. by intros next [= <-].
  - destruct (review env) as [[|]| |]; intros [= <- <- <-]; simpl;
      (split; [done|]); (split; [done|]); by intros next [= <-].
Qed.

Lemma implemented_cons_enter s events :
  implemented (Enter s :: events) = implemented events.
Proof. done. Qed.

Lemma implemented_app' e1 e2 : implemented (e1 ++ e2) = implemented e1 ++ implemented e2.
Proof. unfold implemented. apply omap_app. Qed.

Lemma state_machine_loop_phases fuel :
  forall s pc m events stop m',
    state_machine_loop env fuel s pc m = (events, stop, m') ->
    chosen_is_generated s pc (generatedPhases (state m)) ->
    extends (generatedPhases (state m)) (generatedPhases (state m')) /\
    (forall p, p ∈ implemented events ->
               MkPhaseState p true ∈ generatedPhases (state m')) /\
    (chosen_is_last s pc (generatedPhases (state m)) ->
     tidy (generatedPhases (state m'))).
Proof.
  induction fuel as [|fuel IH]; intros s pc m events stop m' Hrun Hgen.
  { assert (events = [] /\ m' = m) as [-> ->] by (destruct s; simpl in Hrun; by simplify_eq).
    split; [apply extends_refl|]. split; [by intros p Hp%elem_of_nil|].
    apply chosen_is_last_tidy. }
  destruct s.
  - simpl in Hrun. simplify_eq.
    split; [apply extends_refl|]. split; [by intros p Hp%elem_of_nil|].
    apply chosen_is_last_tidy.
  - (* PHASE_GENERATING *)
    simpl in Hrun.
    destruct (executePhaseGeneration env m) as [h m1] eqn:Hh.
    apply executePhaseGeneration_phases in Hh as [(p & -> & Hph)|(Hcase & Hph)].
    + destruct (state_machine_loop env fuel PHASE_IMPLEMENTING (Some p) m1)
        as [[rest stop1] m2] eqn:Hrec.
      simplify_eq. simpl.
      destruct (IH _ _ _ _ _ _ Hrec) as (Hext & Himpl & Htidy).
      { intros _. exists p, false. split; [done|]. rewrite Hph.
        apply elem_of_app. right. by left. }
      split; [|split].
      * eapply extends_trans; [|exact Hext]. rewrite Hph. apply extends_snoc.
      * intros q Hq. by apply Himpl.
      * intros Hall. apply Htidy. exists p, false, (generatedPhases (state m)).
        by rewrite Hph.
    + destruct h as [next result|].
      * destruct (state_machine_loop env fuel next result m1)
          as [[rest stop1] m2] eqn:Hrec.
        simplify_eq. simpl.
        assert (next <> PHASE_IMPLEMENTING) as Hnext
            by (destruct Hcase as [?|[?|?]]; by simplify_eq).
        destruct (IH _ _ _ _ _ _ Hrec) as (Hext & Himpl & Htidy); [by intros ?|].
        rewrite Hph in Hext, Htidy.
        split; [done|]. split; [intros q Hq; by apply Himpl|].
        intros Hall. apply Htidy. by destruct next.
      * simplify_eq. simpl. rewrite Hph.
        split; [apply extends_refl|]. split; [by intros p Hp%elem_of_nil|].
        apply all_completed_tidy.
  - (* PHASE_IMPLEMENTING *)
    destruct (Hgen eq_refl) as (p & b & -> & Hin).
    simpl in Hrun.
    destruct (implement_chosen env p m) as [[h m1] evs] eqn:Hh.
    apply implement_chosen_phases in Hh
      as [(c & next & -> & Hnext & -> & Hph)|(Hcase & -> & Hph)].
    + destruct (state_machine_loop env fuel next (Some p) m1)
        as [[rest stop1] m2] eqn:Hrec.
      simplify_eq. simpl.
      destruct (IH _ _ _ _ _ _ Hrec) as (Hext & Himpl & Htidy); [by intros ?|].
      rewrite Hph in Hext, Htidy.
      split; [eapply extends_trans; [apply extends_mark|exact Hext]|].
      split.
      * intros q. unfold implemented. simpl. fold (implemented rest).
        intros [->|Hq]%elem_of_cons; [|by apply Himpl].
        eapply extends_elem; [exact Hext|]. by eapply mark_elem.
      * intros (p' & b' & init & [= <-] & Hphases & Hinit). apply Htidy.
        assert (all_completed (mark (name p) (generatedPhases (state m)))) as Hall
            by (rewrite Hphases; by apply mark_last_completed).
        by destruct next.
    + destruct h as [next result|].
      * destruct Hcase as [[= -> ->]|[=]].
        rewrite state_machine_loop_idle in Hrun. simplify_eq. simpl. rewrite Hph.
        split; [apply extends_refl|]. split; [by intros q Hq%elem_of_nil|].
        apply (chosen_is_last_tidy PHASE_IMPLEMENTING (Some p)).
      * simplify_eq. simpl. rewrite Hph.
        split; [apply extends_refl|]. split; [by intros q Hq%elem_of_nil|].
        apply (chosen_is_last_tidy PHASE_IMPLEMENTING (Some p)).
  - (* REVIEWING *)
    simpl in Hrun.
    destruct (executeReviewCycle env m) as [[r m1] evs] eqn:Hh.
    apply executeReviewCycle_phases in Hh as (Hph & Hevs & Hnext).
    destruct r as [next| |].
    + rewrite (Hnext next eq_refl), state_machine_loop_idle in Hrun. simplify_eq. simpl.
      rewrite app_nil_r, Hph.
      split; [apply extends_refl|].
      split; [intros q; unfold implemented in *; simpl; rewrite Hevs;
              by intros Hq%elem_of_nil|].
      apply all_completed_tidy.
    + simplify_eq. simpl. rewrite Hph.
      split; [apply extends_refl|].
      split; [intros q; unfold implemented in *; simpl; rewrite Hevs;
              by intros Hq%elem_of_nil|].
      apply all_completed_tidy.
    + simplify_eq. simpl. rewrite Hph.
      split; [apply extends_refl|].
      split; [intros q; unfold implemented in *; simpl; rewrite Hevs;
              by intros Hq%elem_of_nil|].
      apply all_completed_tidy.
  - (* FINALIZING *)
    simpl in Hrun.
    destruct (executeFinalizing env m) as [r m1] eqn:Hh.
    apply executeFinalizing_phases in Hh as [(-> & Hph)|(Hcase & Hph)].
    + destruct (state_machine_loop env fuel REVIEWING pc m1)
        as [[rest stop1] m2] eqn:Hrec.
      simplify_eq. simpl.
      destruct (IH _ _ _ _ _ _ Hrec) as (Hext & Himpl & Htidy); [by intros ?|].
      split; [|split; [by intros q Hq; apply Himpl|]].
      * eapply extends_trans; [|exact Hext].
        destruct Hph as [-> | ->]; [apply extends_refl|].
        eapply extends_trans; [apply extends_snoc|apply extends_mark].
      * intros Hall. apply Htidy. simpl in *.
        destruct Hph as [-> | ->]; [done|].
        by apply (mark_last_completed finalization_phase false).
    + assert (events = [Enter FINALIZING] /\ m' = m1) as [-> ->]
          by (destruct Hcase as [-> | ->]; by simplify_eq).
      rewrite Hph.
      split; [apply extends_snoc|]. split; [by intros q Hq%elem_of_nil|].
      intros Hall. by apply snoc_tidy.
Qed.

Lemma last_filter_incomplete init rest phase :
  all_completed init -> (length rest <= 1)%nat ->
  last (List.filter (fun ph => negb (completed ph)) (init ++ rest)) = Some phase ->
  rest = [phase].
Proof.
  intros Hinit Hlen. rewrite List.filter_app.
  replace (List.filter (fun ph => negb (completed ph)) init) with (@nil PhaseState).
  - destruct rest as [|x [|y rest]]; simpl in *; [done| |lia].
    destruct (completed x); simpl; [done|]. by intros [= ->].
  - symmetry. induction init as [|y init IH]; [done|]. simpl.
    rewrite (Hinit y ltac:(left)). simpl. apply IH. intros z Hz. apply Hinit. by right.
Qed.

Lemma last_filter_none phases :
  last (List.filter (fun ph => negb (completed ph)) phases) = None ->
  all_completed phases.
Proof.
  intros Hlast ph Hph.
  destruct (completed ph) eqn:Hc; [done|]. exfalso.
  assert (ph ∈ List.filter (fun ph => negb (completed ph)) phases) as Hin.
  { apply list_elem_of_In, filter_In. split; [by apply list_elem_of_In|by rewrite Hc]. }
  apply last_None in Hlast. rewrite Hlast in Hin. by apply elem_of_nil in Hin.
Qed.

(** X16 — the generated phases over a build.  Whatever the
    language-model operations answer and wherever the loop of
    [launchStateMachine] stops, the phases generated before the build are
    still there afterwards, in order and with their concepts, followed by
    the new ones; a phase that was completed is unchanged; every phase
    implemented in [PHASE_IMPLEMENTING] is among the generated phases as
    completed; and if every phase but the last was completed before the
    build, the same holds after it, so that at most the last phase is
    left to resume. *)
Theorem build_keeps_phases_resumable :
  forall fuel m,
    let out := launchStateMachine env fuel m in
    let before := generatedPhases (state m) in
    let after := generatedPhases (state out.2) in
    (exists added, map concept after = map concept before ++ added) /\
    (forall i ph, before !! i = Some ph -> completed ph = true -> after !! i = Some ph) /\
    (forall p, p ∈ implemented out.1.1 -> MkPhaseState p true ∈ after) /\
    (tidy before -> tidy after).
Proof.
  intros fuel m out before after.
  assert (extends before after /\
          (forall p, p ∈ implemented out.1.1 -> MkPhaseState p true ∈ after) /\
          (tidy before -> tidy after)) as ([Hadded Hkept] & Himpl & Htidy);
    [|done].
  subst after out before. unfold launchStateMachine.
  destruct (last (List.filter (fun phase => negb (completed phase))
                    (generatedPhases (state m))))
    as [phase|] eqn:Hlast.
  - destruct (state_machine_loop env fuel PHASE_IMPLEMENTING (Some (concept phase)) m)
      as [[events stop] m'] eqn:Hrun.
    destruct (state_machine_loop_phases fuel _ _ _ _ _ _ Hrun) as (Hext & Himpl & Htidy).
    { intros _. exists (concept phase), (completed phase). split; [done|].
      apply last_Some_elem_of, list_elem_of_In, filter_In in Hlast as [Hin _].
      apply list_elem_of_In in Hin. by destruct phase. }
    simpl. split; [done|]. split; [done|].
    intros (init & rest & Hphases & Hinit & Hlen). apply Htidy.
    rewrite Hphases in Hlast.
    apply last_filter_incomplete in Hlast; [|done|done]. subst rest.
    exists (concept phase), (completed phase), init. split; [done|].
    split; [rewrite Hphases; by destruct phase|done].
  - destruct (generatedPhases (state m)) as [|ph0 phases] eqn:Hbefore.
    + destruct (state_machine_loop env fuel PHASE_IMPLEMENTING
                  (Some (initialPhase (state m)))
                  (on_state (createNewIncompletePhase (initialPhase (state m))) m))
        as [[events stop] m'] eqn:Hrun.
      destruct (state_machine_loop_phases fuel _ _ _ _ _ _ Hrun) as (Hext & Himpl & Htidy).
      { intros _. exists (initialPhase (state m)), false. split; [done|].
        simpl. apply elem_of_app. right. by left. }
      simpl in Htidy. rewrite Hbefore in Htidy. simpl.
      split; [|split; [done|]].
      * split; [exists (map concept (generatedPhases (state m'))); done|].
        intros i ph Hi. by rewrite lookup_nil in Hi.
      * intros _. apply Htidy. exists (initialPhase (state m)), false, [].
        split; [done|]. split; [done|]. intros ph Hph. by apply elem_of_nil in Hph.
    + destruct (state_machine_loop env fuel PHASE_GENERATING None m)
        as [[events stop] m'] eqn:Hrun.
      destruct (state_machine_loop_phases fuel _ _ _ _ _ _ Hrun) as (Hext & Himpl & Htidy);
        [by intros ?|].
      rewrite Hbefore in Hext, Htidy.
      simpl. split; [done|]. split; [done|]. intros _. apply Htidy.
      simpl. by apply last_filter_none.
Qed.

End PhasicPhasesFacts.

Section PendingRequestsFacts.
Import PhasicAgent.

Lemma queueUserRequest_pending request s :
  pendingUserInputs (queueUserRequest request s) = pendingUserInputs s ++ [request] /\
  generatedPhases (queueUserRequest request s) = generatedPhases s.
Proof.
  unfold queueUserRequest, rechargePhasesCounter.
  by destruct (phasesCounter s <=? 3).
Qed.

Lemma queue_all_pending requests s :
  pendingUserInputs (foldl (fun s r => queueUserRequest r s) s requests)
  = pendingUserInputs s ++ requests /\
  generatedPhases (foldl (fun s r => queueUserRequest r s) s requests)
  = generatedPhases s.
Proof.
  revert s. induction requests as [|r requests IH]; intros s; simpl.
  - by rewrite app_nil_r.
  - destruct (IH (queueUserRequest r s)) as [-> ->].
    destruct (queueUserRequest_pending r s) as [-> ->]. by rewrite <- app_assoc.
Qed.

(** X17 — queued user requests are handed over once, in order.
    After any number of [queueUserRequest] calls,
    [fetchPendingUserRequests] returns the requests that were pending
    before followed by the queued ones in the order of the calls, and
    empties the queue, so that a second call returns the empty list and
    changes nothing; neither the queueing nor the fetching touches the
    generated phases.  A phase generation run on the queued state fetches
    the issues first: when that fetch returns, the generation leaves the
    queue empty, whatever the generation of the phase then does; when it
    throws, the generation stops (rethrowing a rate-limit error, going to
    IDLE on any other) and the queue is kept as it was. *)
Theorem pending_requests_fetched_once :
  forall s requests,
    let queued := foldl (fun s r => queueUserRequest r s) s requests in
    let fetched := fetchPendingUserRequests queued in
    fetched.2 = pendingUserInputs s ++ requests /\
    pendingUserInputs fetched.1 = [] /\
    generatedPhases fetched.1 = generatedPhases s /\
    phasesCounter fetched.1 = phasesCounter queued /\
    fetchPendingUserRequests fetched.1 = (fetched.1, []) /\
    forall env m,
      state m = queued ->
      (forall u, issues env (generations m) = Done u ->
                 pendingUserInputs (state (executePhaseGeneration env m).2) = []) /\
      (issues env (generations m) = Failed ->
       executePhaseGeneration env m = (Next IDLE None, m)) /\
      (issues env (generations m) = RateLimited ->
       executePhaseGeneration env m = (Rethrown, m)) /\
      ((forall u, issues env (generations m) <> Done u) ->
       pendingUserInputs (state (executePhaseGeneration env m).2)
       = pendingUserInputs s ++ requests).
Proof.
  intros s requests queued fetched.
  destruct (queue_all_pending requests s) as [Hpending Hphases].
  fold queued in Hpending, Hphases.
  unfold fetched, fetchPendingUserRequests. simpl.
  split; [done|].
  assert (pendingUserInputs (match pendingUserInputs queued with
                             | [] => queued | _ => with_pending queued [] end) = [])
    as Hempty by (by destruct (pendingUserInputs queued) eqn:E).
  split; [done|].
  split; [rewrite <- Hphases; by destruct (pendingUserInputs queued)|].
  split; [by destruct (pendingUserInputs queued)|].
  split; [by rewrite Hempty|].
  intros env m Hm. unfold executePhaseGeneration.
  destruct (issues env (generations m)) as [u| |].
  - split; [|split; [done|split; [done|intros H; by destruct (H u)]]].
    intros _ _. unfold fetchPendingUserRequests, generateNextPhase. rewrite Hm. simpl.
    destruct (generate env (generations m)) as [result| |]; [|done..].
    by destruct (files result).
  - split; [done|]. split; [done|]. split; [done|]. intros _. simpl. by rewrite Hm.
  - split; [done|]. split; [done|]. split; [done|]. intros _. simpl. by rewrite Hm.
Qed.

End PendingRequestsFacts.

Section ConversationOpsFacts.
Import Conversation ConversationOps.

Lemma add_all_read st id messages :
  let cs := getConversationState st id in
  let cs' := getConversationState (add_all (Sql true true) id messages st) id in
  runningHistory cs' = foldl (fun h m => insert_or_replace m h) (runningHistory cs) messages /\
  fullHistory cs' = foldl (fun h m => insert_or_replace m h) (fullHistory cs) messages.
Proof.
  simpl. unfold add_all.
  induction messages as [|m messages IH] using rev_ind; [done|].
  rewrite !foldl_app. simpl.
  destruct (getConversationState_add_read
              (foldl (fun st message => addConversationMessage (Sql true true) id message st)
                 st messages) id m) as [Hr Hf].
  simpl in Hr, Hf. rewrite Hr, Hf. destruct IH as [-> ->]. done.
Qed.

Lemma insert_all_fresh messages :
  forall h,
    NoDup (ids messages) ->
    (forall m, m ∈ messages -> conversationId m ∉ ids h) ->
    foldl (fun h m => insert_or_replace m h) h messages = h ++ messages.
Proof.
  induction messages as [|m messages IH]; intros h Hnd Hfresh; simpl.
  - by rewrite app_nil_r.
  - apply NoDup_cons in Hnd as [Hm Hnd].
    rewrite insert_or_replace_absent by (apply Hfresh; by left).
    rewrite IH; [by rewrite <- app_assoc| done |].
    intros x Hx. unfold ids. rewrite fmap_app. simpl.
    intros [Hin|Hin]%elem_of_app.
    + by apply (Hfresh x ltac:(by right)).
    + apply list_elem_of_singleton in Hin. apply Hm. rewrite <- Hin.
      apply list_elem_of_fmap. by exists x.
Qed.

Lemma stored_after_add st id m :
  let st' := addConversationMessage (Sql true true) id m st in
  Nat.eqb (length (read_table (full_conversations st') id)) 0 = false /\
  Nat.eqb (length (read_table (compact_conversations st') id)) 0 = false.
Proof.
  simpl. unfold addConversationMessage, setConversationState, read_table. simpl.
  rewrite !lookup_insert_eq. simpl. by rewrite !insert_or_replace_nonempty.
Qed.

(** X18 — adding messages, clearing, and failed writes.  With the
    table writes going through, the messages added one after the other
    are folded into both histories by insert-or-replace; messages with
    distinct ids that the histories do not hold yet come back appended in
    the order they were added.  [clearConversation] reports the number
    of in-memory messages and empties only those: once a message has been
    added, the histories read after a clear are what they were before it.
    When the first table write fails, [addConversationMessage] stores
    nothing; when only the second fails, the running history has the
    message and the full history is as before. *)
Theorem conversation_add_clear_and_failures :
  forall st id messages m,
    let cs := getConversationState st id in
    let st' := add_all (Sql true true) id messages st in
    let cs' := getConversationState st' id in
    (runningHistory cs'
     = foldl (fun h m => insert_or_replace m h) (runningHistory cs) messages /\
     fullHistory cs'
     = foldl (fun h m => insert_or_replace m h) (fullHistory cs) messages) /\
    (NoDup (ids messages) ->
     (forall x, x ∈ messages -> conversationId x ∉ ids (runningHistory cs)) ->
     runningHistory cs' = runningHistory cs ++ messages) /\
    (NoDup (ids messages) ->
     (forall x, x ∈ messages -> conversationId x ∉ ids (fullHistory cs)) ->
     fullHistory cs' = fullHistory cs ++ messages) /\
    (clearConversation st).2 = length (conversationMessages st) /\
    (messages <> [] -> getConversationState (clearConversation st').1 id = cs') /\
    (forall full_ok, addConversationMessage (Sql false full_ok) id m st = st) /\
    (let partial := getConversationState (addConversationMessage (Sql true false) id m st) id in
     runningHistory partial = insert_or_replace m (runningHistory cs) /\
     fullHistory partial = fullHistory cs).
Proof.
  intros st id messages m cs st' cs'.
  destruct (add_all_read st id messages) as [Hr Hf]. fold cs st' cs' in Hr, Hf.
  split; [done|].
  split; [intros Hnd Hfresh; rewrite Hr; by apply insert_all_fresh|].
  split; [intros Hnd Hfresh; rewrite Hf; by apply insert_all_fresh|].
  split; [done|]. split; [|split].
  - intros Hne. unfold cs', st', add_all.
    destruct messages as [|x messages _] using rev_ind; [done|].
    rewrite foldl_app. simpl.
    destruct (stored_after_add
                (foldl (fun st message => addConversationMessage (Sql true true) id message st)
                   st messages) id x) as [Hfull Hcompact].
    simpl in Hfull, Hcompact.
    unfold getConversationState, clearConversation. simpl.
    by rewrite Hfull, Hcompact.
  - done.
  - simpl. unfold addConversationMessage, setConversationState, getConversationState.
    simpl. unfold read_table. rewrite lookup_insert_eq. simpl.
    rewrite insert_or_replace_nonempty.
    split.
    + apply deduplicateMessages_fixed, insert_or_replace_NoDup, dedup_from_NoDup.
    + done.
Qed.

End ConversationOpsFacts.

Section InMemoryDORateLimitStoreFacts.
Import InMemoryDORateLimitStore.

Lemma do_bucketKey_inj key t1 t2 : bucketKey key t1 = bucketKey key t2 -> t1 = t2.
Proof.
  unfold bucketKey. intros H.
  do 2 apply (inj (String.app _)) in H.
  by apply (inj pretty) in H.
Qed.

Lemma do_bucketSizeMs_pos (config : DORateLimitConfig) :
  (forall b, InMemoryRateLimitStore.bucketSize config = Some b -> 0 <= b) ->
  0 < bucketSizeMs config.
Proof.
  intros H. unfold bucketSizeMs, or_default.
  destruct (InMemoryRateLimitStore.bucketSize config) as [b|]; [|lia].
  specialize (H b eq_refl). destruct (Z.eqb_spec b 0); lia.
Qed.

Lemma window_loop_times fuel state key time now bs :
  window_loop fuel state key time now bs
  = omap (fun t => buckets state !! bucketKey key t)
      (InMemoryRateLimitStore.times_loop fuel time now bs).
Proof.
  revert time. induction fuel as [|fuel IH]; intros time; simpl; [done|].
  destruct (time <=? now); simpl; [|done]. rewrite IH.
  by destruct (buckets state !! bucketKey key time).
Qed.

Lemma getBucketsInWindow_times state key now windowMs bs :
  getBucketsInWindow state key now windowMs bs
  = omap (fun t => buckets state !! bucketKey key t)
      (InMemoryRateLimitStore.window_times now windowMs bs).
Proof. apply window_loop_times. Qed.

Lemma do_sum_counts_shift a l :
  foldl (fun sum bucket => sum + count bucket) a l = a + sum_counts l.
Proof.
  unfold sum_counts. revert a. induction l as [|b l IH]; intros a; simpl; [lia|].
  rewrite IH, (IH (0 + count b)). lia.
Qed.

Lemma do_sum_counts_cons b l : sum_counts (b :: l) = count b + sum_counts l.
Proof. unfold sum_counts at 1. simpl. rewrite do_sum_counts_shift. lia. Qed.

Lemma sum_window_cons state key t times :
  sum_counts (omap (fun t => buckets state !! bucketKey key t) (t :: times))
  = count_at state key t
    + sum_counts (omap (fun t => buckets state !! bucketKey key t) times).
Proof.
  unfold count_at.
  change (omap (fun t => buckets state !! bucketKey key t) (t :: times))
    with (match buckets state !! bucketKey key t with
          | Some y => y :: omap (fun t => buckets state !! bucketKey key t) times
          | None => omap (fun t => buckets state !! bucketKey key t) times
          end).
  destruct (buckets state !! bucketKey key t); [by rewrite do_sum_counts_cons|lia].
Qed.

(** Two states whose buckets of [key] agree on the timestamps of a list
    have the same sum there; one more in a single bucket of the list is
    one more in the sum. *)
Lemma sum_window_ext state state' key times :
  (forall t, t ∈ times -> count_at state' key t = count_at state key t) ->
  sum_counts (omap (fun t => buckets state' !! bucketKey key t) times)
  = sum_counts (omap (fun t => buckets state !! bucketKey key t) times).
Proof.
  induction times as [|t times IH]; intros H; [done|].
  rewrite !sum_window_cons, IH, H; [done|by left|]. intros t' Ht'. apply H. by right.
Qed.

Lemma sum_window_bump state state' key t0 times :
  NoDup times -> t0 ∈ times ->
  count_at state' key t0 = count_at state key t0 + 1 ->
  (forall t, t <> t0 -> count_at state' key t = count_at state key t) ->
  sum_counts (omap (fun t => buckets state' !! bucketKey key t) times)
  = sum_counts (omap (fun t => buckets state !! bucketKey key t) times) + 1.
Proof.
  intros Hnd Hin H0 Hother. induction times as [|t times IH]; [by apply elem_of_nil in Hin|].
  apply NoDup_cons in Hnd as [Ht Hnd]. rewrite !sum_window_cons.
  apply elem_of_cons in Hin as [<-|Hin].
  - rewrite H0, (sum_window_ext state state'); [lia|].
    intros t Hin. apply Hother. by intros ->.
  - rewrite IH by done. rewrite Hother; [lia|]. by intros ->.
Qed.

Lemma current_time_in_window now windowMs bs :
  0 < bs -> 0 <= windowMs ->
  now / bs * bs ∈ InMemoryRateLimitStore.window_times now windowMs bs.
Proof.
  intros Hbs Hw. apply window_times_elem; [done|].
  split; [by eexists|]. split.
  - apply Z.mul_le_mono_nonneg_r; [lia|]. apply Z.div_le_mono; lia.
  - rewrite Z.mul_comm. apply Z.mul_div_le. lia.
Qed.

(** X19 — [InMemoryDORateLimitStore.increment] on whole-number
    configurations whose bucket size is not negative (0 and an absent
    bucket size both mean 10 seconds) and whose period is not negative.
    The count is taken in the state of the key, after the cleanup that is
    due when the last one is more than five minutes old.  If the
    main-window count has reached the limit the call is refused with
    remaining 0 and no bucket is written.  If the call succeeds, the
    remaining limit it returns is [limit - mainCount - 1], which is not
    negative; the bucket of the current timestamp counts one more, every
    other bucket of the key is unchanged, the main-window count read at
    the same instant is one more, and the time of the last cleanup is
    kept.  The states of the other keys are never touched. *)
Theorem do_increment_counts :
  forall now key (config : DORateLimitConfig) (stores : gmap string RateLimitState),
    (forall b, InMemoryRateLimitStore.bucketSize config = Some b -> 0 <= b) ->
    0 <= InMemoryRateLimitStore.period config ->
    let state := counting_state now key config stores in
    let main := mainCount state now key config in
    let out := increment now key config stores in
    let current := now / bucketSizeMs config * bucketSizeMs config in
    (InMemoryRateLimitStore.limit config <= main ->
     out = (InMemoryRateLimitStore.Result false (Some 0), <[key := state]> stores)) /\
    (InMemoryRateLimitStore.success out.1 = true ->
     exists state',
       out.2 !! key = Some state' /\
       InMemoryRateLimitStore.remainingLimit out.1
       = Some (InMemoryRateLimitStore.limit config - main - 1) /\
       0 <= InMemoryRateLimitStore.limit config - main - 1 /\
       count_at state' key current = count_at state key current + 1 /\
       (forall t, t <> current -> count_at state' key t = count_at state key t) /\
       mainCount state' now key config = main + 1 /\
       lastCleanup state' = lastCleanup state) /\
    (InMemoryRateLimitStore.success out.1 = false ->
     out = (InMemoryRateLimitStore.Result false (Some 0), <[key := state]> stores)) /\
    (forall key', key' <> key -> out.2 !! key' = stores !! key').
Proof.
  intros now key config stores Hbsize Hperiod state main out current.
  pose proof (do_bucketSizeMs_pos config Hbsize) as Hbs.
  unfold out, increment. fold state. fold main. fold current.
  destruct (Z.geb_spec main (InMemoryRateLimitStore.limit config)) as [Hfull|Hfree].
  { simpl. split; [done|]. split; [done|]. split; [done|].
    intros key' Hne. by rewrite lookup_insert_ne. }
  destruct (InMemoryRateLimitStore.configured (InMemoryRateLimitStore.burst config)
            && (burstCount state now key config
                >=? default 0 (InMemoryRateLimitStore.burst config))) eqn:Hburst.
  { simpl. split; [lia|]. split; [done|]. split; [done|].
    intros key' Hne. by rewrite lookup_insert_ne. }
  simpl. split; [lia|]. split; [|split; [done|]].
  - intros _. eexists. split; [apply lookup_insert_eq|].
    split; [done|]. split; [lia|].
    assert (count_at
              (MkState (<[bucketKey key current :=
                            MkBucket (or_default (count <$> buckets state !! bucketKey key current) 0 + 1)
                              now]> (buckets state)) (lastCleanup state)) key current
            = count_at state key current + 1) as Hcur.
    { unfold count_at. simpl. rewrite lookup_insert_eq. simpl.
      destruct (buckets state !! bucketKey key current) as [b|]; simpl; [|done].
      destruct (Z.eqb_spec (count b) 0) as [->|]; done. }
    assert (forall t, t <> current ->
              count_at
                (MkState (<[bucketKey key current :=
                              MkBucket (or_default (count <$> buckets state !! bucketKey key current) 0 + 1)
                                now]> (buckets state)) (lastCleanup state)) key t
              = count_at state key t) as Hother.
    { intros t Ht. unfold count_at. simpl. rewrite lookup_insert_ne; [done|].
      intros Heq. by apply do_bucketKey_inj in Heq. }
    split; [done|]. split; [done|]. split; [|done].
    unfold main, mainCount. rewrite !getBucketsInWindow_times.
    apply (sum_window_bump _ _ key current); try done.
    + by apply window_times_NoDup.
    + apply current_time_in_window; [done|lia].
  - intros key' Hne. by rewrite lookup_insert_ne.
Qed.

End InMemoryDORateLimitStoreFacts.

Lemma do_increment_counts_witness :
  let config := InMemoryRateLimitStore.Config 2 60 (Some 0) None None in
  let first := InMemoryDORateLimitStore.increment 1700000001000 "u1" config ∅ in
  let second := InMemoryDORateLimitStore.increment 1700000005000 "u1" config first.2 in
  let third := InMemoryDORateLimitStore.increment 1700000010500 "u1" config second.2 in
  first.1 = InMemoryRateLimitStore.Result true (Some 1) /\
  second.1 = InMemoryRateLimitStore.Result true (Some 0) /\
  third.1 = InMemoryRateLimitStore.Result false (Some 0) /\
  third.2 !! "u2" = second.2 !! "u2".
Proof.
  intros config first second third.
  split; [vm_compute; reflexivity|]. split; [vm_compute; reflexivity|].
  split; [vm_compute; reflexivity|].
  apply (do_increment_counts 1700000010500 "u1" config second.2);
    [intros b [= <-]; lia|vm_compute; discriminate|done].
Defined.

Section RouteAuthFacts.
Import RouteAuth.

Lemma checkAppOwnership_params a (p : gmap string string) :
  checkAppOwnership a p = present (p !! "agentId") || present (p !! "id").
Proof.
  unfold checkAppOwnership.
  destruct (present (p !! "agentId")) eqn:Ha; simpl; [by rewrite Ha|].
  by destruct (present (p !! "id")).
Qed.

Lemma owner_only_outcome au (params : gmap string string) :
  authMiddleware (Some AuthConfig_ownerOnly) au params =
  if negb (present (au ≫= userId)) then Json "Unauthorized" 401
  else if negb (present (params !! "agentId") || present (params !! "id"))
       then Json "Forbidden" 403
       else Next (Some (MkUser (or_empty (au ≫= userId))
                          (or_empty (au ≫= claim_email))
                          (or_empty (au ≫= claim_name))
                          (or_empty (au ≫= claim_picture))
                          (or_empty (au ≫= claim_iss)))).
Proof.
  destruct au as [a|]; [|done]. unfold authMiddleware. simpl.
  destruct (present (userId a)); simpl; [|done].
  rewrite checkAppOwnership_params.
  by destruct (present (params !! "agentId") || present (params !! "id")).
Qed.

(** X20 — the owner-only protection.  Given what [getAuth(c)] and
    [c.req.param()] return, [authMiddleware] behind
    [setAuthLevel(AuthConfig.ownerOnly)] answers 401 exactly when the
    request carries no user id, 403 exactly when it carries one and the
    parameters hold neither an [agentId] nor an [id], and hands over to
    the handler otherwise, with the user's id set on the context.  As
    [createApp] installs it, by [app.use] on the pattern [/api/*], the
    parameters are those of that pattern, none: every request with a user
    id is answered 403 and every other 401, so that no request under
    [/api/*] reaches a handler.  A public requirement, or none, always
    hands over with no user set. *)
Theorem owner_only_decision :
  forall auth,
    let installed := with_auth_level AuthConfig_ownerOnly auth in
    let user_id := auth ≫= userId in
    (installed = Json "Unauthorized" 401 <-> present user_id = false) /\
    (installed = Json "Forbidden" 403 <-> present user_id = true) /\
    reaches_handler installed = false /\
    (forall params : gmap string string,
        let outcome := authMiddleware (Some AuthConfig_ownerOnly) auth params in
        let has_id := present (params !! "agentId") || present (params !! "id") in
        (outcome = Json "Unauthorized" 401 <-> present user_id = false) /\
        (outcome = Json "Forbidden" 403 <-> present user_id = true /\ has_id = false) /\
        (reaches_handler outcome = true <-> present user_id = true /\ has_id = true) /\
        (forall user, outcome = Next user ->
                      exists u, user = Some u /\ Some (id u) = user_id)) /\
    with_auth_level AuthConfig_public auth = Next None /\
    (forall params, authMiddleware None auth params = Next None).
Proof.
  intros auth installed user_id.
  split; [|split; [|split; [|split; [|split; [done|done]]]]].
  - unfold installed, with_auth_level. rewrite owner_only_outcome. fold user_id.
    destruct (present user_id); simpl; split; done.
  - unfold installed, with_auth_level. rewrite owner_only_outcome. fold user_id.
    destruct (present user_id); simpl; split; done.
  - unfold installed, with_auth_level. rewrite owner_only_outcome. fold user_id.
    by destruct (present user_id).
  - intros params outcome has_id. unfold outcome. rewrite owner_only_outcome.
    fold user_id. fold has_id.
    destruct (present user_id) eqn:Huser; simpl.
    + destruct has_id; simpl.
      * split; [split; intros; done|]. split; [split; [done|intros [_ ?]; done]|].
        split; [done|]. intros user [= <-]. eexists. split; [done|]. simpl.
        unfold user_id in *. destruct (auth ≫= userId); done.
      * split; [split; intros; done|]. split; [done|].
        split; [split; [done|intros [_ ?]; done]|]. done.
    + split; [done|]. split; [split; [done|intros [? _]; done]|].
      split; [split; [done|intros [? _]; done]|]. done.
Qed.

(** A signed-in user asking for an app by its id: the route has an
    [id] parameter, and the middleware installed on [/api/*] does not
    see it. *)
Example owner_only_forbids_the_owner :
  let auth := Some (MkAuth (Some "user_1") (Some "u@example.com") None None None) in
  with_auth_level AuthConfig_ownerOnly auth = Json "Forbidden" 403 /\
  reaches_handler
    (authMiddleware (Some AuthConfig_ownerOnly) auth {[ "id" := "app_1" ]}) = true.
Proof. vm_compute. split; reflexivity. Qed.

End RouteAuthFacts.

Section ConfigurableSettingsFacts.
Import ConfigurableSettings.
Context {Settings : Type}.

Lemma serve_cached (calls : list (string * Settings)) :
  forall cache i userId globalConfig config,
    calls !! i = Some (userId, globalConfig) -> userId <> "" ->
    cache !! userId = Some config ->
    serve calls cache !! i = Some config.
Proof.
  induction calls as [|[u g] calls IH]; intros cache i userId globalConfig config Hi Hu Hc;
    [done|].
  destruct i as [|i]; simpl in *.
  - injection Hi as -> ->. unfold getUserConfigurableSettings.
    apply String.eqb_neq in Hu. by rewrite Hu, Hc.
  - eapply IH; [exact Hi|done|].
    unfold getUserConfigurableSettings.
    destruct (String.eqb u ""); [done|].
    destruct (cache !! u) eqn:Hcu; [done|]. simpl.
    rewrite lookup_insert_ne; [done|]. intros ->. congruence.
Qed.

Lemma serve_first (calls : list (string * Settings)) :
  forall cache i userId globalConfig,
    calls !! i = Some (userId, globalConfig) -> userId <> "" ->
    cache !! userId = None ->
    exists j first,
      (j <= i)%nat /\ calls !! j = Some (userId, first) /\
      (forall k u g, (k < j)%nat -> calls !! k = Some (u, g) -> u <> userId) /\
      serve calls cache !! i = Some first.
Proof.
  induction calls as [|[u g] calls IH]; intros cache i userId globalConfig Hi Hu Hc; [done|].
  destruct (decide (u = userId)) as [->|Hne].
  - exists 0%nat, g. split; [lia|]. split; [done|]. split; [intros; lia|].
    destruct i as [|i]; simpl in *.
    + unfold getUserConfigurableSettings. apply String.eqb_neq in Hu. by rewrite Hu, Hc.
    + eapply serve_cached; [exact Hi|done|].
      unfold getUserConfigurableSettings. apply String.eqb_neq in Hu. rewrite Hu, Hc.
      simpl. apply lookup_insert_eq.
  - destruct i as [|i]; simpl in *; [congruence|].
    destruct (IH (getUserConfigurableSettings u g cache).2 i userId globalConfig Hi Hu)
      as (j & first & Hj & Hfirst & Hbefore & Hserve).
    { unfold getUserConfigurableSettings.
      destruct (String.eqb u ""); [done|].
      destruct (cache !! u); [done|]. simpl. by rewrite lookup_insert_ne. }
    exists (S j), first. split; [lia|]. split; [done|]. split; [|done].
    intros [|k] u' g' Hk Hlook; simpl in Hlook.
    + by injection Hlook as <- <-.
    + apply (Hbefore k u' g'); [lia|done].
Qed.

(** X21 — user settings are pinned to their first answer.  In any
    series of [getUserConfigurableSettings] calls on an empty cache, a
    call with a user id returns the global configuration that was passed
    by the first call with that user id, whatever configuration it
    passes itself; a call with an empty user id returns the configuration
    it passes.  [getGlobalConfigurableSettings] returns the defaults of
    its first call ever after. *)
Theorem user_settings_pinned :
  forall (calls : list (string * Settings)) i userId globalConfig,
    calls !! i = Some (userId, globalConfig) ->
    (userId = "" -> serve calls ∅ !! i = Some globalConfig) /\
    (userId <> "" ->
     exists j first,
       (j <= i)%nat /\ calls !! j = Some (userId, first) /\
       (forall k u g, (k < j)%nat -> calls !! k = Some (u, g) -> u <> userId) /\
       serve calls ∅ !! i = Some first) /\
    (forall defaults defaults' : Settings,
        let first := getGlobalConfigurableSettings defaults None in
        first.1 = defaults /\
        getGlobalConfigurableSettings defaults' first.2 = (defaults, first.2)).
Proof.
  intros calls i userId globalConfig Hi. split; [|split; [|done]].
  - intros ->. clear -Hi. generalize (∅ : gmap string Settings). revert i Hi.
    induction calls as [|[u g] calls IH]; intros i Hi cache; [done|].
    destruct i as [|i]; simpl in *.
    + by injection Hi as -> ->.
    + by apply IH.
  - intros Hu. by eapply serve_first.
Qed.

End ConfigurableSettingsFacts.

Lemma user_settings_pinned_witness :
  ConfigurableSettings.serve [("u1", 1%nat); ("u2", 2%nat); ("u1", 3%nat)] ∅ !! 2%nat
  = Some 1%nat.
Proof.
  destruct (user_settings_pinned [("u1", 1%nat); ("u2", 2%nat); ("u1", 3%nat)]
              2%nat "u1" 3%nat eq_refl) as (_ & Hpinned & _).
  destruct Hpinned as (j & first & Hj & Hfirst & Hbefore & Hserve); [done|].
  rewrite Hserve. f_equal.
  destruct j as [|[|[|j]]]; simpl in Hfirst; try lia.
  - by injection Hfirst as <-.
  - done.
  - exfalso. apply (Hbefore 0%nat "u1" 1%nat); [lia|done|done].
Defined.

Section GitHubExportHistoryFacts.
Import GitHubExport GitHubExportHistory.

Variable hashContent : string -> string.
Variable blobSha : string -> string.
Variable treeSha : list (string * option string) -> string.
Variable commitSha : string -> string -> list string -> string.

Lemma deliver_calls arrived waiting st :
  calls (deliver blobSha arrived waiting st).1 = calls st.
Proof.
  revert arrived st. induction waiting as [|p waiting IH]; intros arrived st; simpl; [done|].
  destruct arrived as [|[|] flags]; [done| |].
  - by rewrite IH.
  - specialize (IH flags st). by destruct (deliver blobSha flags waiting st).
Qed.

Lemma process_file_commits arrived st file :
  commits_created (calls (process_file hashContent blobSha arrived st file))
  = commits_created (calls st) /\
  refs_updated (calls (process_file hashContent blobSha arrived st file))
  = refs_updated (calls st).
Proof.
  unfold process_file.
  pose proof (deliver_calls arrived (pending st) st) as Hd.
  destruct (deliver blobSha arrived (pending st) st) as [st1 waiting]. simpl in Hd.
  destruct (blobCache st1 !! hashContent (content file)); simpl; rewrite ?Hd; [done|].
  unfold commits_created, refs_updated. rewrite !omap_app. simpl. by rewrite !app_nil_r.
Qed.

Lemma process_files_commits fs :
  forall schedule st,
    commits_created (calls (process_files hashContent blobSha schedule st fs).1)
    = commits_created (calls st) /\
    refs_updated (calls (process_files hashContent blobSha schedule st fs).1)
    = refs_updated (calls st).
Proof.
  induction fs as [|f fs IH]; intros schedule st; simpl; [done|].
  destruct (IH (tail schedule)
              (process_file hashContent blobSha (default [] (head schedule)) st f))
    as [-> ->].
  apply process_file_commits.
Qed.

Lemma settle_all_calls waiting st : calls (foldl (settle blobSha) st waiting) = calls st.
Proof. revert st. induction waiting as [|p waiting IH]; intros st; simpl; [done|]. by rewrite IH. Qed.

Lemma linear_snoc parent created c :
  linear commitSha parent created ->
  c.2 = match tip commitSha parent created with Some p => [p] | None => [] end ->
  linear commitSha parent (created ++ [c]).
Proof.
  revert parent. induction created as [|x created IH]; intros parent Hlin Hc; simpl in *.
  - done.
  - destruct Hlin as [Hx Hlin]. split; [done|]. apply IH; [done|].
    rewrite Hc. unfold tip. destruct created as [|y l]; [done|].
    change (last (x :: y :: l)) with (last (y :: l)).
    destruct (last (y :: l)) eqn:Hlast; [done|]. by apply last_None in Hlast.
Qed.

Lemma tip_snoc parent created c :
  tip commitSha parent (created ++ [c]) = Some (sha_of commitSha c).
Proof. unfold tip. by rewrite last_snoc. Qed.

(** What one turn of the commit loop adds. *)
Lemma push_commit_history st schedule parentSha commit :
  let out := push_commit hashContent blobSha treeSha commitSha (st, schedule, parentSha) commit in
  refs_updated (calls out.1.1) = refs_updated (calls st) /\
  if has_files commit
  then exists tree,
      commits_created (calls out.1.1)
      = commits_created (calls st)
        ++ [(message commit, tree, match parentSha with Some p => [p] | None => [] end)] /\
      out.2 = Some (commitSha (message commit) tree
                      (match parentSha with Some p => [p] | None => [] end))
  else commits_created (calls out.1.1) = commits_created (calls st) /\ out.2 = parentSha.
Proof.
  unfold push_commit, has_files. destruct (files commit) as [|f fs] eqn:Hfiles; [done|].
  set (st0 := MkState (blobCache st) (calls st) (totalBlobsCreated st)
                (totalBlobsReused st) ∅ []).
  destruct (process_files_commits (f :: fs) schedule st0) as [Hcommits Hrefs].
  destruct (process_files hashContent blobSha schedule st0 (f :: fs)) as [st1 schedule1].
  simpl in Hcommits, Hrefs. simpl.
  unfold await_all. simpl. rewrite !settle_all_calls.
  unfold commits_created, refs_updated in *. rewrite !omap_app. simpl.
  rewrite Hcommits, Hrefs, app_nil_r. split; [done|]. eexists. split; done.
Qed.

Lemma push_commits_history commits :
  forall st schedule parentSha,
    refs_updated (calls st) = [] ->
    linear commitSha None (commits_created (calls st)) ->
    parentSha = tip commitSha None (commits_created (calls st)) ->
    let out := foldl (push_commit hashContent blobSha treeSha commitSha)
                 (st, schedule, parentSha) commits in
    refs_updated (calls out.1.1) = [] /\
    linear commitSha None (commits_created (calls out.1.1)) /\
    out.2 = tip commitSha None (commits_created (calls out.1.1)) /\
    map (fun c => c.1.1) (commits_created (calls out.1.1))
    = map (fun c => c.1.1) (commits_created (calls st))
      ++ map message (List.filter has_files commits).
Proof.
  induction commits as [|c commits IH]; intros st schedule parentSha Hrefs Hlin Htip;
    cbn [foldl List.filter].
  - simpl. by rewrite app_nil_r.
  - pose proof (push_commit_history st schedule parentSha c) as Hstep. cbv zeta in Hstep.
    destruct (push_commit hashContent blobSha treeSha commitSha (st, schedule, parentSha) c)
      as [[st1 schedule1] parent1].
    cbn [fst snd] in Hstep. destruct Hstep as [Hrefs1 Hstep].
    destruct (has_files c).
    + destruct Hstep as (tree & Hcreated & ->).
      destruct (IH st1 schedule1
                  (Some (commitSha (message c) tree
                           (match parentSha with Some p => [p] | None => [] end))))
        as (H1 & H2 & H3 & H4).
      * by rewrite Hrefs1.
      * rewrite Hcreated. apply linear_snoc; [done|]. simpl. by rewrite <- Htip.
      * by rewrite Hcreated, tip_snoc.
      * split; [done|]. split; [done|]. split; [done|].
        rewrite H4, Hcreated, map_app. simpl. by rewrite <- app_assoc.
    + destruct Hstep as [Hcreated ->].
      destruct (IH st1 schedule1 parentSha) as (H1 & H2 & H3 & H4).
      * by rewrite Hrefs1.
      * by rewrite Hcreated.
      * by rewrite Hcreated.
      * split; [done|]. split; [done|]. split; [done|]. by rewrite H4, Hcreated.
Qed.

(** X22 — the history that an export creates.  Whatever the order in
    which the blob responses arrive, [forcePushToGitHub] creates one
    commit for every local commit whose tree has files, oldest first and
    with the local message, skipping the commits without files; each
    created commit has the one created before it as its only parent and
    the first has none; the branch is moved once, at the very end, to the
    last commit created, whose sha is returned.  The export fails with
    "No commits were created" exactly when no local commit has files. *)
Theorem export_history_is_linear :
  forall schedule commits,
    let pushed := List.filter has_files (reverse commits) in
    let result := forcePushToGitHub hashContent blobSha treeSha commitSha schedule commits in
    (result = None <-> pushed = []) /\
    (forall st sha,
        result = Some (st, sha) ->
        let created := commits_created (calls st) in
        map (fun c => c.1.1) created = map message pushed /\
        linear commitSha None created /\
        tip commitSha None created = Some sha /\
        refs_updated (calls st) = [sha] /\
        last (calls st) = Some (UpdateRef sha)).
Proof.
  intros schedule commits pushed result.
  destruct (push_commits_history (reverse commits) initial schedule None)
    as (Hrefs & Hlin & Htip & Hmsgs); [done..|].
  unfold result, forcePushToGitHub.
  destruct (foldl (push_commit hashContent blobSha treeSha commitSha)
              (initial, schedule, None) (reverse commits)) as [[st schedule1] parentSha].
  simpl in Hrefs, Hlin, Htip, Hmsgs. fold pushed in Hmsgs.
  split.
  - destruct parentSha as [sha|]; split; try done.
    + intros Hnone. rewrite Hnone in Hmsgs. simpl in Hmsgs.
      apply map_eq_nil in Hmsgs. unfold tip in Htip. by rewrite Hmsgs in Htip.
    + intros _. unfold tip in Htip.
      destruct (commits_created (calls st)) as [|c created] eqn:Hc.
      * simpl in Hmsgs. symmetry in Hmsgs. by apply map_eq_nil in Hmsgs.
      * exfalso. destruct (last (c :: created)) eqn:Hlast; [done|].
        by apply last_None in Hlast.
  - intros st' sha. destruct parentSha as [p|]; [|done]. intros [= <- <-]. simpl.
    unfold commits_created, refs_updated in *. rewrite !omap_app. simpl.
    rewrite !app_nil_r, Hrefs. split; [done|]. split; [done|]. split; [done|].
    split; [done|]. by rewrite last_snoc.
Qed.

End GitHubExportHistoryFacts.

Section AgentFactoryFacts.
Import JS AgentFactory.
Context {TemplateDetails : Type}.

(** X23 — no agent is created for a query while the sandbox client
    is the local one.  With [SandboxSdkClient.listTemplates] answering an
    empty list, [getTemplateForQuery] rejects whatever [selectTemplate]
    and the sandbox service answer, so [createAgent] rejects with the
    same error and the registry of the agent manager is left as it was;
    and with the local client's [getTemplateDetails] as the sandbox
    service, [getTemplateForQuery] rejects for every list of templates. *)
Theorem createAgent_never_succeeds_locally :
  forall sandboxSessionId selectTemplate
         (getSandboxService : string -> promise (string -> TemplateDetailsResponse TemplateDetails))
         initialize interleaved fresh agentId query agents,
    let template :=
      getTemplateForQuery (Some SandboxSdkClient_listTemplates) sandboxSessionId
        selectTemplate getSandboxService in
    let created :=
      createAgent (Some SandboxSdkClient_listTemplates) sandboxSessionId selectTemplate
        getSandboxService initialize interleaved fresh agentId query agents in
    rejected template = true /\
    rejected created.1 = true /\
    created.2 = agents /\
    AgentManager.getAgent created.2 agentId = AgentManager.getAgent agents agentId /\
    (forall templatesResponse,
        rejected (getTemplateForQuery (TemplateDetails := TemplateDetails)
                    templatesResponse sandboxSessionId selectTemplate
                    (fun _ => Resolved SandboxSdkClient_getTemplateDetails)) = true).
Proof.
  intros sandboxSessionId selectTemplate getSandboxService initialize interleaved fresh
    agentId query agents template created.
  assert (rejected template = true) as Htemplate.
  { unfold template, getTemplateForQuery. simpl.
    destruct (selectTemplate []) as [analyze|e]; [|done]. simpl.
    destruct (getSandboxService sandboxSessionId) as [details|e]; [|done]. simpl.
    destruct (selectedTemplateName analyze) as [name|]; [|done].
    by destruct (String.eqb name ""). }
  split; [done|].
  assert (rejected created.1 = true /\ created.2 = agents) as [Hrej Hagents].
  { unfold created, createAgent. fold template. by destruct template. }
  split; [done|]. split; [done|]. split; [by rewrite Hagents|].
  intros [response|]; [|done]. unfold getTemplateForQuery.
  destruct (lt_success response); [|done]. simpl.
  destruct (selectTemplate (templates response)) as [analyze|e]; [|done]. simpl.
  destruct (selectedTemplateName analyze) as [name|]; [|done].
  destruct (String.eqb name ""); [done|].
  by destruct (List.find _ (templates response)).
Qed.

End AgentFactoryFacts.

Section GenerationFacts.
Import JS Generation.

(** X24 — the generation flag.  [generateAllFiles] does nothing when
    the MVP is generated and no user input is pending, or when a
    generation is already marked as running.  Otherwise it runs the
    build, and when it settles: the abort controller has been cleared and
    the state is the one the build left, provided the template details
    could be loaded, whether the build failed or not; the agent is no
    longer marked as generating exactly when both the template details
    and the final status update went through, which is also when the call
    resolves; and if it is still marked as generating, every later
    [generateAllFiles] returns at once without building. *)
Theorem generation_flag :
  forall ensureTemplateDetails build updateApp rt,
    let state := PhasicAgent.state (machine rt) in
    let idle := PhasicAgent.mvpGenerated state
                && Nat.eqb (length (PhasicAgent.pendingUserInputs state)) 0 in
    let out := generateAllFiles ensureTemplateDetails build updateApp rt in
    (idle || isCodeGenerating rt = true -> out = (Resolved tt, rt)) /\
    (idle || isCodeGenerating rt = false ->
     (resolved ensureTemplateDetails = true ->
      machine out.2 = (build (machine rt)).2 /\
      InferenceAbort.currentAbortController (abort out.2) = None /\
      (InferenceAbort.cancelCurrentInference (abort out.2)).1 = false) /\
     (isCodeGenerating out.2 = false <->
      resolved ensureTemplateDetails = true /\ resolved updateApp = true) /\
     (resolved out.1 = true <->
      resolved ensureTemplateDetails = true /\ resolved updateApp = true) /\
     (isCodeGenerating out.2 = true ->
      forall ensureTemplateDetails' build' updateApp',
        generateAllFiles ensureTemplateDetails' build' updateApp' out.2
        = (Resolved tt, out.2))).
Proof.
  intros ensureTemplateDetails build updateApp rt state idle out.
  unfold out, generateAllFiles. fold state. fold idle.
  destruct idle eqn:Hidle; simpl; [done|].
  destruct (isCodeGenerating rt) eqn:Hgen; simpl; [done|].
  split; [done|]. intros _.
  unfold buildWrapper. simpl.
  destruct ensureTemplateDetails as [[]|e]; simpl.
  - destruct updateApp as [ok|e]; simpl.
    + split; [done|]. split; [done|]. split; [done|]. done.
    + split; [done|]. split; [split; [done|intros [_ ?]; done]|].
      split; [split; [done|intros [_ ?]; done]|].
      intros _ e' b' u'. unfold generateAllFiles. simpl.
      match goal with |- (if ?c then _ else _) = _ => by destruct c end.
  - split; [done|]. split; [split; [done|intros [? _]; done]|].
    split; [split; [done|intros [? _]; done]|].
    intros _ e' b' u'. unfold generateAllFiles. simpl.
    match goal with |- (if ?c then _ else _) = _ => by destruct c end.
Qed.

End GenerationFacts.

Section CommandRunnerFacts.
Import JS CommandRunner.

Variable o : Oracles.

Lemma unique_from_NoDup seen commands :
  NoDup (unique_from seen commands) /\
  (forall c, c ∈ unique_from seen commands <-> c ∈ commands /\ c ∉ seen).
Proof.
  revert seen. induction commands as [|cmd rest IH]; intros seen; simpl.
  - split; [constructor|]. intros c. split; [by intros H%elem_of_nil|].
    by intros [H%elem_of_nil _].
  - case_bool_decide as Hseen.
    + destruct (IH seen) as [Hnd Hin]. split; [done|]. intros c. rewrite Hin.
      split; [intros [? ?]; split; [by right|done]|].
      intros [[->|Hc]%elem_of_cons Hn]; done.
    + destruct (IH (cmd :: seen)) as [Hnd Hin]. split.
      * constructor; [|done]. rewrite Hin. intros [_ Hn]. apply Hn. by left.
      * intros c. rewrite elem_of_cons, Hin. split.
        -- intros [->|[Hc Hn]]; [split; [by left|done]|].
           split; [by right|]. intros Hs. apply Hn. by right.
        -- intros [[->|Hc]%elem_of_cons Hn]; [by left|].
           destruct (decide (c = cmd)) as [->|Hne]; [by left|]. right.
           split; [done|]. by intros [?|?]%elem_of_cons.
Qed.

Lemma chunk_loop_spec chunkSize :
  (1 <= chunkSize)%nat ->
  forall fuel commands,
    (length commands <= fuel)%nat ->
    concat (chunk_loop fuel chunkSize commands) = commands /\
    (forall chunk, chunk ∈ chunk_loop fuel chunkSize commands ->
                   (1 <= length chunk <= chunkSize)%nat) /\
    (length (chunk_loop fuel chunkSize commands) <= length commands)%nat.
Proof.
  intros Hsize. induction fuel as [|fuel IH]; intros commands Hfuel.
  - destruct commands; [|simpl in Hfuel; lia]. simpl.
    split; [done|]. split; [by intros chunk H%elem_of_nil|lia].
  - destruct commands as [|c commands].
    { simpl. split; [done|]. split; [by intros chunk H%elem_of_nil|lia]. }
    cbn [chunk_loop].
    destruct (IH (drop chunkSize (c :: commands))) as (Hconcat & Hchunks & Hlen).
    { rewrite length_drop. simpl in *. lia. }
    split; [|split].
    + simpl concat. rewrite Hconcat. apply take_drop.
    + intros chunk [->|Hin]%elem_of_cons; [|by apply Hchunks].
      rewrite length_take. simpl. lia.
    + simpl length. rewrite length_drop in Hlen. simpl in *. lia.
Qed.

Lemma reported_mono run run' sent c :
  executed run' = executed run ++ sent -> reported o run c -> reported o run' c.
Proof.
  intros Hex (i & chunk & results & Hi & He & Hin).
  exists i, chunk, results. split; [|done]. rewrite Hex. by apply lookup_app_l_Some.
Qed.

Lemma retry_loop_spec shouldRetry mr fuel :
  forall chunk rc run flow run',
    retry_loop o shouldRetry mr fuel chunk rc run = (flow, run') ->
    (forall c, c ∈ successfulCommands run -> reported o run c) ->
    exists sent,
      executed run' = executed run ++ sent /\
      (length sent <= mr - rc)%nat /\
      (forall c, c ∈ successfulCommands run' -> reported o run' c).
Proof.
  induction fuel as [|fuel IH]; intros chunk rc run flow run' Hrun Hrep.
  { simpl in Hrun. injection Hrun as <- <-. exists []. rewrite app_nil_r.
    split; [done|]. split; [simpl; lia|done]. }
  cbn [retry_loop] in Hrun.
  destruct (Nat.ltb 0 (length chunk) && Nat.ltb rc mr) eqn:Hcond; simpl in Hrun.
  2:{ injection Hrun as <- <-. exists []. rewrite app_nil_r.
      split; [done|]. split; [simpl; lia|done]. }
  apply andb_true_iff in Hcond as [_ Hrc]. apply Nat.ltb_lt in Hrc.
  set (run1 := MkRun (successfulCommands run) (executed run ++ [chunk])
                 (status_checks run) (suggestions run)) in *.
  assert (forall c, c ∈ successfulCommands run1 -> reported o run1 c) as Hrep1.
  { intros c Hc. apply (reported_mono run run1 [chunk]); [done|by apply Hrep]. }
  destruct (execute o (length (executed run)) chunk) as [results| |] eqn:Hexec.
  - set (run2 := MkRun (successfulCommands run1
                          ++ map command (List.filter success results))
                   (executed run1) (status_checks run1) (suggestions run1)) in *.
    assert (forall c, c ∈ successfulCommands run2 -> reported o run2 c) as Hrep2.
    { intros c [Hc|Hc]%elem_of_app.
      - apply (reported_mono run1 run2 []); [by rewrite app_nil_r|by apply Hrep1].
      - apply list_elem_of_fmap in Hc as (r & -> & Hr).
        apply list_elem_of_In, filter_In in Hr as [Hr Hs].
        exists (length (executed run)), chunk, results. split; [|split; [done|]].
        + simpl. rewrite lookup_app_r by lia. by rewrite Nat.sub_diag.
        + apply list_elem_of_In. destruct r as [cmd s]. simpl in *. by subst s. }
    assert (forall next rc' runx flow run',
               retry_loop o shouldRetry mr fuel next rc' runx = (flow, run') ->
               rc' = S rc -> executed runx = executed run2 ->
               (forall c, c ∈ successfulCommands runx -> reported o runx c) ->
               exists sent,
                 executed run' = executed run ++ sent /\
                 (length sent <= mr - rc)%nat /\
                 (forall c, c ∈ successfulCommands run' -> reported o run' c)) as Hnext.
    { intros next rc' runx flow0 run0 Hloop -> Hex Hrepx.
      destruct (IH _ _ _ _ _ Hloop Hrepx) as (sent & Hsent & Hlen & Hrep0).
      exists (chunk :: sent). rewrite Hsent, Hex. simpl.
      split; [by rewrite <- app_assoc|]. split; [lia|done]. }
    assert (exists sent,
               executed run2 = executed run ++ sent /\ (length sent <= mr - rc)%nat /\
               (forall c, c ∈ successfulCommands run2 -> reported o run2 c)) as Hstop.
    { exists [chunk]. split; [done|]. split; [simpl; lia|done]. }
    destruct (Nat.eqb (length (List.filter (fun r => negb (success r)) results)) 0);
      [by injection Hrun as <- <-|].
    destruct shouldRetry; simpl in Hrun; [|by injection Hrun as <- <-].
    destruct (Nat.ltb 0 (length (List.filter is_install
                                   (map command
                                      (List.filter (fun r => negb (success r)) results))))
              && Nat.ltb (S rc) mr).
    + set (asked := MkRun (successfulCommands run2) (executed run2)
                      (status_checks run2) (S (suggestions run2))) in *.
      assert (forall c, c ∈ successfulCommands asked -> reported o asked c) as Hrepa.
      { intros c Hc. apply (reported_mono run2 asked []); [by rewrite app_nil_r|].
        by apply Hrep2. }
      destruct (suggest o (suggestions run)) as [[[|c cs]|]|].
      * by eapply Hnext.
      * by eapply Hnext.
      * by eapply Hnext.
      * injection Hrun as <- <-. exists [chunk]. split; [done|]. split; [simpl; lia|done].
    + by eapply Hnext.
  - assert (forall flow0,
               (flow0, MkRun (successfulCommands run1) (executed run1)
                         (S (status_checks run1)) (suggestions run1)) = (flow, run') ->
               exists sent,
                 executed run' = executed run ++ sent /\ (length sent <= mr - rc)%nat /\
                 (forall c, c ∈ successfulCommands run' -> reported o run' c)) as Hchecked.
    { intros flow0 [= _ <-]. exists [chunk]. split; [done|]. split; [simpl; lia|].
      intros c Hc. apply (reported_mono run1 _ []); [by rewrite app_nil_r|by apply Hrep1]. }
    destruct (status o (status_checks run)); by eapply Hchecked.
  - injection Hrun as <- <-. exists [chunk]. split; [done|]. split; [simpl; lia|done].
Qed.

(** Fuel beyond the number of turns that the loop condition allows
    changes nothing. *)
Lemma retry_loop_fuel shouldRetry mr fuel :
  forall extra chunk rc run,
    (mr - rc < fuel)%nat ->
    retry_loop o shouldRetry mr (fuel + extra) chunk rc run
    = retry_loop o shouldRetry mr fuel chunk rc run.
Proof.
  induction fuel as [|fuel IH]; intros extra chunk rc run Hfuel; [lia|].
  cbn [Nat.add retry_loop].
  destruct (Nat.ltb 0 (length chunk) && Nat.ltb rc mr) eqn:Hcond; [|done]. simpl.
  apply andb_true_iff in Hcond as [_ Hrc]. apply Nat.ltb_lt in Hrc.
  destruct (execute o (length (executed run)) chunk) as [results| |]; [|done..].
  destruct (Nat.eqb _ 0); [done|]. destruct shouldRetry; [|done]. simpl.
  destruct (_ && Nat.ltb (S rc) mr).
  - destruct (suggest o (suggestions run)) as [[[|c cs]|]|]; [| | |done];
      apply IH; lia.
  - apply IH. lia.
Qed.

Lemma retry_loop_once chunk run :
  chunk <> [] ->
  executed (retry_loop o false 1 2 chunk 0 run).2 = executed run ++ [chunk].
Proof.
  intros Hne. cbn [retry_loop].
  destruct chunk as [|c chunk]; [done|]. simpl.
  destruct (execute o (length (executed run)) (c :: chunk)) as [results| |]; [| |done].
  - by destruct (Nat.eqb _ 0).
  - by destruct (status o (status_checks run)).
Qed.

Lemma run_chunks_spec shouldRetry chunks :
  forall run flow run',
    run_chunks o shouldRetry chunks run = (flow, run') ->
    (forall c, c ∈ successfulCommands run -> reported o run c) ->
    exists sent,
      executed run' = executed run ++ sent /\
      (length sent <= maxRetries shouldRetry * length chunks)%nat /\
      (forall c, c ∈ successfulCommands run' -> reported o run' c) /\
      (shouldRetry = false -> (forall chunk, chunk ∈ chunks -> chunk <> []) ->
       sent `prefix_of` chunks).
Proof.
  induction chunks as [|chunk chunks IH]; intros run flow run' Hrun Hrep.
  { simpl in Hrun. injection Hrun as <- <-. exists []. rewrite app_nil_r.
    split; [done|]. split; [simpl; lia|]. split; [done|]. intros _ _. by exists []. }
  cbn [run_chunks] in Hrun.
  destruct (retry_loop o shouldRetry (maxRetries shouldRetry) (S (maxRetries shouldRetry))
              chunk 0 run) as [flow1 run1] eqn:Hloop.
  destruct (retry_loop_spec _ _ _ _ _ _ _ _ Hloop Hrep) as (sent1 & Hsent1 & Hlen1 & Hrep1).
  assert (shouldRetry = false -> chunk <> [] -> sent1 = [chunk]) as Honce.
  { intros -> Hne. pose proof (retry_loop_once chunk run Hne) as Hex.
    change (retry_loop o false 1 2 chunk 0 run = (flow1, run1)) in Hloop.
    rewrite Hloop in Hex. simpl in Hex. rewrite Hsent1 in Hex.
    by apply app_inv_head in Hex. }
  destruct flow1.
  - destruct (IH _ _ _ Hrun Hrep1) as (sent & Hsent & Hlen & Hrep' & Hprefix).
    exists (sent1 ++ sent). rewrite Hsent, Hsent1, app_assoc. split; [done|].
    split; [rewrite length_app; simpl; lia|]. split; [done|].
    intros Hno Hall. rewrite (Honce Hno (Hall chunk ltac:(left))). simpl.
    apply prefix_cons. apply Hprefix; [done|]. intros ch Hch. apply Hall. by right.
  - injection Hrun as <- <-. exists sent1. split; [done|].
    split; [simpl; lia|]. split; [done|].
    intros Hno Hall. rewrite (Honce Hno (Hall chunk ltac:(left))).
    apply prefix_cons. apply prefix_nil.
Qed.

(** X25 — the bound on command execution.  With a chunk size of at
    least 1, [executeCommands] removes duplicate commands and cuts the
    rest into chunks of at most [chunkSize] commands, none of them empty,
    that together are the commands in order.  Over the whole run it sends
    the sandbox at most three requests per chunk with retries and at most
    one per chunk without; without retries the requests are the chunks
    themselves, in order, up to the one at which the run stopped.  Every
    command counted as successful was reported successful by the sandbox
    for a request that was sent, what is saved is the list of successful
    commands, and the retry loop of a chunk ends by its own condition:
    more turns than [maxRetries + 1] change nothing. *)
Theorem executeCommands_bounded :
  forall commands shouldRetry chunkSize,
    (1 <= chunkSize)%nat ->
    let out := executeCommands o commands shouldRetry chunkSize in
    let chunks := commandChunks chunkSize (unique commands) in
    NoDup (unique commands) /\
    (forall c, c ∈ unique commands <-> c ∈ commands) /\
    concat chunks = unique commands /\
    (forall chunk, chunk ∈ chunks -> (1 <= length chunk <= chunkSize)%nat) /\
    (length (executed (run out)) <= maxRetries shouldRetry * length chunks)%nat /\
    (shouldRetry = false -> executed (run out) `prefix_of` chunks) /\
    (forall c, c ∈ successfulCommands (run out) -> reported o (run out) c) /\
    (forall s, saved out = Some s -> s = successfulCommands (run out)) /\
    (forall extra chunk run0,
        retry_loop o shouldRetry (maxRetries shouldRetry)
          (S (maxRetries shouldRetry) + extra) chunk 0 run0
        = retry_loop o shouldRetry (maxRetries shouldRetry)
            (S (maxRetries shouldRetry)) chunk 0 run0).
Proof.
  intros commands shouldRetry chunkSize Hsize out chunks.
  destruct (unique_from_NoDup [] commands) as [Hnd Hin].
  destruct (chunk_loop_spec chunkSize Hsize (length (unique commands)) (unique commands))
    as (Hconcat & Hchunks & _); [done|].
  split; [done|].
  split; [intros c; unfold unique; rewrite Hin; split;
          [by intros [? _]|intros ?; split; [done|by intros ?%elem_of_nil]]|].
  split; [done|]. split; [done|].
  unfold out, executeCommands. fold chunks.
  destruct (run_chunks o shouldRetry chunks (MkRun [] [] 0 0)) as [flow run'] eqn:Hrun.
  destruct (run_chunks_spec _ _ _ _ _ Hrun) as (sent & Hsent & Hlen & Hrep & Hprefix).
  { by intros c Hc%elem_of_nil. }
  simpl in Hsent.
  assert (executed (run (match flow with
                         | Continue =>
                             MkOutcome run'
                               (Some (List.filter
                                        (fun cmd => negb (bool_decide
                                                            (cmd ∈ successfulCommands run')))
                                        (unique commands)))
                               (Some (successfulCommands run'))
                         | Return => MkOutcome run' None None
                         end)) = sent /\
          successfulCommands (run (match flow with
                                   | Continue =>
                                       MkOutcome run'
                                         (Some (List.filter
                                                  (fun cmd => negb (bool_decide
                                                                      (cmd ∈ successfulCommands run')))
                                                  (unique commands)))
                                         (Some (successfulCommands run'))
                                   | Return => MkOutcome run' None None
                                   end)) = successfulCommands run') as [Hex Hsucc]
      by (by destruct flow).
  split; [by destruct flow; simpl; rewrite Hsent|].
  split.
  { intros Hno. destruct flow; simpl; rewrite Hsent; apply Hprefix; try done;
      intros chunk Hch Hnil; specialize (Hchunks chunk Hch); rewrite Hnil in Hchunks;
      simpl in Hchunks; lia. }
  split; [by destruct flow|]. split; [by destruct flow; simpl; intros s [= <-]|].
  intros extra chunk run0. apply retry_loop_fuel. lia.
Qed.

End CommandRunnerFacts.

Lemma executeCommands_bounded_witness :
  let o := CommandRunner.MkOracles
             (fun i chunk =>
                match i with
                | O => CommandRunner.Results
                         [CommandRunner.MkResult "bun install" false;
                          CommandRunner.MkResult "bun run build" true]
                | _ => CommandRunner.Results
                         (map (fun c => CommandRunner.MkResult c true) chunk)
                end)
             (fun _ => CommandRunner.Healthy)
             (fun _ => CommandRunner.Suggested (Some ["bun add react"]))
             (fun _ => true) in
  let commands := ["bun install"; "bun run build"; "bun install"] in
  let out := CommandRunner.executeCommands o commands true 5 in
  (1 <= 5)%nat /\
  CommandRunner.executed (CommandRunner.run out)
  = [["bun install"; "bun run build"]; ["bun add react"]] /\
  CommandRunner.saved out = Some ["bun run build"; "bun add react"] /\
  (length (CommandRunner.executed (CommandRunner.run out))
   <= CommandRunner.maxRetries true
      * length (CommandRunner.commandChunks 5 (CommandRunner.unique commands)))%nat.
Proof.
  intros o commands out.
  split; [lia|]. split; [vm_compute; reflexivity|]. split; [vm_compute; reflexivity|].
  destruct (executeCommands_bounded o commands true 5) as (_ & _ & _ & _ & Hbound & _);
    [lia|exact Hbound].
Defined.
